(** * District matching and attribute merging of create_true_solar_suitability.py

    A shallow embedding of [create_true_solar_suitability_shapefile]: the
    string methods it calls, the data-frame operations it relies on, the
    function itself as a program in a small trace-and-exception monad, and
    the properties of the merge pipeline stated over that program.

    A string holds text in UTF-8. Comparison, [startswith], [endswith] and
    [replace] are the same on the bytes as on the characters, and [len] and
    the slice [s[:n]] count characters. The case mappings act on the letters
    A-Z and a-z and [strip] removes the ASCII white space of [str.isspace]:
    [lower], [upper], [title] and [strip] are Python's on ASCII text, and a
    statement that depends on them for other text says so with
    [Text.is_ascii]. *)

From Stdlib Require Import ZArith Ascii String.
From stdpp Require Import base option list strings pretty gmap sorting.

Local Open Scope string_scope.
Local Open Scope list_scope.

(** ** Python string methods *)

Module Text.

Definition is_upper (c : ascii) : bool :=
  let n := nat_of_ascii c in (65 <=? n)%nat && (n <=? 90)%nat.

Definition is_lower (c : ascii) : bool :=
  let n := nat_of_ascii c in (97 <=? n)%nat && (n <=? 122)%nat.

(** A character that has a case: what CPython's title-casing loop tests. *)
Definition is_cased (c : ascii) : bool := is_upper c || is_lower c.

(** [str.isspace] on one ASCII character: TAB, LF, VT, FF, CR, the four
    separators FS GS RS US, and the space. *)
Definition is_space (c : ascii) : bool :=
  let n := nat_of_ascii c in
  ((9 <=? n)%nat && (n <=? 13)%nat) || ((28 <=? n)%nat && (n <=? 32)%nat).

Definition to_lower (c : ascii) : ascii :=
  if is_upper c then ascii_of_nat (nat_of_ascii c + 32) else c.

Definition to_upper (c : ascii) : ascii :=
  if is_lower c then ascii_of_nat (nat_of_ascii c - 32) else c.

Fixpoint map_chars (f : ascii -> ascii) (s : string) : string :=
  match s with
  | EmptyString => EmptyString
  | String c s' => String (f c) (map_chars f s')
  end.

(** [s.lower()] and [s.upper()]. *)
Definition lower : string -> string := map_chars to_lower.
Definition upper : string -> string := map_chars to_upper.

(** [s.title()]: a cased character is upper-cased when the character before
    it is not cased and lower-cased when it is. *)
Fixpoint title_from (previous_is_cased : bool) (s : string) : string :=
  match s with
  | EmptyString => EmptyString
  | String c s' =>
      String (if previous_is_cased then to_lower c else to_upper c)
             (title_from (is_cased c) s')
  end.

Definition title : string -> string := title_from false.

Fixpoint lstrip (s : string) : string :=
  match s with
  | EmptyString => EmptyString
  | String c s' => if is_space c then lstrip s' else s
  end.

Fixpoint rstrip (s : string) : string :=
  match s with
  | EmptyString => EmptyString
  | String c s' =>
      match rstrip s' with
      | EmptyString => if is_space c then EmptyString else String c EmptyString
      | r => String c r
      end
  end.

(** [s.strip()]. *)
Definition strip (s : string) : string := rstrip (lstrip s).

(** [s.replace(c, '')] for a one-character [c]. *)
Fixpoint remove_char (x : ascii) (s : string) : string :=
  match s with
  | EmptyString => EmptyString
  | String c s' =>
      if Ascii.eqb c x then remove_char x s' else String c (remove_char x s')
  end.

(** [s.startswith(p)]. *)
Fixpoint startswith (p s : string) : bool :=
  match p, s with
  | EmptyString, _ => true
  | String a p', String b s' => Ascii.eqb a b && startswith p' s'
  | String _ _, EmptyString => false
  end.

Fixpoint drop_chars (n : nat) (s : string) : string :=
  match n, s with
  | O, _ => s
  | S n', String _ s' => drop_chars n' s'
  | S _, EmptyString => EmptyString
  end.

(** [s.endswith(p)]. *)
Definition endswith (p s : string) : bool :=
  (String.length p <=? String.length s)%nat
  && String.eqb (drop_chars (String.length s - String.length p) s) p.

(** A byte of the form 10xxxxxx continues the character that the byte
    before it began. *)
Definition is_continuation (c : ascii) : bool :=
  let n := nat_of_ascii c in (128 <=? n)%nat && (n <? 192)%nat.

(** [len(s)]: the number of characters. *)
Fixpoint len (s : string) : nat :=
  match s with
  | EmptyString => 0
  | String c s' => (if is_continuation c then 0 else 1) + len s'
  end.

(** [s[:n]]: the first [n] characters. *)
Fixpoint take_chars (n : nat) (s : string) {struct s} : string :=
  match s with
  | EmptyString => EmptyString
  | String c s' =>
      if is_continuation c then String c (take_chars n s')
      else match n with
           | O => EmptyString
           | S n' => String c (take_chars n' s')
           end
  end.

(** Text of the ASCII range. *)
Fixpoint is_ascii (s : string) : bool :=
  match s with
  | EmptyString => true
  | String c s' => (nat_of_ascii c <? 128)%nat && is_ascii s'
  end.

(** [s.replace(old, '')] for a non-empty [old]: the occurrences are found
    from the left and do not overlap; [skip] counts the characters of the
    occurrence being deleted that are still ahead. *)
Fixpoint remove_from (old : string) (skip : nat) (s : string) : string :=
  match s with
  | EmptyString => EmptyString
  | String c s' =>
      match skip with
      | S k => remove_from old k s'
      | O =>
          if startswith old s
          then remove_from old (String.length old - 1) s'
          else String c (remove_from old O s')
      end
  end.

Definition remove_sub (old s : string) : string :=
  match old with
  | EmptyString => s
  | _ => remove_from old O s
  end.

End Text.

(** ** Cells, columns and frames *)

(** A cell of a sheet or of the attribute table: missing ([NaN] or [None]),
    text, a number, a boolean, or a geometry (named by an identifier). *)
Inductive value : Type :=
| NaN
| Str (s : string)
| Num (z : Z)
| Bool (b : bool)
| Geom (g : nat).

#[global] Instance value_eq_dec : EqDecision value.
Proof. solve_decision. Defined.

Definition is_text (v : value) : bool :=
  match v with Str _ => true | _ => false end.

(** [str(v)]; numbers are integers here, and a geometry never stands in a
    name column. *)
Definition py_str (v : value) : string :=
  match v with
  | NaN => "nan"
  | Str s => s
  | Num z => pretty z
  | Bool true => "True"
  | Bool false => "False"
  | Geom _ => "geometry"
  end.

(** The column types the script distinguishes: only [dtype == 'object'] is
    ever tested, and the [.str] accessor needs it. *)
Inductive dtype : Type := DObject | DNumber | DBool | DGeometry.

#[global] Instance dtype_eq_dec : EqDecision dtype.
Proof. solve_decision. Defined.

(** A column: pandas keeps the label, the dtype and the cells; a frame is the
    list of its columns in order. Labels may repeat (truncated names
    collide), so a frame is not a map from labels. *)
Record series : Type := Series { label : string; sdtype : dtype; cells : list value }.

#[global] Instance series_eq_dec : EqDecision series.
Proof. solve_decision. Defined.

Abbreviation frame := (list series).

Inductive exn : Type :=
| KeyError (l : string)
| ValueError
| AttributeError
| TypeError
| MergeError
| OSError.

Inductive result (A : Type) : Type :=
| Ok (a : A)
| Err (e : exn).
Arguments Ok {A} a.
Arguments Err {A} e.

#[global] Instance result_ret : MRet result := fun _ a => Ok a.
#[global] Instance result_bind : MBind result :=
  fun _ _ k r => match r with Ok a => k a | Err e => Err e end.

Module Frame.

Definition isna (v : value) : bool :=
  match v with NaN => true | _ => false end.

(** [df.columns]. *)
Definition labels (f : frame) : list string := label <$> f.

(** [l in df.columns]. *)
Definition has (l : string) (f : frame) : bool := bool_decide (l ∈ labels f).

Definition columns_named (l : string) (f : frame) : frame :=
  filter (fun c => label c = l) f.

(** [df[l]] where the script goes on to use it as one column: [KeyError]
    when no column has the label; with a repeated label pandas returns a
    frame and the use that follows raises [dup]. *)
Definition get (dup : exn) (l : string) (f : frame) : result series :=
  match columns_named l f with
  | [] => Err (KeyError l)
  | [c] => Ok c
  | _ => Err dup
  end.

(** [df[[l1, ..., ln]]]: every column carrying each requested label, in
    the order requested; [KeyError] for a label no column has. *)
Fixpoint select (ls : list string) (f : frame) : result frame :=
  match ls with
  | [] => Ok []
  | l :: ls' =>
      match columns_named l f with
      | [] => Err (KeyError l)
      | cs => rest ← select ls' f; Ok (cs ++ rest)
      end
  end.

(** [df[l] = column]: replaces the column(s) labelled [l] where they
    stand, else appends a new last column. *)
Definition assign (l : string) (d : dtype) (vs : list value) (f : frame) : frame :=
  if has l f
  then (fun c => if decide (label c = l) then Series l d vs else c) <$> f
  else f ++ [Series l d vs].

(** [df.drop(columns=ls)] for labels known to be present, and
    [df.drop(l, axis=1, errors='ignore')]. *)
Definition drop (ls : list string) (f : frame) : frame :=
  filter (fun c => label c ∉ ls) f.

(** [df.drop(l, axis=1)]: [KeyError] when the label is absent. *)
Definition drop_strict (l : string) (f : frame) : result frame :=
  if has l f then Ok (drop [l] f) else Err (KeyError l).

(** [df.rename(columns=mapping)] with [mapping] total on the labels. *)
Definition rename (g : string -> string) (f : frame) : frame :=
  (fun c => Series (g (label c)) (sdtype c) (cells c)) <$> f.

(** [df.columns = names]: [ValueError] on a length mismatch. *)
Fixpoint set_labels (names : list string) (f : frame) : result frame :=
  match names, f with
  | [], [] => Ok []
  | n :: names', c :: f' =>
      rest ← set_labels names' f'; Ok (Series n (sdtype c) (cells c) :: rest)
  | _, _ => Err ValueError
  end.

(** [index.duplicated()]: marks every label already seen to its left. *)
Fixpoint duplicated_from (seen ls : list string) : list bool :=
  match ls with
  | [] => []
  | l :: ls' => bool_decide (l ∈ seen) :: duplicated_from (l :: seen) ls'
  end.

Definition duplicated (ls : list string) : list bool := duplicated_from [] ls.

(** [df.loc[:, mask]] and [index[mask]]: the positions where the mask holds. *)
Fixpoint loc_mask {A : Type} (mask : list bool) (xs : list A) : list A :=
  match mask, xs with
  | b :: mask', x :: xs' => if b then x :: loc_mask mask' xs' else loc_mask mask' xs'
  | _, _ => []
  end.

(** [df.loc[:, ~df.columns.duplicated()]]. *)
Definition drop_duplicated (f : frame) : frame :=
  loc_mask (negb <$> duplicated (labels f)) f.

(** [series.fillna(v)]; the column turns to [object] when a value of
    another kind is written into it. *)
Definition fill_cell (v x : value) : value := if isna x then v else x.

Definition fill_dtype (v : value) (c : series) : dtype :=
  if existsb isna (cells c)
  then match sdtype c, v with
       | DNumber, Num _ => DNumber
       | DBool, Bool _ => DBool
       | _, _ => DObject
       end
  else sdtype c.

Definition fillna (v : value) (c : series) : series :=
  Series (label c) (fill_dtype v c) (fill_cell v <$> cells c).

(** [df[l] = df[l].fillna(v)], which also works on a repeated label. *)
Definition fill_label (l : string) (v : value) (f : frame) : frame :=
  (fun c => if decide (label c = l) then fillna v c else c) <$> f.

(** The [.str] accessor: [AttributeError] unless the column is an object
    column; a cell that is not text gives a missing value. *)
Definition str_cell (g : string -> string) (x : value) : value :=
  match x with Str s => Str (g s) | _ => NaN end.

Definition str_accessor (c : series) : result (list value) :=
  if decide (sdtype c = DObject) then Ok (cells c) else Err AttributeError.

(** [series.str.title()] and [series.str.title().str.strip()]. *)
Definition str_title (c : series) : result (list value) :=
  match str_accessor c with
  | Ok vs => Ok (str_cell Text.title <$> vs)
  | Err e => Err e
  end.

Definition str_title_strip (c : series) : result (list value) :=
  match str_title c with
  | Ok vs => Ok (str_cell Text.strip <$> vs)
  | Err e => Err e
  end.

(** *** Left merge on one key column *)

(** Positions, counted from [j], of the cells of [rk] equal to [k]; a
    missing key matches a missing key, as in pandas. *)
Fixpoint matches_from (j : nat) (k : value) (rk : list value) : list nat :=
  match rk with
  | [] => []
  | r :: rk' =>
      if decide (k = r) then j :: matches_from (S j) k rk'
      else matches_from (S j) k rk'
  end.

(** The rows one left row contributes: one per right row with its key,
    or a single row without partner. *)
Definition rows_for (i : nat) (k : value) (rk : list value) : list (nat * option nat) :=
  match matches_from 0 k rk with
  | [] => [(i, None)]
  | js => (fun j => (i, Some j)) <$> js
  end.

(** The row pairs of [left.merge(right, how='left')]: the left rows in
    order, each once per matching right row, or once with no partner. *)
Fixpoint indexer_from (i : nat) (lk rk : list value) : list (nat * option nat) :=
  match lk with
  | [] => []
  | k :: lk' => rows_for i k rk ++ indexer_from (S i) lk' rk
  end.

(** The number of rows of a left merge: every left row counts once, or as
    often as the right frame has its key. *)
Fixpoint merged_rows (lk rk : list value) : nat :=
  match lk with
  | [] => 0
  | k :: lk' => Nat.max 1 (length (matches_from 0 k rk)) + merged_rows lk' rk
  end.

Definition merge_indexer (lk rk : list value) : list (nat * option nat) :=
  indexer_from 0 lk rk.

Definition take_left (ix : list (nat * option nat)) (vs : list value) : list value :=
  (fun p => default NaN (vs !! p.1)) <$> ix.

Definition take_right (ix : list (nat * option nat)) (vs : list value) : list value :=
  (fun p => match p.2 with Some j => default NaN (vs !! j) | None => NaN end) <$> ix.

(** A boolean column that receives missing values becomes an object
    column; numbers stay numbers (integers become floats). *)
Definition right_dtype (ix : list (nat * option nat)) (d : dtype) : dtype :=
  match d with
  | DBool => if forallb (fun p => bool_decide (is_Some p.2)) ix then DBool else DObject
  | _ => d
  end.

(** The key column of a merge: [KeyError] when absent, [ValueError] when
    the label is not unique. *)
Definition key_column (on : string) (f : frame) : result series :=
  get ValueError on f.

Definition suffixed (overlap : list string) (suffix l : string) : string :=
  if bool_decide (l ∈ overlap) then l +:+ suffix else l.

(** Labels that the suffixes made collide although they differed before:
    pandas refuses such a merge. *)
Definition suffix_clashes (before after : list string) : list string :=
  loc_mask (zip_with andb (duplicated after) (negb <$> duplicated before)) after.

(** The labels both frames have, the key apart: they receive the suffixes. *)
Definition overlap_labels (left right' : frame) : list string :=
  filter (fun l => l ∈ labels right') (labels left).

(** The columns of the result: the left columns, each row taken as often
    as it is paired, then the right columns without the key. *)
Definition left_part (overlap : list string) (ls : string)
    (ix : list (nat * option nat)) (left : frame) : frame :=
  (fun c => Series (suffixed overlap ls (label c)) (sdtype c)
                   (take_left ix (cells c))) <$> left.

Definition right_part (overlap : list string) (rs : string)
    (ix : list (nat * option nat)) (right' : frame) : frame :=
  (fun c => Series (suffixed overlap rs (label c)) (right_dtype ix (sdtype c))
                   (take_right ix (cells c))) <$> right'.

(** [left.merge(right, on=on, how='left', suffixes=(ls, rs))]. *)
Definition merge_left (ls rs : string) (on : string) (left right : frame)
  : result frame :=
  lk ← key_column on left;
  rk ← key_column on right;
  let right' := drop [on] right in
  let overlap := overlap_labels left right' in
  let llabels := suffixed overlap ls <$> labels left in
  let rlabels := suffixed overlap rs <$> labels right' in
  match suffix_clashes (labels left) llabels ++ suffix_clashes (labels right') rlabels with
  | _ :: _ => Err MergeError
  | [] =>
      let ix := merge_indexer (cells lk) (cells rk) in
      Ok (left_part overlap ls ix left ++ right_part overlap rs ix right')
  end.

(** [len(df)] of a frame that has the column [l]. *)
Definition nrows (f : frame) : nat :=
  match f with
  | [] => 0
  | c :: _ => length (cells c)
  end.

End Frame.

(** ** Sheets *)

(** A column of a sheet as [pd.read_excel] returns it: its label is the
    header cell, which is text, or a number or a truth value where the cell
    holds one. *)
Record column : Type := Column { header : value; ctype : dtype; ccells : list value }.

Abbreviation sheet := (list column).

Module Sheet.

(** [df.columns]. *)
Definition headers (s : sheet) : list value := header <$> s.

(** The sheet whose labels are the text labels of a frame. *)
Definition of_frame (f : frame) : sheet :=
  (fun c => Column (Str (label c)) (sdtype c) (cells c)) <$> f.

(** A sheet the script uses by position, or by looking up names that are
    text: every column in its place, a label that is not text written as
    text; no number and no truth value reads as a name the script looks up. *)
Definition as_frame (s : sheet) : frame :=
  (fun c => Series (py_str (header c)) (ctype c) (ccells c)) <$> s.

(** The columns whose label is text. *)
Definition text_columns (s : sheet) : frame :=
  omap (fun c => match header c with
                 | Str l => Some (Series l (ctype c) (ccells c))
                 | _ => None
                 end) s.

Definition all_text (s : sheet) : bool := forallb (fun c => is_text (header c)) s.

(** [df.rename(columns=mapping)], the mapping given by the new labels
    column by column. *)
Definition relabel (new_names : list value) (s : sheet) : sheet :=
  zip_with (fun n c => Column n (ctype c) (ccells c)) new_names s.

End Sheet.

(** ** What a run does: printed lines, the file written, the way it ends *)

(** The lines the script prints on standard output, by the statement that
    prints them and the data it shows. Headings and counts that only report
    progress are left out; every failure line, every warning, the
    confirmation of the write and the summary report are kept. *)
Inductive message : Type :=
| ShapefileLoaded (features : nat)
| ShapefileNotFound
| ShapefileError (e : exn)
| ExcelError (e : exn)
| Mapped (col : value) (new_name : value)
| Truncated (col new_name : string)
| NoDistrictColumn
| UsingColumn (match_column : string)
| Matched (successful_merges features : nat)
| NoMatchWarning
| SampleShapefile (names : list value)
| SampleExcel (names : list value)
| DuplicateColumnsWarning (cols : list string)
| Saved (path : string)
| SaveError (e : exn)
| Distribution (objective : string) (value_counts : list (value * nat))
| CommunityDistricts (total : value)
| TotalFeatures (n : nat).

(** An effect visible outside the process: a line on standard output, or the
    call [final_gdf.to_file(path)]. The script itself writes nothing on
    standard error. *)
Inductive event : Type :=
| Print (m : message)
| ToFile (path : string) (f : frame).

(** How a piece of the function body ends: it falls through with a value,
    executes [return b], or raises. *)
Inductive control (A : Type) : Type :=
| Next (a : A)
| Return (b : bool)
| Raise (e : exn).
Arguments Next {A} a.
Arguments Return {A} b.
Arguments Raise {A} e.

Record M (A : Type) : Type := Run { trace : list event; ctl : control A }.
Arguments Run {A} trace ctl.
Arguments trace {A} m.
Arguments ctl {A} m.

#[global] Instance M_ret : MRet M := fun _ a => Run [] (Next a).
#[global] Instance M_bind : MBind M := fun _ _ k m =>
  match ctl m with
  | Next a => Run (trace m ++ trace (k a)) (ctl (k a))
  | Return b => Run (trace m) (Return b)
  | Raise e => Run (trace m) (Raise e)
  end.

Definition print (m : message) : M unit := Run [Print m] (Next tt).
Definition return_ {A : Type} (b : bool) : M A := Run [] (Return b).
Definition raise {A : Type} (e : exn) : M A := Run [] (Raise e).

Definition lift {A : Type} (r : result A) : M A :=
  match r with
  | Ok a => mret a
  | Err e => raise e
  end.

(** [try: body except Exception as e: handler]. *)
Definition try {A : Type} (body : M A) (handler : exn -> M A) : M A :=
  match ctl body with
  | Raise e => Run (trace body ++ trace (handler e)) (ctl (handler e))
  | _ => body
  end.

(** [for x in xs: body], threading the variables the body assigns. *)
Fixpoint for_each {A S : Type} (xs : list A) (body : A -> S -> M S) (s : S) : M S :=
  match xs with
  | [] => mret s
  | x :: xs' => s' ← body x s; for_each xs' body s'
  end.

(** The files and the library calls the script depends on. *)
Record world : Type := World {
  (** [os.path.exists("Solar_Suitability_layer.shp")] *)
  shapefile_exists : bool;
  (** [gpd.read_file("Solar_Suitability_layer.shp")] *)
  read_file : result frame;
  (** [pd.read_excel("Solar_Suitability_workbook.xlsx", sheet_name=...)] *)
  read_sheet : string -> result sheet;
  (** [final_gdf.to_file("true_solar_suitability.shp")] *)
  to_file : frame -> result unit
}.

(** A sheet of the workbook that the script uses by position or by the
    names it looks up: all sheets but "District_recommendation", whose labels
    the script goes through one by one. *)
Definition read_excel (w : world) (sheet_name : string) : result frame :=
  match read_sheet w sheet_name with
  | Ok s => Ok (Sheet.as_frame s)
  | Err e => Err e
  end.

(** The call [final_gdf.to_file(path)]: the attempt is visible whether or
    not it succeeds. *)
Definition call_to_file (w : world) (path : string) (f : frame) : M unit :=
  Run [ToFile path f]
      (match to_file w f with
       | Ok _ => Next tt
       | Err e => Raise e
       end).

(** How the process sees the call end. *)
Inductive outcome : Type :=
| Returned (b : bool)
| Uncaught (e : exn).

(** ** The script, step by step *)

(** *** 1. Load the original shapefile *)

Definition load_shapefile (w : world) : M frame :=
  try (if shapefile_exists w
       then gdf ← lift (read_file w);
            print (ShapefileLoaded (Frame.nrows gdf));;
            mret gdf
       else print ShapefileNotFound;; return_ false)
      (fun e => print (ShapefileError e);; return_ false).

(** *** 1.5. Keep the geometry and the NAME columns *)

Definition is_name_column (col : string) : bool :=
  Text.startswith "NAME_" (Text.upper col) || String.eqb (Text.upper col) "NAME".

Definition clean_shapefile (gdf : frame) : M frame :=
  let name_columns := filter (fun col => is_name_column col) (Frame.labels gdf) in
  let essential_geographic_cols := "geometry" :: name_columns in
  lift (Frame.select essential_geographic_cols gdf).

(** *** 2. Load the workbook *)

Record workbook : Type := Workbook {
  solar_ranking : frame;
  district_recommendations : sheet;
  adaptation_data : frame;
  mitigation_data : frame;
  replacement_data : frame;
  community_sip : frame;
  gis_acronym : frame;
  potential_data : frame;
  all_data : frame
}.

Definition load_workbook (w : world) : M workbook :=
  try (solar_ranking ← lift (read_excel w "Solar Suitability_new_ranking");
       district_recommendations ← lift (read_sheet w "District_recommendation");
       adaptation_data ← lift (read_excel w "Adaptation");
       mitigation_data ← lift (read_excel w "Mitigation");
       replacement_data ← lift (read_excel w "Replacement");
       community_sip ← lift (read_excel w "Community SIP");
       gis_acronym ← lift (read_excel w "GIS layer accronym");
       potential_data ← lift (read_excel w "potential");
       all_data ← lift (read_excel w "All");
       mret (Workbook solar_ranking district_recommendations adaptation_data
                      mitigation_data replacement_data community_sip gis_acronym
                      potential_data all_data))
      (fun e => print (ExcelError e);; return_ false).

(** *** 3.1 The acronym dictionary *)

(** A key of a Python dictionary: text or a number. Python compares and
    hashes [True] as 1 and [False] as 0, so a truth value is the key of its
    number; a missing value is never made a key. *)
Abbreviation dict_key := (string + Z)%type.

Definition key_of (v : value) : option dict_key :=
  match v with
  | Str s => Some (inl s)
  | Num z => Some (inr z)
  | Bool b => Some (inr (if b then 1 else 0)%Z)
  | NaN | Geom _ => None
  end.

(** One turn of the loop over the rows of the acronym sheet. *)
Definition acronym_entry (acronym_mapping : gmap dict_key value) (row : value * value)
  : gmap dict_key value :=
  let '(original_name, gis_raw_name) := row in
  if negb (Frame.isna original_name) && negb (Frame.isna gis_raw_name)
  then match key_of original_name with
       | Some k => <[k := gis_raw_name]> acronym_mapping
       | None => acronym_mapping
       end
  else acronym_mapping.

(** [row['Original']] and [row['GIS Raw data layer']] are looked up in every
    row, hence not at all in a sheet without rows. *)
Definition build_acronym_mapping (gis_acronym : frame) : result (gmap dict_key value) :=
  if decide (Frame.nrows gis_acronym = 0) then Ok ∅
  else
    original ← Frame.get ValueError "Original" gis_acronym;
    gis_raw ← Frame.get ValueError "GIS Raw data layer" gis_acronym;
    Ok (foldl acronym_entry ∅ (zip (cells original) (cells gis_raw))).

(** *** 3.2 Renaming the recommendation columns *)

(** [col in acronym_mapping] and [acronym_mapping[col]]. *)
Definition acronym_lookup (acronym_mapping : gmap dict_key value) (col : value)
  : option value :=
  k ← key_of col; acronym_mapping !! k.

(** The new name of the column labelled [col]; [col[:10]] raises [TypeError]
    on a label that is not text. *)
Definition new_col_name (acronym_mapping : gmap dict_key value) (col : value)
  : result value :=
  if bool_decide (col ∈ [Str "State"; Str "District"]) then Ok col
  else match acronym_lookup acronym_mapping col with
       | Some new_name => Ok new_name
       | None => match col with
                 | Str s => Ok (Str (Text.take_chars 10 s))
                 | _ => Err TypeError
                 end
       end.

(** One turn of the loop over the labels: the new name, the line about it,
    the entry of [district_rec_column_mapping], kept here as the list of the
    new names column by column (equal labels get equal new names). *)
Definition rename_line (acronym_mapping : gmap dict_key value) (col : value)
    (new_names : list value) : M (list value) :=
  new_name ← lift (new_col_name acronym_mapping col);
  (if bool_decide (col ∈ [Str "State"; Str "District"]) then mret tt
   else match acronym_lookup acronym_mapping col with
        | Some _ => print (Mapped col new_name)
        | None =>
            match col with
            | Str s => if (10 <? Text.len s)%nat
                       then print (Truncated s (Text.take_chars 10 s))
                       else mret tt
            | _ => mret tt
            end
        end);;
  mret (new_names ++ [new_name]).

(** The renamed sheet: every column under its new name, which is whatever
    the acronym sheet holds, text or not. *)
Definition rename_recommendations (acronym_mapping : gmap dict_key value)
    (district_recommendations : sheet) : M sheet :=
  new_names ← for_each (Sheet.headers district_recommendations)
                       (rename_line acronym_mapping) [];
  mret (Sheet.relabel new_names district_recommendations).

(** *** 3.3 - 3.6 The master data *)

(** [df['District_Clean'] = df['District'].str.title().str.strip()]. *)
Definition district_clean (f : frame) : result frame :=
  district ← Frame.get AttributeError "District" f;
  vs ← Frame.str_title_strip district;
  Ok (Frame.assign "District_Clean" DObject vs f).

Definition rename_one (old new : string) (f : frame) : frame :=
  Frame.rename (fun l => if decide (l = old) then new else l) f.

Definition merge_recommendations (master_data district_rec_processed : frame)
    (not_text : bool) : M frame :=
  master_data ← lift (district_clean master_data);
  district_rec_processed ← lift (district_clean district_rec_processed);
  master_data ← lift (Frame.merge_left "" "_district_rec" "District_Clean"
                                       master_data district_rec_processed);
  (if not_text then raise AttributeError else mret tt);;
  let duplicate_cols :=
    filter (fun col => Text.endswith "_district_rec" col
                       && Frame.has (Text.remove_sub "_district_rec" col) master_data)
           (Frame.labels master_data) in
  mret (match duplicate_cols with
        | [] => master_data
        | _ => Frame.drop duplicate_cols master_data
        end).

Definition merge_community (master_data community_sip : frame) : M frame :=
  community_sip_clean ← lift (Frame.select ["State"; "District"; "Final"] community_sip);
  state ← lift (Frame.get AttributeError "State" community_sip_clean);
  vs ← lift (Frame.str_title state);
  let community_sip_clean := Frame.assign "State" DObject vs community_sip_clean in
  community_sip_clean ← lift (district_clean community_sip_clean);
  let community_sip_clean := rename_one "Final" "Community_SIP" community_sip_clean in
  right ← lift (Frame.select ["District_Clean"; "Community_SIP"] community_sip_clean);
  master_data ← lift (Frame.merge_left "_x" "_y" "District_Clean" master_data right);
  (if Frame.has "Community_SIP" master_data then mret tt
   else raise (KeyError "Community_SIP"));;
  mret (Frame.fill_label "Community_SIP" (Str "") master_data).

Definition merge_potential (master_data potential_data : frame) : M frame :=
  potential_clean ← lift (Frame.select ["District"; "Final Potential"] potential_data);
  potential_clean ← lift (district_clean potential_clean);
  let potential_clean := rename_one "Final Potential" "Overall_Potential" potential_clean in
  right ← lift (Frame.select ["District_Clean"; "Overall_Potential"] potential_clean);
  lift (Frame.merge_left "_x" "_y" "District_Clean" master_data right).

(** A column of the renamed sheet whose name is not text takes no part in
    lines 137 to 146: it is neither 'District' nor the key, and its label
    meets no label of the master data, which are all text. The first thing to
    look at it is [col.endswith] in line 149, which raises. From the renaming
    on, the columns with a text label and the flag stand for the sheet. *)
Definition build_master (wb : workbook) (acronym_mapping : gmap dict_key value) : M frame :=
  district_rec_processed ←
      rename_recommendations acronym_mapping (district_recommendations wb);
  master_data ← lift (Frame.set_labels
      ["District"; "Adaptation_New"; "Mitigation_New"; "Replacement_New"]
      (solar_ranking wb));
  master_data ← merge_recommendations master_data
                  (Sheet.text_columns district_rec_processed)
                  (negb (Sheet.all_text district_rec_processed));
  master_data ← merge_community master_data (community_sip wb);
  merge_potential master_data (potential_data wb).

(** *** 4. Matching with the shapefile *)

Definition create_match_key (name : value) : string :=
  if Frame.isna name then ""
  else Text.remove_char "." (Text.remove_char "-" (Text.remove_char " "
         (Text.strip (Text.lower (py_str name))))).

(** [series.apply(create_match_key)]. *)
Definition apply_match_key (c : series) : list value :=
  (fun name => Str (create_match_key name)) <$> cells c.

Definition add_match_keys (gdf master_data : frame) : M (frame * frame * string) :=
  clean ← lift (Frame.get ValueError "District_Clean" master_data);
  let master_data := Frame.assign "match_key" DObject (apply_match_key clean) master_data in
  if Frame.has "NAME_2" gdf then
    names ← lift (Frame.get ValueError "NAME_2" gdf);
    mret (Frame.assign "match_key" DObject (apply_match_key names) gdf, master_data, "NAME_2")
  else if Frame.has "District" gdf then
    names ← lift (Frame.get ValueError "District" gdf);
    mret (Frame.assign "match_key" DObject (apply_match_key names) gdf, master_data, "District")
  else
    print NoDistrictColumn;; return_ false.

Definition notna_count (vs : list value) : nat :=
  length (filter (fun v => negb (Frame.isna v)) vs).

Definition merge_geometry (gdf master_data : frame) (match_column : string) : M frame :=
  print (UsingColumn match_column);;
  merged_gdf ← lift (Frame.merge_left "_x" "_y" "match_key" gdf master_data);
  adaptation ← lift (Frame.get ValueError "Adaptation_New" merged_gdf);
  let successful_merges := notna_count (cells adaptation) in
  print (Matched successful_merges (Frame.nrows gdf));;
  (if decide (successful_merges = 0) then
     print NoMatchWarning;;
     names ← lift (Frame.get AttributeError match_column gdf);
     print (SampleShapefile (take 5 (cells names)));;
     districts ← lift (Frame.get AttributeError "District" master_data);
     print (SampleExcel (take 5 (cells districts)))
   else mret tt);;
  mret merged_gdf.

(** *** 5. The final columns *)

Definition core_suitability_mapping : list (string * string) :=
  [("Adaptation_New", "Adapt");
   ("Mitigation_New", "Mitigate");
   ("Replacement_New", "Replace");
   ("Overall_Potential", "General_SI");
   ("Community_SIP", "Comm_SIP");
   ("State", "State_Name");
   ("District", "Dist_Name")].

Definition apply_core_mapping (entry : string * string) (st : frame * list string)
  : M (frame * list string) :=
  let '(old_name, new_name) := entry in
  let '(merged_gdf, essential_cols) := st in
  if Frame.has old_name merged_gdf then
    c ← lift (Frame.get ValueError old_name merged_gdf);
    mret (Frame.assign new_name (sdtype c) (cells c) merged_gdf,
          essential_cols ++ [new_name])
  else mret (merged_gdf, essential_cols).

(** [merged_gdf['Comm_SIP'] == 'Community SIP']. *)
Definition is_community_sip (v : value) : value :=
  Bool (bool_decide (v = Str "Community SIP")).

Definition add_community_flag (st : frame * list string) : M (frame * list string) :=
  let '(merged_gdf, essential_cols) := st in
  if Frame.has "Comm_SIP" merged_gdf then
    c ← lift (Frame.get ValueError "Comm_SIP" merged_gdf);
    mret (Frame.assign "Has_CommSI" DBool (is_community_sip <$> cells c) merged_gdf,
          essential_cols ++ ["Has_CommSI"])
  else mret (merged_gdf, essential_cols).

Definition skip_cols (gdf : frame) : list string :=
  ["geometry"; "match_key"; "District_Clean"; "Adaptation_New"; "Mitigation_New";
   "Replacement_New"; "Overall_Potential"; "Community_SIP"; "State"; "District";
   "Adapt"; "Mitigate"; "Replace"; "General_SI"; "Comm_SIP"; "State_Name";
   "Dist_Name"; "Has_CommSI"]
  ++ filter (fun c => c ≠ "geometry") (Frame.labels gdf).

(** One turn of the loop that collects the recommendation columns; the state
    is [(district_rec_cols, essential_cols)]. *)
Definition collect_rec_col (gdf : frame) (st : list string * list string) (col : string)
  : list string * list string :=
  let '(district_rec_cols, essential_cols) := st in
  if bool_decide (col ∉ skip_cols gdf) && bool_decide (col ∉ essential_cols)
  then (district_rec_cols ++ [col], essential_cols ++ [col])
  else (district_rec_cols, essential_cols).

(** From the merged frame to [final_gdf] before the fill, with the list of
    recommendation columns. *)
Definition finalize (gdf merged_gdf : frame) : M (frame * list string) :=
  merged_gdf ← lift (Frame.drop_strict "match_key" merged_gdf);
  let merged_gdf := Frame.drop ["District_Clean"] merged_gdf in
  let merged_gdf := Frame.drop_duplicated merged_gdf in
  let essential_cols :=
    "geometry" :: filter (fun col => col ≠ "geometry" ∧ col ≠ "match_key")
                         (Frame.labels gdf) in
  st ← for_each core_suitability_mapping apply_core_mapping (merged_gdf, essential_cols);
  '(merged_gdf, essential_cols) ← add_community_flag st;
  let '(district_rec_cols, essential_cols) :=
    foldl (collect_rec_col gdf) ([], essential_cols) (Frame.labels merged_gdf) in
  final_gdf ← lift (Frame.select essential_cols merged_gdf);
  mret (final_gdf, district_rec_cols).

(** *** Missing values *)

Definition suitability_columns : list string :=
  ["Adapt"; "Mitigate"; "Replace"; "General_SI"].

Definition fill_rec_col (col : string) (final_gdf : frame) : M frame :=
  if Frame.has col final_gdf then
    c ← lift (Frame.get AttributeError col final_gdf);
    mret (if decide (sdtype c = DObject)
          then Frame.fill_label col (Str "N/A") final_gdf
          else Frame.fill_label col (Num 0) final_gdf)
  else mret final_gdf.

Definition fill_missing (district_rec_cols : list string) (final_gdf : frame) : M frame :=
  let final_gdf :=
    foldl (fun f col => Frame.fill_label col (Str "No Data") f)
          final_gdf suitability_columns in
  let final_gdf := Frame.fill_label "Comm_SIP" (Str "") final_gdf in
  let final_gdf := Frame.fill_label "Has_CommSI" (Bool false) final_gdf in
  for_each district_rec_cols fill_rec_col final_gdf.

(** The last check for repeated column names. *)
Definition check_duplicates (final_gdf : frame) : M frame :=
  let duplicate_cols :=
    Frame.loc_mask (Frame.duplicated (Frame.labels final_gdf)) (Frame.labels final_gdf) in
  match duplicate_cols with
  | [] => mret final_gdf
  | _ => print (DuplicateColumnsWarning duplicate_cols);;
         mret (Frame.drop_duplicated final_gdf)
  end.

(** *** 6. Saving *)

Definition output_path : string := "true_solar_suitability".

Definition save (w : world) (final_gdf : frame) : M unit :=
  try (call_to_file w (output_path +:+ ".shp") final_gdf;;
       print (Saved (output_path +:+ ".shp")))
      (fun e => print (SaveError e);; return_ false).

(** *** 7. The summary report *)

Fixpoint count_occ_value (v : value) (vs : list value) : nat :=
  match vs with
  | [] => 0
  | x :: vs' => (if decide (x = v) then 1 else 0) + count_occ_value v vs'
  end.

(** [series.value_counts()]: the values present with their counts (pandas
    lists them by falling count; the order of the lines is not modelled). *)
Definition value_counts (vs : list value) : list (value * nat) :=
  let present := filter (fun v => negb (Frame.isna v)) vs in
  (fun v => (v, count_occ_value v present)) <$> remove_dups present.

Fixpoint sum_numbers (vs : list value) : option Z :=
  match vs with
  | [] => Some 0%Z
  | NaN :: vs' => sum_numbers vs'
  | Num z :: vs' => (fun t => (z + t)%Z) <$> sum_numbers vs'
  | Bool b :: vs' => (fun t => ((if b then 1 else 0) + t)%Z) <$> sum_numbers vs'
  | _ :: _ => None
  end.

Fixpoint sum_text (vs : list value) : option string :=
  match vs with
  | [] => Some ""
  | Str s :: vs' => (fun t => s +:+ t) <$> sum_text vs'
  | _ :: _ => None
  end.

(** [series.sum()]: numbers and booleans add up with missing cells skipped,
    text concatenates, a mixture raises [TypeError]. *)
Definition series_sum (vs : list value) : result value :=
  match sum_numbers vs with
  | Some z => Ok (Num z)
  | None => match sum_text vs with
            | Some s => Ok (Str s)
            | None => Err TypeError
            end
  end.

Definition report_objective (final_gdf : frame) (objective : string) (_ : unit) : M unit :=
  if Frame.has objective final_gdf then
    c ← lift (Frame.get ValueError objective final_gdf);
    print (Distribution objective (value_counts (cells c)))
  else mret tt.

Definition report (final_gdf : frame) : M unit :=
  for_each suitability_columns (report_objective final_gdf) tt;;
  (if Frame.has "Has_CommSIP" final_gdf then
     c ← lift (Frame.get ValueError "Has_CommSIP" final_gdf);
     community_sip_count ← lift (series_sum (cells c));
     print (CommunityDistricts community_sip_count)
   else mret tt);;
  print (TotalFeatures (Frame.nrows final_gdf)).

(** *** The function *)

(** Steps 1 to 4, up to the matching keys. *)
Definition prepare_inputs (w : world) : M (frame * frame * string) :=
  gdf ← load_shapefile w;
  gdf ← clean_shapefile gdf;
  wb ← load_workbook w;
  acronym_mapping ← lift (build_acronym_mapping (gis_acronym wb));
  master_data ← build_master wb acronym_mapping;
  add_match_keys gdf master_data.

(** Steps 4 and 5: the merge, the final columns, the fill. *)
Definition assemble (inputs : frame * frame * string) : M frame :=
  let '(gdf, master_data, match_column) := inputs in
  merged_gdf ← merge_geometry gdf master_data match_column;
  '(final_gdf, district_rec_cols) ← finalize gdf merged_gdf;
  final_gdf ← fill_missing district_rec_cols final_gdf;
  check_duplicates final_gdf.

Definition body (w : world) : M unit :=
  inputs ← prepare_inputs w;
  final_gdf ← assemble inputs;
  save w final_gdf;;
  report final_gdf.

Definition create_true_solar_suitability_shapefile (w : world) : list event * outcome :=
  let r := body w in
  (trace r,
   match ctl r with
   | Next _ => Returned true
   | Return b => Returned b
   | Raise e => Uncaught e
   end).

(** ** The entry point of the script *)

(** [update_app_for_new_shapefile]: the lines it prints, one per [print]. *)
Definition update_app_for_new_shapefile : list string :=
  [ String "010"%char "=== Updating App Configuration ===";
    "✅ New shapefile created successfully!";
    "📝 To use the new data in your app:";
    "   1. Update shapefile path in app.py to 'true_solar_suitability.shp'";
    "   2. Update column names in your app.py categories dictionary:";
    "      categories = {";
    "          'Adapt': 'Adaptation',";
    "          'Mitigate': 'Mitigation',";
    "          'Replace': 'Replacement',";
    "          'General_SI': 'General SI'";
    "      }";
    "   3. Add Community SIP checkbox using 'Has_CommSIP' column";
    "   4. The new shapefile has column names under 10 characters for compatibility";
    String "010"%char "Column Mapping:";
    "   - Adapt = Adaptation suitability";
    "   - Mitigate = Mitigation suitability";
    "   - Replace = Replacement suitability";
    "   - General_SI = General Solar Initiative";
    "   - Has_CommSIP = Community SIP availability (True/False)" ].

(** The line of the entry point after a run that returned [False]. *)
Definition failed_notice : string :=
  String "010"%char
    "❌ Failed to create new shapefile. Please check the error messages above.".

(** What the process does when the script is run: the events of the
    function, then the lines the entry point prints itself. *)
Inductive action : Type :=
| Inner (e : event)
| Line (text : string).

(** The [if __name__ == "__main__"] block. An exception nobody caught ends
    the process before either branch. *)
Definition main (w : world) : list action :=
  let r := create_true_solar_suitability_shapefile w in
  (Inner <$> r.1)
  ++ match r.2 with
     | Returned true => Line <$> update_app_for_new_shapefile
     | Returned false => [Line failed_notice]
     | Uncaught _ => []
     end.

(** ** legend_component.py: the levels the dashboards have colours for *)

Definition get_category_colors (category : string) : list (string * string) :=
  if decide (category = "Adaptation") then
    [("Less Suitable", "#F44336");
     ("Moderately Suitable", "#FFEB3B");
     ("Highly Suitable", "#2007FF");
     ("Very Highly Suitable", "#2E7D32")]
  else if decide (category = "Mitigation") then
    [("Less Suitable", "#D32F2F");
     ("Moderately Suitable", "#FFEB3B");
     ("Highly Suitable", "#FFC107");
     ("Very High Suitable", "#2E7D32")]
  else if decide (category = "Replacment") then
    [("Less Suitable", "#8D6E63");
     ("Moderately Suitable", "#FFEB3B");
     ("Highly Suitable", "#FFB007");
     ("Highly Suitable (On Grid)", "#66BB6A");
     ("Highly Suitable (Community Wells)", "#4CAF50");
     ("Highly Suitable (On Grid Community Wells)", "#2E7D32")]
  else if decide (category = "General_SI") then
    [("Less Suitable", "#F44336");
     ("Moderately Suitable", "#FFEB3B");
     ("Highly Suitable (On Grid Replacement)", "#A5D6A7");
     ("Highly Suitable (On Grid Community Wells)", "#66BB6A");
     ("Highly Suitable (Mitigation + On Grid Replacement)", "#26A69A");
     ("Highly Suitable (Mitigation + On Grid Community We", "#00695C");
     ("Highly Suitable (Mitigation)", "#4DB6AC");
     ("Highly Suitable (Adaptation + On Grid Replacement)", "#B39DDB");
     ("Highly Suitable (Adaptation + On Grid Community We", "#81D4FA");
     ("Highly Suitable (Adaptation + Mitigation + On Grid", "#1976D2");
     ("Highly Suitable (Adaptation + Mitigation)", "#2196F3");
     ("Highly Suitable (Adaptation )", "#9C27B0");
     ("Highly Suitable", "#FFC107")]
  else [].

(** ** Notions the properties are stated with *)

(** A district name as the sheets hold it: text, or missing. *)
Definition is_name (v : value) : Prop := v = NaN \/ exists s, v = Str s.

(** The [District_Clean] cell computed from a [District] cell. *)
Definition district_key (v : value) : value :=
  Frame.str_cell Text.strip (Frame.str_cell Text.title v).

(** What the fill writes into the missing cells of a recommendation column. *)
Definition rec_fill_value (c : series) : value :=
  if decide (sdtype c = DObject) then Str "N/A" else Num 0.

(** The missing-value policy, column by column: the value written into the
    missing cells of [c], or nothing when the fill leaves [c] alone. *)
Definition fill_policy (district_rec_cols : list string) (c : series) : option value :=
  if bool_decide (label c ∈ suitability_columns) then Some (Str "No Data")
  else if decide (label c = "Comm_SIP") then Some (Str "")
  else if decide (label c = "Has_CommSI") then Some (Bool false)
  else if bool_decide (label c ∈ district_rec_cols) then Some (rec_fill_value c)
  else None.

Definition filled_cells (district_rec_cols : list string) (c : series) : list value :=
  match fill_policy district_rec_cols c with
  | Some v => Frame.fill_cell v <$> cells c
  | None => cells c
  end.

(** The sheets the script reads, in the order it reads them. *)
Definition sheet_names : list string :=
  ["Solar Suitability_new_ranking"; "District_recommendation"; "Adaptation";
   "Mitigation"; "Replacement"; "Community SIP"; "GIS layer accronym";
   "potential"; "All"].

(** The lines that report a failure. *)
Definition failure_message (m : message) : Prop :=
  m = ShapefileNotFound \/ (exists e, m = ShapefileError e) \/ (exists e, m = ExcelError e)
  \/ m = NoDistrictColumn \/ (exists e, m = SaveError e).

(** The frames handed to [to_file] during a run. *)
Definition written (events : list event) : list frame :=
  omap (fun e => match e with ToFile _ f => Some f | Print _ => None end) events.

(** What reaches standard error: the script prints only on standard output,
    so nothing but the traceback of an exception nobody caught. *)
Definition standard_error (r : list event * outcome) : list exn :=
  match r.2 with
  | Uncaught e => [e]
  | Returned _ => []
  end.

(** A piece of the body that executes [return], does so with [False] and
    right after printing a failure line. *)
Definition returns_after_message {A : Type} (m : M A) : Prop :=
  forall b, ctl m = Return b ->
    b = false /\ exists msg, last (trace m) = Some (Print msg) /\ failure_message msg.

(** The four suitability categories in the core mapping: the master data
    column and the output field made from it. *)
Definition suitability_mapping : list (string * string) :=
  [("Adaptation_New", "Adapt");
   ("Mitigation_New", "Mitigate");
   ("Replacement_New", "Replace");
   ("Overall_Potential", "General_SI")].


(** The labels of the boundary frame the merge works on. *)
Definition boundary_label (l : string) : Prop :=
  l = "geometry" \/ l = "match_key" \/ is_name_column l.

(** The column names the script itself introduces or selects. *)
Definition pipeline_labels : list string :=
  ["geometry"; "match_key"; "District_Clean"; "District"; "Adaptation_New";
   "Mitigation_New"; "Replacement_New"; "State"; "Final"; "Community_SIP";
   "Final Potential"; "Overall_Potential"; "Adapt"; "Mitigate"; "Replace";
   "General_SI"; "Comm_SIP"; "State_Name"; "Dist_Name"; "Has_CommSI"].

(** The suffixes the merges of the script append to a label both frames have. *)
Definition merge_suffixes : list string := ["_x"; "_y"; "_district_rec"].

(** Every label of the frame satisfies [P]. *)
Definition labels_ok (P : string -> Prop) (f : frame) : Prop :=
  forall l, l ∈ Frame.labels f -> P l.

(** The events other than the line with the community count. *)
Definition not_community_count (e : event) : Prop :=
  forall total, e <> Print (CommunityDistricts total).

(** The sheet column a suitability field is made from: the second, third
    and fourth column of the ranking sheet, and the column
    "Final Potential" of the potential sheet. *)
Definition sheet_source (ranking potential : frame) (field : string) (c : series) : Prop :=
  (field = "Adapt" /\ ranking !! 1 = Some c)
  \/ (field = "Mitigate" /\ ranking !! 2 = Some c)
  \/ (field = "Replace" /\ ranking !! 3 = Some c)
  \/ (field = "General_SI" /\ c ∈ potential /\ label c = "Final Potential").

(** A cell that is missing or holds a value of the field's sheet column. *)
Definition carried (ranking potential : frame) (field : string) (v : value) : Prop :=
  v = NaN \/ exists c, sheet_source ranking potential field c /\ v ∈ cells c.

(** The three suitability columns that come from the ranking sheet. *)
Definition ranking_mapping : list (string * string) :=
  [("Adaptation_New", "Adapt");
   ("Mitigation_New", "Mitigate");
   ("Replacement_New", "Replace")].

(** The legend category of an output field, and the enumerated levels of
    the field: the keys of its colour table. *)
Definition legend_category (field : string) : string :=
  if decide (field = "Adapt") then "Adaptation"
  else if decide (field = "Mitigate") then "Mitigation"
  else if decide (field = "Replace") then "Replacment"
  else field.

Definition suitability_levels (field : string) : list string :=
  (get_category_colors (legend_category field)).*1.

(** A cell of a suitability field as the consumers expect it. *)
Definition expected_level (field : string) (v : value) : Prop :=
  v = Str "No Data" \/ exists s, v = Str s /\ s ∈ suitability_levels field.

(** A district name that is missing or ASCII text. *)
Definition ascii_name (v : value) : Prop :=
  v = NaN \/ exists s, v = Str s /\ Text.is_ascii s = true.

(** The order of the row pairs of a join: by the row of the left side, then
    by the row of the right side. *)
Definition pair_lt (p q : nat * option nat) : Prop :=
  p.1 < q.1
  \/ (p.1 = q.1 /\ exists a b, p.2 = Some a /\ q.2 = Some b /\ a < b).

(** [ix] lists the row pairs of a left join of the keys [lk] with the keys
    [rk]: a left row with every right row that has its key, or alone where no
    right row has it; the left rows in their order, the right rows of one
    left row in theirs, and no pair twice. *)
Definition left_join (lk rk : list value) (ix : list (nat * option nat)) : Prop :=
  StronglySorted pair_lt ix
  /\ (forall i j, (i, Some j) ∈ ix <-> exists k, lk !! i = Some k /\ rk !! j = Some k)
  /\ (forall i, (i, None) ∈ ix <-> exists k, lk !! i = Some k /\ k ∉ rk).












(** The rows of the acronym sheet the dictionary is made of: the original
    name and the short name, row by row. *)
Definition acronym_rows (gis_acronym : frame) : list (value * value) :=
  if decide (Frame.nrows gis_acronym = 0) then []
  else match Frame.get ValueError "Original" gis_acronym,
             Frame.get ValueError "GIS Raw data layer" gis_acronym with
       | Ok original, Ok gis_raw => zip (cells original) (cells gis_raw)
       | _, _ => []
       end.

(** The acronym sheet gives the label [col] the short name [short]: that of
    the last row that names [col] and has a short name. A row names [col]
    when its original name is the same dictionary key. *)
Definition short_name (rows : list (value * value)) (col short : value) : Prop :=
  exists before after name k,
    rows = before ++ (name, short) :: after
    /\ key_of col = Some k /\ key_of name = Some k /\ short <> NaN
    /\ forall name' later, (name', later) ∈ after -> key_of name' = Some k -> later = NaN.

(** No row of the acronym sheet gives the label [col] a short name. *)
Definition no_short_name (rows : list (value * value)) (col : value) : Prop :=
  forall name short k,
    (name, short) ∈ rows -> key_of col = Some k -> key_of name = Some k -> short = NaN.

(** The name lines 106 to 124 give the column labelled [col]: the two key
    columns keep theirs, a label with a short name gets it, any other text
    label is cut to its first ten characters. *)
Definition renamed_as (rows : list (value * value)) (col new : value) : Prop :=
  (col ∈ [Str "State"; Str "District"] /\ new = col)
  \/ ((col ∉ [Str "State"; Str "District"]) /\ short_name rows col new)
  \/ ((col ∉ [Str "State"; Str "District"]) /\ no_short_name rows col
      /\ exists s, col = Str s /\ new = Str (Text.take_chars 10 s)).

(** The label stops the renaming: it is not text and has no short name. *)
Definition not_renamable (rows : list (value * value)) (col : value) : Prop :=
  is_text col = false /\ no_short_name rows col.

(** *** Notions of the proofs *)

(** Every event of the run satisfies [E]. *)
Definition emits {A : Type} (E : event -> Prop) (m : M A) : Prop :=
  forall e, e ∈ trace m -> E e.

(** The events of standard output. *)
Definition is_print (e : event) : Prop := exists msg, e = Print msg.

(** A fill step names a column and the value for its missing cells. *)
Definition run_step (s : string * (series -> value)) (c : series) : series :=
  if decide (label c = s.1) then Frame.fillna (s.2 c) c else c.

Definition fill_steps (recs : list string) : list (string * (series -> value)) :=
  ((fun l => (l, fun _ => Str "No Data")) <$> suitability_columns)
  ++ [("Comm_SIP", fun _ => Str ""); ("Has_CommSI", fun _ => Bool false)]
  ++ ((fun l => (l, rec_fill_value)) <$> recs).

(** The value of the first step that names the column. *)
Fixpoint policy_of (steps : list (string * (series -> value))) (c : series)
  : option value :=
  match steps with
  | [] => None
  | s :: steps' => if decide (label c = s.1) then Some (s.2 c) else policy_of steps' c
  end.

(** A step is sound when its value is not the missing value and depends on
    the column only through its dtype. *)
Definition sound_step (s : string * (series -> value)) : Prop :=
  (forall c, s.2 c <> NaN)
  /\ forall c c', sdtype c' = sdtype c -> s.2 c' = s.2 c.

(** What the steps in [done] have made of a column. *)
Definition fill_state (done : list (string * (series -> value))) (c c' : series) : Prop :=
  label c' = label c
  /\ cells c' = match policy_of done c with
                | Some v => Frame.fill_cell v <$> cells c
                | None => cells c
                end
  /\ (policy_of done c = None -> sdtype c' = sdtype c).

(** The suitability columns of the master data are good, and so are the
    output fields already made from them. *)
Definition suitability_good (G : string -> value -> Prop)
    (merged_gdf : frame) (essential_cols : list string) : Prop :=
  (forall c old new, c ∈ merged_gdf -> (old, new) ∈ suitability_mapping ->
                     label c = old -> Forall (G new) (cells c))
  /\ (forall c, c ∈ merged_gdf -> label c ∈ suitability_columns ->
                label c ∈ essential_cols -> Forall (G (label c)) (cells c)).

(** The ranking columns of the master data are there, and hold values of
    their sheet columns. *)
Definition ranking_good (ranking potential master_data : frame) : Prop :=
  (forall pair, pair ∈ ranking_mapping -> pair.1 ∈ Frame.labels master_data)
  /\ (forall c pair, c ∈ master_data -> pair ∈ ranking_mapping ->
                     label c = pair.1 ->
                     Forall (carried ranking potential pair.2) (cells c)).

(** The suitability columns of the master data hold values of their sheet
    columns. *)
Definition master_good (ranking potential master_data : frame) : Prop :=
  forall c pair, c ∈ master_data -> pair ∈ suitability_mapping ->
                 label c = pair.1 ->
                 Forall (carried ranking potential pair.2) (cells c).

(** The labels other than the one the report tests for. *)
Definition not_Has_CommSIP (l : string) : Prop := l <> "Has_CommSIP".


(** The events other than the warning of the geometry merge. *)
Definition not_warning (e : event) : Prop := e <> Print NoMatchWarning.

(** The frame has exactly one column labelled [l]. *)
Definition one_column (l : string) (f : frame) : Prop :=
  length (Frame.columns_named l f) = 1.

(** The frame has one column of district names, and a column named
    "District_Clean" holds the cleaned names, row by row. *)
Definition keyed (f : frame) : Prop :=
  exists d, Frame.get AttributeError "District" f = Ok d
            /\ forall k, k ∈ f -> label k = "District_Clean" ->
                         cells k = district_key <$> cells d.

(** ** Sample inputs *)

Definition text (l : string) (vs : list value) : series := Series l DObject vs.
Definition numbers (l : string) (vs : list value) : series := Series l DNumber vs.

(** A workbook given by its five sheets that are read for their content;
    the four other sheets are loaded and never looked at. *)
Definition workbook_of (ranking : frame) (recommendation : sheet)
    (community acronym potential : frame) (sheet_name : string) : result sheet :=
  if decide (sheet_name = "Solar Suitability_new_ranking") then Ok (Sheet.of_frame ranking)
  else if decide (sheet_name = "District_recommendation") then Ok recommendation
  else if decide (sheet_name = "Community SIP") then Ok (Sheet.of_frame community)
  else if decide (sheet_name = "GIS layer accronym") then Ok (Sheet.of_frame acronym)
  else if decide (sheet_name = "potential") then Ok (Sheet.of_frame potential)
  else Ok [].

(** The same with a recommendation sheet whose labels are all text. *)
Definition sheets (ranking recommendation community acronym potential : frame)
  : string -> result sheet :=
  workbook_of ranking (Sheet.of_frame recommendation) community acronym potential.

Definition sample_shapefile : frame :=
  [ text "NAME_1" [Str "Maharashtra"; Str "West Bengal"; Str "Goa"];
    text "NAME_2" [Str "Pune"; Str "North 24 Parganas"; Str "Panaji"];
    numbers "Score" [Num 1; Num 2; Num 3];
    Series "geometry" DGeometry [Geom 0; Geom 1; Geom 2] ].

Definition sample_ranking : frame :=
  [ text "District" [Str "pune"; Str "North-24 Parganas"];
    text "Adaptation" [Str "Highly Suitable"; Str "Less Suitable"];
    text "Mitigation" [Str "Less Suitable"; Str "Moderately Suitable"];
    text "Replacement" [Str "Highly Suitable"; NaN] ].

Definition sample_recommendation : frame :=
  [ text "State" [Str "Maharashtra"; Str "West Bengal"];
    text "District" [Str "Pune "; Str "north-24 parganas"];
    text "Groundwater Development Status" [Str "Safe"; Str "Critical"];
    numbers "Solar Pumps" [Num 12; Num 7] ].

Definition sample_community : frame :=
  [ text "State" [Str "maharashtra"];
    text "District" [Str "PUNE"];
    text "Final" [Str "Community SIP"] ].

Definition sample_acronym : frame :=
  [ text "Original" [Str "Solar Pumps"; NaN];
    text "GIS Raw data layer" [Str "Sol_Pump"; Str "Unused"] ].

Definition sample_potential : frame :=
  [ text "District" [Str "Pune"];
    text "Final Potential" [Str "Highly Suitable (Mitigation)"] ].

Definition sample_world : world :=
  World true (Ok sample_shapefile)
        (sheets sample_ranking sample_recommendation sample_community
                sample_acronym sample_potential)
        (fun _ => Ok tt).

(** One boundary feature, and a ranking sheet that lists its district twice. *)
Definition one_feature : frame :=
  [ text "NAME_2" [Str "Pune"];
    Series "geometry" DGeometry [Geom 0] ].

Definition twice_ranked : frame :=
  [ text "District" [Str "Pune"; Str "PUNE"];
    text "Adaptation" [Str "Highly Suitable"; Str "Less Suitable"];
    text "Mitigation" [Str "Less Suitable"; Str "Less Suitable"];
    text "Replacement" [Str "Less Suitable"; Str "Less Suitable"] ].

Definition twice_ranked_world : world :=
  World true (Ok one_feature)
        (sheets twice_ranked sample_recommendation sample_community
                sample_acronym sample_potential)
        (fun _ => Ok tt).




(** No shapefile at all. *)
Definition no_shapefile_world : world :=
  World false (Err OSError) (fun _ => Err OSError) (fun _ => Err OSError).

(** The sample world with an acronym sheet that has neither its two columns
    nor any row. *)
Definition empty_acronym_world : world :=
  World true (Ok sample_shapefile)
        (sheets sample_ranking sample_recommendation sample_community
                [] sample_potential)
        (fun _ => Ok tt).

(** Boundary features none of which is a ranked district. *)
Definition other_shapefile : frame :=
  [ text "NAME_1" [Str "Goa"; Str "Kerala"];
    text "NAME_2" [Str "Panaji"; Str "Kochi"];
    Series "geometry" DGeometry [Geom 0; Geom 1] ].

Definition zero_match_world : world :=
  World true (Ok other_shapefile)
        (sheets sample_ranking sample_recommendation sample_community
                sample_acronym sample_potential)
        (fun _ => Ok tt).


(** An acronym sheet that names one column three times, the last time
    without a short name. *)
Definition twice_named_acronym : frame :=
  [ text "Original" [Str "Solar Pumps"; Str "Solar Pumps"; Str "Solar Pumps"];
    text "GIS Raw data layer" [Str "Sol_Pump"; Str "SolPumps"; NaN] ].

(** The sample world with an acronym sheet that names a column "Has_CommSIP". *)
Definition flag_acronym : frame :=
  [ text "Original" [Str "Solar Pumps"];
    text "GIS Raw data layer" [Str "Has_CommSIP"] ].

Definition flag_acronym_world : world :=
  World true (Ok sample_shapefile)
        (sheets sample_ranking sample_recommendation sample_community
                flag_acronym sample_potential)
        (fun _ => Ok tt).

(** A ranking sheet with a level no colour table lists. *)
Definition unlisted_ranking : frame :=
  [ text "District" [Str "Pune"];
    text "Adaptation" [Str "Excellent"];
    text "Mitigation" [Str "Less Suitable"];
    text "Replacement" [Str "Less Suitable"] ].

Definition unlisted_level_world : world :=
  World true (Ok sample_shapefile)
        (sheets unlisted_ranking sample_recommendation sample_community
                sample_acronym sample_potential)
        (fun _ => Ok tt).






(** An acronym sheet with a short name for the key column "District". *)
Definition key_naming_acronym : frame :=
  [ text "Original" [Str "District"; Str "Solar Pumps"];
    text "GIS Raw data layer" [Str "Dist"; Str "Sol_Pump"] ].

(** A recommendation sheet with a number for a column label. *)
Definition number_headed_recommendation : sheet :=
  [ Column (Str "State") DObject [Str "Maharashtra"];
    Column (Str "District") DObject [Str "Pune"];
    Column (Num 2024) DNumber [Num 12] ].

(** The shapefile loads and no sheet of the workbook can be read. *)
Definition unreadable_workbook_world : world :=
  World true (Ok sample_shapefile) (fun _ => Err OSError) (fun _ => Ok tt).

(** * Verification *)

(** ** Properties of the string methods *)

Example title_ex : Text.title "north 24-pARGANAS" = "North 24-Parganas".
Proof. reflexivity. Qed.

Example strip_ex : Text.strip "  New Delhi " = "New Delhi".
Proof. reflexivity. Qed.

Example endswith_ex :
  Text.endswith "_district_rec" "District_district_rec" = true
  /\ Text.endswith "_district_rec" "rec" = false.
Proof. split; reflexivity. Qed.

Example remove_sub_ex :
  Text.remove_sub "_district_rec" "District_district_rec" = "District"
  /\ Text.remove_sub "aa" "aaaXaa" = "aX".
Proof. split; reflexivity. Qed.

Section TextFacts.

Import Text.

Lemma to_lower_idemp c : to_lower (to_lower c) = to_lower c.
Proof. destruct c as [[] [] [] [] [] [] [] []]; reflexivity. Qed.

Lemma to_lower_upper c : to_lower (to_upper c) = to_lower c.
Proof. destruct c as [[] [] [] [] [] [] [] []]; reflexivity. Qed.

Lemma is_space_to_lower c : is_space (to_lower c) = is_space c.
Proof. destruct c as [[] [] [] [] [] [] [] []]; reflexivity. Qed.

Lemma lower_title_from b s : lower (title_from b s) = lower s.
Proof.
  unfold lower. revert b.
  induction s as [|c s IH]; intros b; simpl; [reflexivity|].
  rewrite IH. f_equal.
  destruct b; [apply to_lower_idemp | apply to_lower_upper].
Qed.

Lemma lower_title s : lower (title s) = lower s.
Proof. apply lower_title_from. Qed.

Section MapChars.
Variable f : ascii -> ascii.
Hypothesis f_space : forall c, is_space (f c) = is_space c.

Lemma map_chars_empty s : map_chars f s = "" -> s = "".
Proof. destruct s; [reflexivity | discriminate]. Qed.

Lemma lstrip_map_chars s : lstrip (map_chars f s) = map_chars f (lstrip s).
Proof.
  induction s as [|c s IH]; simpl; [reflexivity|].
  rewrite f_space. destruct (is_space c); [exact IH | reflexivity].
Qed.

Lemma rstrip_map_chars s : rstrip (map_chars f s) = map_chars f (rstrip s).
Proof.
  induction s as [|c s IH]; simpl; [reflexivity|].
  rewrite IH, f_space.
  destruct (rstrip s) as [|d r]; simpl; [|reflexivity].
  destruct (is_space c); reflexivity.
Qed.

Lemma strip_map_chars s : strip (map_chars f s) = map_chars f (strip s).
Proof. unfold strip. rewrite lstrip_map_chars. apply rstrip_map_chars. Qed.
End MapChars.

Lemma strip_lower s : strip (lower s) = lower (strip s).
Proof. apply strip_map_chars, is_space_to_lower. Qed.

(** Lower-casing what [.str.title().str.strip()] produced gives the
    stripped lower-case text of the original. *)
Lemma lower_strip_title s : lower (strip (title s)) = strip (lower s).
Proof. rewrite <- strip_lower, lower_title. reflexivity. Qed.

Lemma take_chars_length n s : len (take_chars n s) <= n.
Proof.
  revert n. induction s as [|c s IH]; intros n; simpl; [lia|].
  destruct (is_continuation c) eqn:E; simpl.
  - rewrite E. specialize (IH n). lia.
  - destruct n as [|n]; simpl; [lia|]. rewrite E. specialize (IH n). lia.
Qed.

(** On ASCII text the characters are the bytes. *)
Lemma len_ascii s : is_ascii s = true -> len s = String.length s.
Proof.
  induction s as [|c s IH]; simpl; [reflexivity|].
  intros [Hc Hs]%andb_true_iff. rewrite (IH Hs).
  unfold is_continuation. apply Nat.ltb_lt in Hc.
  destruct (128 <=? nat_of_ascii c)%nat eqn:E; [apply Nat.leb_le in E; lia | reflexivity].
Qed.

End TextFacts.

(** ** Properties of the frame operations *)

Section FrameFacts.

Import Frame.

Lemma matches_from_spec k rk j0 j :
  j ∈ matches_from j0 k rk <-> j0 <= j /\ rk !! (j - j0) = Some k.
Proof.
  revert j0. induction rk as [|r rk IH]; intros j0; simpl.
  - rewrite elem_of_nil. split; [tauto | intros [_ H]; discriminate].
  - destruct (decide (k = r)) as [->|Hne].
    + rewrite elem_of_cons, IH. split.
      * intros [->|[Hle Hl]].
        -- split; [lia|]. replace (j0 - j0) with 0 by lia. reflexivity.
        -- split; [lia|]. replace (j - j0) with (S (j - S j0)) by lia. exact Hl.
      * intros [Hle Hl]. destruct (decide (j = j0)) as [->|Hn]; [left; reflexivity|].
        right. split; [lia|].
        replace (j - j0) with (S (j - S j0)) in Hl by lia. exact Hl.
    + rewrite IH. split.
      * intros [Hle Hl]. split; [lia|].
        replace (j - j0) with (S (j - S j0)) by lia. exact Hl.
      * intros [Hle Hl]. destruct (decide (j = j0)) as [->|Hn].
        -- replace (j0 - j0) with 0 in Hl by lia. simpl in Hl. congruence.
        -- split; [lia|].
           replace (j - j0) with (S (j - S j0)) in Hl by lia. exact Hl.
Qed.

Lemma matches_from_nil k rk j0 :
  matches_from j0 k rk = [] <-> k ∉ rk.
Proof.
  revert j0. induction rk as [|r rk IH]; intros j0; simpl.
  - split; [intros _; apply not_elem_of_nil | reflexivity].
  - rewrite not_elem_of_cons. destruct (decide (k = r)) as [->|Hne].
    + split; [discriminate | intros [H _]; congruence].
    + rewrite IH. tauto.
Qed.

Lemma matches_from_length k rk j0 j1 :
  length (matches_from j0 k rk) = length (matches_from j1 k rk).
Proof.
  revert j0 j1. induction rk as [|r rk IH]; intros j0 j1; simpl; [reflexivity|].
  destruct (decide (k = r)); simpl; [f_equal|]; apply IH.
Qed.

Lemma matches_from_NoDup k rk j0 :
  NoDup rk -> length (matches_from j0 k rk) <= 1.
Proof.
  intros Hnd. revert j0. induction Hnd as [|r rk Hnotin Hnd IH]; intros j0; simpl; [lia|].
  destruct (decide (k = r)) as [->|Hne]; [|apply IH].
  apply (matches_from_nil _ _ (S j0)) in Hnotin. rewrite Hnotin. simpl. lia.
Qed.

Lemma rows_for_length i k rk :
  length (rows_for i k rk) = Nat.max 1 (length (matches_from 0 k rk)).
Proof.
  unfold rows_for. destruct (matches_from 0 k rk) as [|j js]; [reflexivity|].
  rewrite length_fmap. simpl. lia.
Qed.

Lemma rows_for_elem i k rk p :
  p ∈ rows_for i k rk ->
  p.1 = i /\ match p.2 with
             | Some j => rk !! j = Some k
             | None => k ∉ rk
             end.
Proof.
  unfold rows_for. destruct (matches_from 0 k rk) as [|j0 js] eqn:E.
  - intros ->%list_elem_of_singleton. split; [reflexivity|].
    simpl. eapply matches_from_nil, E.
  - intros (j & -> & Hj)%list_elem_of_fmap. split; [reflexivity|]. simpl.
    rewrite <- E in Hj. apply matches_from_spec in Hj as [_ Hj].
    replace (j - 0) with j in Hj by lia. exact Hj.
Qed.

Lemma indexer_from_elem i0 lk rk p :
  p ∈ indexer_from i0 lk rk ->
  exists k, i0 <= p.1 /\ lk !! (p.1 - i0) = Some k
            /\ match p.2 with
               | Some j => rk !! j = Some k
               | None => k ∉ rk
               end.
Proof.
  revert i0. induction lk as [|k lk IH]; intros i0; cbn [indexer_from].
  - intros H%elem_of_nil. destruct H.
  - rewrite elem_of_app. intros [H|H].
    + apply rows_for_elem in H as [-> H]. exists k.
      split; [lia|]. replace (i0 - i0) with 0 by lia. split; [reflexivity | exact H].
    + apply IH in H as (k' & Hle & Hl & Hr). exists k'. split; [lia|].
      replace (p.1 - i0) with (S (p.1 - S i0)) by lia. split; assumption.
Qed.

(** A pair of rows the merge puts together has equal keys. *)
Lemma merge_indexer_paired lk rk i j :
  (i, Some j) ∈ merge_indexer lk rk ->
  exists k, lk !! i = Some k /\ rk !! j = Some k.
Proof.
  intros H. apply indexer_from_elem in H as (k & _ & Hl & Hr). simpl in *.
  replace (i - 0) with i in Hl by lia. eauto.
Qed.

Lemma merge_indexer_unmatched lk rk i :
  (i, None) ∈ merge_indexer lk rk ->
  exists k, lk !! i = Some k /\ k ∉ rk.
Proof.
  intros H. apply indexer_from_elem in H as (k & _ & Hl & Hr). simpl in *.
  replace (i - 0) with i in Hl by lia. eauto.
Qed.

Lemma rows_for_nonempty i k rk : exists o, (i, o) ∈ rows_for i k rk.
Proof.
  unfold rows_for. destruct (matches_from 0 k rk) as [|j js].
  - exists None. apply list_elem_of_singleton. reflexivity.
  - exists (Some j). rewrite fmap_cons. apply elem_of_cons; left; reflexivity.
Qed.

Lemma indexer_from_covers i0 lk rk i :
  i0 <= i < i0 + length lk -> exists o, (i, o) ∈ indexer_from i0 lk rk.
Proof.
  revert i0. induction lk as [|k lk IH]; intros i0 Hi; cbn [indexer_from length] in *; [lia|].
  destruct (decide (i = i0)) as [->|Hne].
  - destruct (rows_for_nonempty i0 k rk) as [o Ho]. exists o.
    apply elem_of_app. left. exact Ho.
  - destruct (IH (S i0)) as [o Ho]; [lia|]. exists o.
    apply elem_of_app. right. exact Ho.
Qed.

Lemma indexer_from_length i0 lk rk :
  length (indexer_from i0 lk rk) = merged_rows lk rk.
Proof.
  revert i0. induction lk as [|k lk IH]; intros i0; cbn [indexer_from merged_rows]; [reflexivity|].
  rewrite length_app, rows_for_length, IH. reflexivity.
Qed.

Lemma merged_rows_ge lk rk : length lk <= merged_rows lk rk.
Proof. induction lk as [|k lk IH]; simpl; lia. Qed.

Lemma merged_rows_unique lk rk : NoDup rk -> merged_rows lk rk = length lk.
Proof.
  intros Hnd. induction lk as [|k lk IH]; simpl; [reflexivity|].
  pose proof (matches_from_NoDup k rk 0 Hnd). lia.
Qed.

End FrameFacts.

(** ** The joins of the master record builder pair equal normalized names *)

Lemma str_title_strip_cells c vs :
  Frame.str_title_strip c = Ok vs -> vs = district_key <$> cells c.
Proof.
  unfold Frame.str_title_strip, Frame.str_title, Frame.str_accessor.
  destruct (decide (sdtype c = DObject)); [|discriminate].
  intros [= <-]. rewrite <- list_fmap_compose. reflexivity.
Qed.

Lemma create_match_key_text s :
  create_match_key (Str s)
  = Text.remove_char "." (Text.remove_char "-" (Text.remove_char " "
      (Text.strip (Text.lower s)))).
Proof. reflexivity. Qed.


Lemma ascii_name_is_name v : ascii_name v -> is_name v.
Proof. intros [->|(s & -> & _)]; [left; reflexivity | right; eauto]. Qed.


(** The join key is finer than the match key: names that differ only by a
    hyphen share the match key and are not joined. *)
Example district_join_misses_equal_match_keys :
  create_match_key (Str "North 24 Parganas") = create_match_key (Str "North-24-Parganas")
  /\ Frame.merge_indexer [district_key (Str "North 24 Parganas")]
                         [district_key (Str "North-24-Parganas")] = [(0, None)].
Proof. split; reflexivity. Qed.

(** ** The left merge *)

Section MergeFacts.

Import Frame.

Lemma merge_left_inv ls rs on left right merged :
  merge_left ls rs on left right = Ok merged ->
  exists lk rk,
    key_column on left = Ok lk /\ key_column on right = Ok rk
    /\ merged = left_part (overlap_labels left (drop [on] right)) ls
                          (merge_indexer (cells lk) (cells rk)) left
                ++ right_part (overlap_labels left (drop [on] right)) rs
                              (merge_indexer (cells lk) (cells rk)) (drop [on] right).
Proof.
  unfold merge_left. destruct (key_column on left) as [lk|] eqn:El; [|discriminate].
  destruct (key_column on right) as [rk|] eqn:Er; [|discriminate]. simpl.
  destruct (_ ++ _); [|discriminate]. intros [= <-]. eauto.
Qed.

Lemma take_right_unmatched ix vs r i :
  ix !! r = Some (i, None) -> take_right ix vs !! r = Some NaN.
Proof. intros H. unfold take_right. rewrite list_lookup_fmap, H. reflexivity. Qed.

Lemma take_left_lookup ix vs r i o :
  ix !! r = Some (i, o) -> take_left ix vs !! r = Some (default NaN (vs !! i)).
Proof. intros H. unfold take_left. rewrite list_lookup_fmap, H. reflexivity. Qed.

Lemma take_right_lookup ix vs r i j :
  ix !! r = Some (i, Some j) -> take_right ix vs !! r = Some (default NaN (vs !! j)).
Proof. intros H. unfold take_right. rewrite list_lookup_fmap, H. reflexivity. Qed.

Lemma rows_for_unique i k rk :
  NoDup rk -> (rows_for i k rk).*1 = [i].
Proof.
  intros Hnd. pose proof (matches_from_NoDup k rk 0 Hnd) as Hlen.
  unfold rows_for. destruct (matches_from 0 k rk) as [|j [|j' js]]; simpl in *;
    [reflexivity | reflexivity | lia].
Qed.

Lemma indexer_from_unique i0 lk rk :
  NoDup rk -> (indexer_from i0 lk rk).*1 = seq i0 (length lk).
Proof.
  intros Hnd. revert i0.
  induction lk as [|k lk IH]; intros i0; cbn [indexer_from length seq]; [reflexivity|].
  rewrite fmap_app, rows_for_unique, IH by assumption. reflexivity.
Qed.

Lemma take_left_seq ix vs :
  ix.*1 = seq 0 (length vs) -> take_left ix vs = vs.
Proof.
  intros H. unfold take_left.
  change ((fun p : nat * option nat => default NaN (vs !! p.1)) <$> ix)
    with ((fun i => default NaN (vs !! i)) ∘ fst <$> ix).
  rewrite (list_fmap_compose fst (fun i => default NaN (vs !! i))), H.
  apply list_eq. intros i. rewrite list_lookup_fmap.
  destruct (decide (i < length vs)) as [Hlt|Hge].
  - rewrite lookup_seq_lt by assumption. simpl.
    destruct (lookup_lt_is_Some_2 vs i Hlt) as [v Hv]. rewrite Hv. reflexivity.
  - rewrite lookup_seq_ge by lia. rewrite lookup_ge_None_2 by lia. reflexivity.
Qed.

End MergeFacts.

(** [e] occurs in a list written out in full. *)
Ltac find_elem :=
  repeat first [ apply elem_of_cons; left; reflexivity | apply elem_of_cons; right ].

(** ** Renaming the recommendation columns *)

Lemma acronym_entries_absent (rows : list (value * value)) (m : gmap dict_key value) k :
  m !! k = None ->
  (forall original, original ∈ rows.*1 -> key_of original <> Some k) ->
  foldl acronym_entry m rows !! k = None.
Proof.
  revert m. induction rows as [|[original gis_raw] rows IH]; intros m Hm Hnot; [exact Hm|].
  simpl in *. apply IH; [|intros o Ho; apply Hnot, elem_of_cons; right; exact Ho].
  destruct (negb (Frame.isna original) && negb (Frame.isna gis_raw)); [|exact Hm].
  destruct (key_of original) as [k'|] eqn:E; [|exact Hm].
  rewrite lookup_insert_ne; [exact Hm|].
  intros ->. apply (Hnot original); [apply elem_of_cons; left; reflexivity | exact E].
Qed.

Lemma build_acronym_mapping_absent gis_acronym acronym_mapping k :
  build_acronym_mapping gis_acronym = Ok acronym_mapping ->
  (forall original c, Frame.get ValueError "Original" gis_acronym = Ok original ->
                      c ∈ cells original -> key_of c <> Some k) ->
  acronym_mapping !! k = None.
Proof.
  unfold build_acronym_mapping.
  destruct (decide (Frame.nrows gis_acronym = 0)); [intros [= <-] _; apply lookup_empty|].
  destruct (Frame.get ValueError "Original" gis_acronym) as [original|]; [|discriminate].
  destruct (Frame.get ValueError "GIS Raw data layer" gis_acronym) as [gis_raw|]; [|discriminate].
  simpl. intros [= <-] Hnot. apply acronym_entries_absent; [apply lookup_empty|].
  intros o Hin. apply (Hnot original o eq_refl).
  apply list_elem_of_fmap in Hin as ([a b] & Ha & Hin). simpl in Ha. subst a.
  apply elem_of_zip_l in Hin. exact Hin.
Qed.

(** ** Reasoning about runs *)

Section Runs.

Context {A B : Type}.

Lemma trace_bind (m : M A) (k : A -> M B) :
  trace (m ≫= k) = trace m ++ match ctl m with Next a => trace (k a) | _ => [] end.
Proof.
  unfold mbind, M_bind. destruct (ctl m); simpl; [reflexivity| |];
    rewrite app_nil_r; reflexivity.
Qed.

Lemma ctl_bind (m : M A) (k : A -> M B) :
  ctl (m ≫= k) = match ctl m with
                 | Next a => ctl (k a)
                 | Return b => Return b
                 | Raise e => Raise e
                 end.
Proof. unfold mbind, M_bind. destruct (ctl m); reflexivity. Qed.

Lemma ctl_bind_Next (m : M A) (k : A -> M B) b :
  ctl (m ≫= k) = Next b -> exists a, ctl m = Next a /\ ctl (k a) = Next b.
Proof. rewrite ctl_bind. destruct (ctl m); [eauto | discriminate | discriminate]. Qed.

Lemma elem_trace_bind (m : M A) (k : A -> M B) e :
  e ∈ trace (m ≫= k) -> e ∈ trace m \/ exists a, ctl m = Next a /\ e ∈ trace (k a).
Proof.
  rewrite trace_bind, elem_of_app. intros [H|H]; [left; exact H|].
  destruct (ctl m); [right; eauto | |]; apply elem_of_nil in H; destruct H.
Qed.

Lemma ctl_lift_Next (r : result A) a : ctl (lift r) = Next a -> r = Ok a.
Proof. destruct r; simpl; [congruence | discriminate]. Qed.

Lemma trace_lift (r : result A) : trace (lift r) = [].
Proof. destruct r; reflexivity. Qed.

Lemma ctl_lift_bind (a : A) (k : A -> M B) : ctl (lift (Ok a) ≫= k) = ctl (k a).
Proof. reflexivity. Qed.

Lemma trace_lift_bind (a : A) (k : A -> M B) : trace (lift (Ok a) ≫= k) = trace (k a).
Proof. reflexivity. Qed.

Lemma ctl_lift_Err_bind e (k : A -> M B) : ctl (lift (Err e) ≫= k) = Raise e.
Proof. reflexivity. Qed.

Lemma ctl_ret_bind (a : A) (k : A -> M B) : ctl (mret a ≫= k) = ctl (k a).
Proof. reflexivity. Qed.

Lemma trace_ret_bind (a : A) (k : A -> M B) : trace (mret a ≫= k) = trace (k a).
Proof. reflexivity. Qed.

Lemma ctl_print_bind msg (k : unit -> M B) : ctl (print msg ≫= k) = ctl (k tt).
Proof. reflexivity. Qed.

Lemma trace_print_bind msg (k : unit -> M B) :
  trace (print msg ≫= k) = Print msg :: trace (k tt).
Proof. reflexivity. Qed.

Lemma ctl_try_Next (body : M A) (handler : exn -> M A) a :
  (forall e, ctl (handler e) <> Next a) ->
  ctl (try body handler) = Next a -> ctl body = Next a.
Proof.
  intros Hh. unfold try. destruct (ctl body) eqn:E; try (rewrite E; congruence).
  simpl. intros H. destruct (Hh _ H).
Qed.

End Runs.

Section Emits.

Context (E : event -> Prop).

Lemma emits_ret {A} (a : A) : emits E (mret a).
Proof. intros e H. apply elem_of_nil in H. destruct H. Qed.

Lemma emits_return {A} b : emits E (@return_ A b).
Proof. intros e H. apply elem_of_nil in H. destruct H. Qed.

Lemma emits_raise {A} x : emits E (@raise A x).
Proof. intros e H. apply elem_of_nil in H. destruct H. Qed.

Lemma emits_lift {A} (r : result A) : emits E (lift r).
Proof. intros e H. rewrite trace_lift in H. apply elem_of_nil in H. destruct H. Qed.

Lemma emits_print msg : E (Print msg) -> emits E (print msg).
Proof. intros HE e H. apply list_elem_of_singleton in H. subst e. exact HE. Qed.

Lemma emits_call_to_file w path f : E (ToFile path f) -> emits E (call_to_file w path f).
Proof. intros HE e H. apply list_elem_of_singleton in H. subst e. exact HE. Qed.

Lemma emits_bind {A B} (m : M A) (k : A -> M B) :
  emits E m -> (forall a, emits E (k a)) -> emits E (m ≫= k).
Proof.
  intros Hm Hk e H. apply elem_trace_bind in H as [H|(a & _ & H)];
    [apply Hm, H | eapply Hk, H].
Qed.

Lemma emits_try {A} (body : M A) (handler : exn -> M A) :
  emits E body -> (forall x, emits E (handler x)) -> emits E (try body handler).
Proof.
  intros Hb Hh e. unfold try. destruct (ctl body); [apply Hb | apply Hb |].
  simpl. rewrite elem_of_app. intros [H|H]; [apply Hb, H | eapply Hh, H].
Qed.

Lemma emits_for_each {X S} (xs : list X) (body : X -> S -> M S) s :
  (forall x s', emits E (body x s')) -> emits E (for_each xs body s).
Proof.
  intros Hb. revert s. induction xs as [|x xs IH]; intros s; simpl.
  - apply emits_ret.
  - apply emits_bind; [apply Hb | intros s'; apply IH].
Qed.

End Emits.

Ltac emits_step :=
  match goal with
  | |- emits _ (mret _) => apply emits_ret
  | |- emits _ (return_ _) => apply emits_return
  | |- emits _ (raise _) => apply emits_raise
  | |- emits _ (lift _) => apply emits_lift
  | |- emits _ (print _) => apply emits_print
  | |- emits _ (call_to_file _ _ _) => apply emits_call_to_file
  | |- emits _ (mbind _ _) => apply emits_bind; [|intros ?]
  | |- emits _ (try _ _) => apply emits_try; [|intros ?]
  | |- emits _ (for_each _ _ _) => apply emits_for_each; intros ? ?
  | |- emits _ (if ?b then _ else _) => destruct b
  | |- emits _ (match ?x with _ => _ end) => destruct x
  end.

(** Everything the stage does to the world is printing. *)
Ltac only_prints := repeat first [ emits_step | eexists; reflexivity ].

Lemma load_shapefile_prints w : emits is_print (load_shapefile w).
Proof. unfold load_shapefile. only_prints. Qed.

Lemma clean_shapefile_prints gdf : emits is_print (clean_shapefile gdf).
Proof. unfold clean_shapefile. only_prints. Qed.

Lemma load_workbook_prints w : emits is_print (load_workbook w).
Proof. unfold load_workbook. only_prints. Qed.

Lemma build_master_prints wb m : emits is_print (build_master wb m).
Proof.
  unfold build_master, rename_recommendations, rename_line, merge_recommendations,
    merge_community, merge_potential.
  only_prints.
Qed.

Lemma add_match_keys_prints gdf master : emits is_print (add_match_keys gdf master).
Proof. unfold add_match_keys. only_prints. Qed.

Lemma prepare_inputs_prints w : emits is_print (prepare_inputs w).
Proof.
  unfold prepare_inputs.
  apply emits_bind; [apply load_shapefile_prints | intros gdf].
  apply emits_bind; [apply clean_shapefile_prints | intros gdf'].
  apply emits_bind; [apply load_workbook_prints | intros wb].
  apply emits_bind; [apply emits_lift | intros m].
  apply emits_bind; [apply build_master_prints | intros master].
  apply add_match_keys_prints.
Qed.

Lemma assemble_prints inputs : emits is_print (assemble inputs).
Proof.
  destruct inputs as [[gdf master] col].
  unfold assemble, merge_geometry, finalize, apply_core_mapping, add_community_flag,
    fill_missing, fill_rec_col, check_duplicates.
  only_prints.
Qed.

Lemma report_prints final : emits is_print (report final).
Proof. unfold report, report_objective. only_prints. Qed.

(** ** Repeated column names *)

Section Duplicates.

Import Frame.

Lemma loc_mask_not_duplicated (seen : list string) (f : frame) :
  NoDup (labels (loc_mask (negb <$> duplicated_from seen (labels f)) f))
  /\ forall l, l ∈ labels (loc_mask (negb <$> duplicated_from seen (labels f)) f) ->
               (l ∉ seen) /\ l ∈ labels f.
Proof.
  revert seen. induction f as [|c f IH]; intros seen; simpl.
  - split; [constructor | intros l H; apply elem_of_nil in H; destruct H].
  - destruct (IH (label c :: seen)) as [Hnd Hin].
    destruct (decide (label c ∈ seen)) as [Hseen|Hseen].
    + rewrite bool_decide_eq_true_2 by exact Hseen. simpl. split; [exact Hnd|].
      intros l Hl. apply Hin in Hl as [Hl1 Hl2]. apply not_elem_of_cons in Hl1 as [_ Hl1].
      split; [exact Hl1 | apply elem_of_cons; right; exact Hl2].
    + rewrite bool_decide_eq_false_2 by exact Hseen. simpl. split.
      * constructor; [|exact Hnd]. intros Hl. apply Hin in Hl as [Hl _].
        apply Hl. apply elem_of_cons. left. reflexivity.
      * intros l Hl. apply elem_of_cons in Hl as [->|Hl].
        -- split; [exact Hseen | apply elem_of_cons; left; reflexivity].
        -- apply Hin in Hl as [Hl1 Hl2]. apply not_elem_of_cons in Hl1 as [_ Hl1].
           split; [exact Hl1 | apply elem_of_cons; right; exact Hl2].
Qed.

Lemma drop_duplicated_NoDup (f : frame) : NoDup (labels (drop_duplicated f)).
Proof. apply (loc_mask_not_duplicated [] f). Qed.

Lemma no_duplicated_NoDup (seen ls : list string) :
  loc_mask (duplicated_from seen ls) ls = [] -> NoDup ls /\ forall l, l ∈ ls -> l ∉ seen.
Proof.
  revert seen. induction ls as [|l ls IH]; intros seen; simpl.
  - intros _. split; [constructor | intros l H; apply elem_of_nil in H; destruct H].
  - destruct (decide (l ∈ seen)) as [Hseen|Hseen].
    + rewrite bool_decide_eq_true_2 by exact Hseen. discriminate.
    + rewrite bool_decide_eq_false_2 by exact Hseen. intros H.
      destruct (IH _ H) as [Hnd Hin]. split.
      * constructor; [|exact Hnd]. intros Hl. apply Hin in Hl. apply Hl.
        apply elem_of_cons. left. reflexivity.
      * intros l' Hl'. apply elem_of_cons in Hl' as [->|Hl']; [exact Hseen|].
        apply Hin in Hl'. apply not_elem_of_cons in Hl' as [_ Hl']. exact Hl'.
Qed.

Lemma check_duplicates_NoDup (final_gdf f : frame) :
  ctl (check_duplicates final_gdf) = Next f -> NoDup (labels f).
Proof.
  unfold check_duplicates.
  destruct (loc_mask (duplicated (labels final_gdf)) (labels final_gdf)) eqn:E.
  - intros [= <-]. apply (no_duplicated_NoDup [] _ E).
  - rewrite ctl_bind. simpl. intros [= <-]. apply drop_duplicated_NoDup.
Qed.

End Duplicates.

Lemma assemble_NoDup inputs final_gdf :
  ctl (assemble inputs) = Next final_gdf -> NoDup (Frame.labels final_gdf).
Proof.
  destruct inputs as [[gdf master] col]. unfold assemble. intros H.
  apply ctl_bind_Next in H as (merged & _ & H).
  apply ctl_bind_Next in H as ([final recs] & _ & H).
  apply ctl_bind_Next in H as (filled & _ & H).
  eapply check_duplicates_NoDup, H.
Qed.

(** ** The shape of a run *)

(** What is written is what [assemble] produced from the prepared inputs. *)
Lemma written_frame w path f :
  ToFile path f ∈ trace (body w) ->
  path = "true_solar_suitability.shp"
  /\ exists inputs, ctl (prepare_inputs w) = Next inputs /\ ctl (assemble inputs) = Next f.
Proof.
  unfold body. intros H.
  apply elem_trace_bind in H as [H|(inputs & Hin & H)].
  { apply prepare_inputs_prints in H as [msg H]. discriminate. }
  apply elem_trace_bind in H as [H|(final & Hfin & H)].
  { apply assemble_prints in H as [msg H]. discriminate. }
  apply elem_trace_bind in H as [H|(u & _ & H)].
  - assert (Hw : ToFile path f = ToFile (output_path +:+ ".shp") final).
    { unfold save, try, call_to_file in H. rewrite !ctl_bind in H. simpl in H.
      destruct (to_file w final); simpl in H;
        repeat (apply elem_of_cons in H as [H|H]; [first [exact H | discriminate]|]);
        apply elem_of_nil in H; destruct H. }
    injection Hw as -> ->. split; [reflexivity | eauto].
  - apply report_prints in H as [msg H]. discriminate.
Qed.

(** ** The missing-value fill *)

Section Fill.

Import Frame.

Lemma get_unique dup l (f : frame) c0 c :
  get dup l f = Ok c0 -> c ∈ f -> label c = l -> c = c0.
Proof.
  unfold get. intros Hget Hc Hl.
  assert (Hin : c ∈ columns_named l f) by (apply list_elem_of_filter; split; assumption).
  destruct (columns_named l f) as [|c1 [|c2 cs]]; try discriminate.
  injection Hget as <-. apply list_elem_of_singleton in Hin. exact Hin.
Qed.

Lemma has_false l (f : frame) c : has l f = false -> c ∈ f -> label c <> l.
Proof.
  unfold has. intros H Hc Hl. apply bool_decide_eq_false in H. apply H.
  subst l. apply list_elem_of_fmap_2. exact Hc.
Qed.

Lemma fill_rec_col_fmap col (f f' : frame) :
  ctl (fill_rec_col col f) = Next f' -> f' = run_step (col, rec_fill_value) <$> f.
Proof.
  unfold fill_rec_col. destruct (has col f) eqn:Hhas.
  - rewrite ctl_bind. destruct (get AttributeError col f) as [c0|] eqn:Hget; [|discriminate].
    simpl. intros [= <-]. unfold fill_label, run_step, rec_fill_value. simpl.
    destruct (decide (sdtype c0 = DObject)) as [Hd|Hd];
      apply list_fmap_ext; intros i c Hc;
      destruct (decide (label c = col)) as [Hl|Hl]; try reflexivity;
      rewrite (get_unique _ _ _ _ c Hget (list_elem_of_lookup_2 _ _ _ Hc) Hl);
      destruct (decide (sdtype c0 = DObject)); try reflexivity; contradiction.
  - simpl. intros [= <-]. rewrite <- (list_fmap_id f) at 1.
    apply list_fmap_ext. intros i c Hc. unfold run_step. simpl.
    rewrite decide_False; [reflexivity|].
    eapply has_false; [exact Hhas | eapply list_elem_of_lookup_2, Hc].
Qed.

Lemma for_each_fill_rec_col recs (f out : frame) :
  ctl (for_each recs fill_rec_col f) = Next out ->
  out = (fun c => foldl (fun c s => run_step s c) c
                        ((fun l => (l, rec_fill_value)) <$> recs)) <$> f.
Proof.
  revert f. induction recs as [|col recs IH]; intros f; simpl.
  - intros [= <-]. rewrite list_fmap_id. reflexivity.
  - intros H. apply ctl_bind_Next in H as (f' & Hstep & H).
    apply fill_rec_col_fmap in Hstep. subst f'. apply IH in H. subst out.
    rewrite <- list_fmap_compose. reflexivity.
Qed.

Lemma fill_label_run_step l v (f : frame) :
  fill_label l v f = run_step (l, fun _ => v) <$> f.
Proof. reflexivity. Qed.

Lemma foldl_fill_label v cols (f : frame) :
  foldl (fun f col => fill_label col v f) f cols
  = (fun c => foldl (fun c s => run_step s c) c
                    ((fun l => (l, fun _ : series => v)) <$> cols)) <$> f.
Proof.
  revert f. induction cols as [|col cols IH]; intros f; cbn [foldl fmap list_fmap].
  - rewrite list_fmap_id. reflexivity.
  - rewrite IH, fill_label_run_step, <- list_fmap_compose. reflexivity.
Qed.

Lemma fill_missing_fmap recs (final_gdf out : frame) :
  ctl (fill_missing recs final_gdf) = Next out ->
  out = (fun c => foldl (fun c s => run_step s c) c (fill_steps recs)) <$> final_gdf.
Proof.
  unfold fill_missing. intros H. apply for_each_fill_rec_col in H. subst out.
  rewrite foldl_fill_label, !fill_label_run_step, <- !list_fmap_compose.
  apply list_fmap_ext. intros _ c _. unfold fill_steps.
  rewrite !foldl_app. reflexivity.
Qed.

Lemma fill_cell_filled v (vs : list value) :
  v <> NaN -> forall w, fill_cell w <$> (fill_cell v <$> vs) = fill_cell v <$> vs.
Proof.
  intros Hv w. rewrite <- list_fmap_compose. apply list_fmap_ext. intros _ x _.
  unfold fill_cell. simpl. destruct x; simpl; try reflexivity.
  destruct v; simpl; [contradiction | reflexivity..].
Qed.

Lemma rec_fill_value_not_NaN c : rec_fill_value c <> NaN.
Proof. unfold rec_fill_value. destruct (decide _); discriminate. Qed.

Lemma fill_steps_sound recs : Forall sound_step (fill_steps recs).
Proof.
  unfold fill_steps. rewrite !Forall_app. split; [|split].
  - apply Forall_fmap, Forall_forall. intros l _. split; simpl; [discriminate | reflexivity].
  - repeat constructor; simpl; discriminate.
  - apply Forall_fmap, Forall_forall. intros l _. split; simpl.
    + apply rec_fill_value_not_NaN.
    + intros c c' H. unfold rec_fill_value. rewrite H. reflexivity.
Qed.

Lemma policy_of_snoc done s c :
  policy_of (done ++ [s]) c
  = match policy_of done c with
    | Some v => Some v
    | None => if decide (label c = s.1) then Some (s.2 c) else None
    end.
Proof.
  induction done as [|s0 done IH]; simpl; [reflexivity|].
  destruct (decide (label c = s0.1)); [reflexivity | exact IH].
Qed.

Lemma policy_of_sound steps c v :
  Forall sound_step steps -> policy_of steps c = Some v -> v <> NaN.
Proof.
  induction 1 as [|s steps [Hs _] _ IH]; simpl; [discriminate|].
  destruct (decide (label c = s.1)); [intros [= <-]; apply Hs | exact IH].
Qed.

Lemma fill_state_step done s c c' :
  Forall sound_step done -> sound_step s ->
  fill_state done c c' -> fill_state (done ++ [s]) c (run_step s c').
Proof.
  intros Hdone [Hs1 Hs2] (Hl & Hc & Hd). unfold fill_state.
  rewrite policy_of_snoc. unfold run_step.
  destruct (decide (label c' = s.1)) as [Hcol|Hcol].
  - rewrite Hl in Hcol. rewrite (decide_True _ _ Hcol). simpl. split; [exact Hl|].
    destruct (policy_of done c) as [v|] eqn:Hp.
    + split; [|discriminate]. rewrite Hc. apply fill_cell_filled.
      eapply policy_of_sound; eassumption.
    + split; [|discriminate]. rewrite Hc, (Hs2 c c' (Hd eq_refl)). reflexivity.
  - rewrite Hl in Hcol. rewrite (decide_False _ _ Hcol). split; [exact Hl|].
    destruct (policy_of done c); [split; [exact Hc | discriminate]|].
    split; [exact Hc | exact Hd].
Qed.

Lemma fill_state_foldl steps done c c' :
  Forall sound_step done -> Forall sound_step steps ->
  fill_state done c c' ->
  fill_state (done ++ steps) c (foldl (fun c s => run_step s c) c' steps).
Proof.
  intros Hdone Hsteps. revert done c' Hdone.
  induction Hsteps as [|s steps Hs _ IH]; intros done c' Hdone H; simpl.
  - rewrite app_nil_r. exact H.
  - rewrite (cons_middle s done steps), app_assoc. apply IH.
    + apply Forall_app. split; [exact Hdone | apply Forall_singleton; exact Hs].
    + apply fill_state_step; assumption.
Qed.

Lemma policy_of_recs recs c :
  policy_of ((fun l => (l, rec_fill_value)) <$> recs) c
  = if bool_decide (label c ∈ recs) then Some (rec_fill_value c) else None.
Proof.
  induction recs as [|l recs IH]; cbn [fmap list_fmap policy_of fst snd].
  - rewrite bool_decide_eq_false_2 by apply not_elem_of_nil. reflexivity.
  - destruct (decide (label c = l)) as [H|H].
    + rewrite bool_decide_eq_true_2; [reflexivity | apply elem_of_cons; left; exact H].
    + fold (@fmap list _ _ _ (fun l => (l, rec_fill_value)) recs). rewrite IH.
      destruct (decide (label c ∈ recs)) as [H'|H'].
      * rewrite !bool_decide_eq_true_2; [reflexivity | apply elem_of_cons; right |]; exact H'.
      * rewrite !bool_decide_eq_false_2; [reflexivity | | exact H'].
        intros [?|?]%elem_of_cons; contradiction.
Qed.

Lemma fill_policy_steps recs c : fill_policy recs c = policy_of (fill_steps recs) c.
Proof.
  unfold fill_policy, fill_steps, suitability_columns. simpl.
  destruct (decide (label c = "Adapt")) as [H|H1];
    [rewrite H; reflexivity|].
  destruct (decide (label c = "Mitigate")) as [H|H2];
    [rewrite H; reflexivity|].
  destruct (decide (label c = "Replace")) as [H|H3];
    [rewrite H; reflexivity|].
  destruct (decide (label c = "General_SI")) as [H|H4];
    [rewrite H; reflexivity|].
  rewrite bool_decide_eq_false_2.
  2:{ intros H. repeat (apply elem_of_cons in H as [H|H]; [contradiction|]).
      apply elem_of_nil in H. exact H. }
  destruct (decide (label c = "Comm_SIP")); [reflexivity|].
  destruct (decide (label c = "Has_CommSI")); [reflexivity|].
  symmetry. apply policy_of_recs.
Qed.

End Fill.

Lemma fill_missing_cells (district_rec_cols : list string) (final_gdf out : frame) :
  ctl (fill_missing district_rec_cols final_gdf) = Next out ->
  Forall2 (fun c c' => label c' = label c
                       /\ cells c' = filled_cells district_rec_cols c)
          final_gdf out.
Proof.
  intros H. apply fill_missing_fmap in H. subst out.
  apply Forall2_fmap_r, Forall_Forall2_diag, Forall_forall. intros c _.
  destruct (fill_state_foldl (fill_steps district_rec_cols) [] c c
              (Forall_nil_2 _) (fill_steps_sound _)) as (Hl & Hc & _).
  { repeat split; reflexivity. }
  split; [exact Hl|]. unfold filled_cells. rewrite fill_policy_steps. exact Hc.
Qed.

(** With distinct column names the lookups of the fill find one column each,
    and the fill goes through. *)
Lemma columns_named_NoDup l (f : frame) :
  NoDup (Frame.labels f) -> l ∈ Frame.labels f -> exists c, Frame.columns_named l f = [c].
Proof.
  unfold Frame.columns_named, Frame.labels.
  induction f as [|c f IH]; intros Hnd Hl.
  - apply elem_of_nil in Hl. destruct Hl.
  - rewrite fmap_cons in Hnd, Hl. apply NoDup_cons in Hnd as [Hc Hnd].
    rewrite filter_cons. destruct (decide (label c = l)) as [E|E].
    + exists c. f_equal.
      destruct (filter (fun c => label c = l) f) as [|c' cs] eqn:Hf; [reflexivity|].
      assert (Hc' : c' ∈ filter (fun c => label c = l) f)
        by (rewrite Hf; apply elem_of_cons; left; reflexivity).
      apply list_elem_of_filter in Hc' as [E' Hc']. destruct Hc.
      rewrite E, <- E'. apply list_elem_of_fmap_2, Hc'.
    + apply elem_of_cons in Hl as [Hl|Hl]; [congruence|]. exact (IH Hnd Hl).
Qed.

Lemma get_NoDup dup l (f : frame) :
  NoDup (Frame.labels f) -> l ∈ Frame.labels f -> exists c, Frame.get dup l f = Ok c.
Proof.
  intros Hnd Hl. destruct (columns_named_NoDup l f Hnd Hl) as [c Hc].
  exists c. unfold Frame.get. rewrite Hc. reflexivity.
Qed.

Lemma labels_run_step s (f : frame) : Frame.labels (run_step s <$> f) = Frame.labels f.
Proof.
  unfold Frame.labels. rewrite <- list_fmap_compose. apply list_fmap_ext.
  intros _ c _. unfold run_step. simpl. destruct (decide (label c = s.1)); reflexivity.
Qed.

Lemma fill_rec_col_returns col (f : frame) :
  NoDup (Frame.labels f) ->
  ctl (fill_rec_col col f) = Next (run_step (col, rec_fill_value) <$> f).
Proof.
  intros Hnd.
  assert (H : exists f', ctl (fill_rec_col col f) = Next f').
  { unfold fill_rec_col, Frame.has. destruct (decide (col ∈ Frame.labels f)) as [Hin|Hin].
    - rewrite (bool_decide_eq_true_2 _ Hin).
      destruct (get_NoDup AttributeError col f Hnd Hin) as [c Hget].
      rewrite Hget, ctl_lift_bind. eexists. reflexivity.
    - rewrite (bool_decide_eq_false_2 _ Hin). eexists. reflexivity. }
  destruct H as [f' H]. rewrite H. f_equal. apply fill_rec_col_fmap, H.
Qed.

Lemma for_each_fill_rec_col_returns recs (f : frame) :
  NoDup (Frame.labels f) -> exists out, ctl (for_each recs fill_rec_col f) = Next out.
Proof.
  revert f. induction recs as [|col recs IH]; intros f Hnd; cbn [for_each].
  - eexists. reflexivity.
  - rewrite ctl_bind, (fill_rec_col_returns col f Hnd). apply IH.
    rewrite labels_run_step. exact Hnd.
Qed.

Lemma label_foldl_run_step steps c :
  label (foldl (fun c s => run_step s c) c steps) = label c.
Proof.
  revert c. induction steps as [|s steps IH]; intros c; [reflexivity|].
  cbn [foldl]. rewrite IH. unfold run_step. destruct (decide (label c = s.1)); reflexivity.
Qed.

Lemma fill_missing_returns recs (final_gdf : frame) :
  NoDup (Frame.labels final_gdf) -> exists out, ctl (fill_missing recs final_gdf) = Next out.
Proof.
  intros Hnd. unfold fill_missing. apply for_each_fill_rec_col_returns.
  rewrite foldl_fill_label, !fill_label_run_step, !labels_run_step.
  unfold Frame.labels. rewrite <- list_fmap_compose.
  erewrite list_fmap_ext; [exact Hnd|]. intros _ c _. apply label_foldl_run_step.
Qed.

(** C4 (as amended). The fill prints nothing, leaves the columns and their
    order as they are and works column by column: the missing cells of the
    four suitability columns become "No Data", those of the community
    marker the empty string, those of the community flag [False], and those
    of every column collected as a recommendation column "N/A" when the
    column is an object column and 0 otherwise; cells that are not missing,
    and all cells of any other column (the joined state and district names
    among them), stay as they were.  When no two columns share a name the
    fill goes through. *)
Theorem fill_follows_the_policy (district_rec_cols : list string) (final_gdf out : frame) :
  ctl (fill_missing district_rec_cols final_gdf) = Next out ->
  length out = length final_gdf
  /\ (forall i c, final_gdf !! i = Some c ->
        exists c', out !! i = Some c'
          /\ label c' = label c
          /\ cells c' = filled_cells district_rec_cols c
          /\ (label c ∈ suitability_columns ->
              cells c' = Frame.fill_cell (Str "No Data") <$> cells c)
          /\ (label c = "Comm_SIP" -> cells c' = Frame.fill_cell (Str "") <$> cells c)
          /\ (label c = "Has_CommSI" -> cells c' = Frame.fill_cell (Bool false) <$> cells c)
          /\ (label c ∉ suitability_columns ++ ["Comm_SIP"; "Has_CommSI"] ->
              label c ∈ district_rec_cols ->
              cells c' = Frame.fill_cell (rec_fill_value c) <$> cells c)
          /\ (label c ∉ suitability_columns ++ ["Comm_SIP"; "Has_CommSI"] ++ district_rec_cols ->
              cells c' = cells c))
  /\ (NoDup (Frame.labels final_gdf) ->
      forall recs, exists out', ctl (fill_missing recs final_gdf) = Next out').
Proof.
  intros H. apply fill_missing_cells in H.
  split; [symmetry; exact (Forall2_length _ _ _ H)|].
  split; [|intros Hnd recs; apply fill_missing_returns, Hnd].
  intros i c Hi.
  destruct (Forall2_lookup_l _ _ _ _ _ H Hi) as (c' & Hi' & Hl & Hc).
  exists c'. split; [exact Hi'|]. split; [exact Hl|]. split; [exact Hc|].
  rewrite Hc. unfold filled_cells, fill_policy.
  repeat split.
  - intros Hs. rewrite (bool_decide_eq_true_2 _ Hs). reflexivity.
  - intros Hs. rewrite Hs. reflexivity.
  - intros Hs. rewrite Hs. reflexivity.
  - intros Hn Hr. rewrite !not_elem_of_app in Hn. destruct Hn as [Hn1 Hn2].
    rewrite (bool_decide_eq_false_2 _ Hn1).
    rewrite decide_False by (intros E; apply Hn2; rewrite E; find_elem).
    rewrite decide_False by (intros E; apply Hn2; rewrite E; find_elem).
    rewrite (bool_decide_eq_true_2 _ Hr). reflexivity.
  - intros Hn. rewrite !not_elem_of_app in Hn. destruct Hn as (Hn1 & Hn2 & Hn3).
    rewrite (bool_decide_eq_false_2 _ Hn1).
    rewrite decide_False by (intros E; apply Hn2; rewrite E; find_elem).
    rewrite decide_False by (intros E; apply Hn2; rewrite E; find_elem).
    rewrite (bool_decide_eq_false_2 _ Hn3). reflexivity.
Qed.

Lemma fill_follows_the_policy_witness :
  exists c',
    [text "Adapt" [Str "Less Suitable"; Str "No Data"];
     text "State_Name" [Str "Goa"; NaN];
     numbers "Sol_Pump" [Num 7; Num 0]] !! 1%nat = Some c'
    /\ label c' = "State_Name"
    /\ cells c' = [Str "Goa"; NaN].
Proof.
  destruct (fill_follows_the_policy ["Sol_Pump"]
              [text "Adapt" [Str "Less Suitable"; NaN];
               text "State_Name" [Str "Goa"; NaN];
               numbers "Sol_Pump" [Num 7; NaN]]
              [text "Adapt" [Str "Less Suitable"; Str "No Data"];
               text "State_Name" [Str "Goa"; NaN];
               numbers "Sol_Pump" [Num 7; Num 0]]
              eq_refl) as (_ & Hcol & _).
  destruct (Hcol 1%nat (text "State_Name" [Str "Goa"; NaN]) eq_refl)
    as (c' & Hi & Hl & Hc & _).
  exists c'. split; [exact Hi|]. split; [exact Hl | exact Hc].
Defined.

(** C4, the claim as stated fails: the state name is a joined textual field,
    and on the feature without master record it is still missing in the
    frame that is saved. *)
Lemma joined_text_field_left_missing :
  exists (f : frame) (c : series),
    ToFile "true_solar_suitability.shp" f
      ∈ (create_true_solar_suitability_shapefile sample_world).1
    /\ c ∈ f
    /\ label c = "State_Name" /\ sdtype c = DObject
    /\ cells c = [Str "Maharashtra"; Str "West Bengal"; NaN].
Proof.
  do 2 eexists. split; [vm_compute; find_elem|].
  split; [do 8 (apply elem_of_cons; right); apply elem_of_cons; left; reflexivity|].
  repeat split.
Qed.

(** ** Failures *)

Section Returns.

Lemma ram_ret {A} (a : A) : returns_after_message (mret a).
Proof. intros b H. discriminate. Qed.

Lemma ram_raise {A} x : returns_after_message (@raise A x).
Proof. intros b H. discriminate. Qed.

Lemma ram_lift {A} (r : result A) : returns_after_message (lift r).
Proof. intros b H. destruct r; discriminate. Qed.

Lemma ram_print msg : returns_after_message (print msg).
Proof. intros b H. discriminate. Qed.

Lemma ram_call_to_file w path f : returns_after_message (call_to_file w path f).
Proof. intros b. unfold call_to_file. simpl. destruct (to_file w f); discriminate. Qed.

Lemma ram_print_return {A} msg :
  failure_message msg -> returns_after_message (print msg;; @return_ A false).
Proof. intros Hm b [= <-]. split; [reflexivity|]. exists msg. split; [reflexivity | exact Hm]. Qed.

Lemma ram_bind {A B} (m : M A) (k : A -> M B) :
  returns_after_message m -> (forall a, returns_after_message (k a)) ->
  returns_after_message (m ≫= k).
Proof.
  intros Hm Hk b. rewrite ctl_bind, trace_bind. destruct (ctl m) as [a|b'|e] eqn:E.
  - intros H. destruct (Hk a b H) as (-> & msg & Hlast & Hmsg).
    split; [reflexivity|]. exists msg. split; [|exact Hmsg].
    destruct (trace (k a)) as [|e0 t] eqn:Et; [discriminate|].
    rewrite <- Hlast. apply last_app_cons.
  - intros [= <-]. rewrite app_nil_r. apply Hm, E.
  - discriminate.
Qed.

Lemma ram_try {A} (body : M A) (handler : exn -> M A) :
  returns_after_message body -> (forall x, returns_after_message (handler x)) ->
  returns_after_message (try body handler).
Proof.
  intros Hb Hh b. unfold try. destruct (ctl body) as [a|b'|e] eqn:E.
  - rewrite E. discriminate.
  - rewrite E. intros [= <-]. apply Hb, E.
  - simpl. intros H. destruct (Hh e b H) as (-> & msg & Hlast & Hmsg).
    split; [reflexivity|]. exists msg. split; [|exact Hmsg].
    destruct (trace (handler e)) as [|e0 t] eqn:Et; [discriminate|].
    rewrite <- Hlast. apply last_app_cons.
Qed.

Lemma ram_for_each {X S} (xs : list X) (body : X -> S -> M S) s :
  (forall x s', returns_after_message (body x s')) ->
  returns_after_message (for_each xs body s).
Proof.
  intros Hb. revert s. induction xs as [|x xs IH]; intros s; simpl.
  - apply ram_ret.
  - apply ram_bind; [apply Hb | intros s'; apply IH].
Qed.

End Returns.

Ltac ram_step :=
  match goal with
  | |- returns_after_message (print _;; return_ false) =>
      apply ram_print_return; unfold failure_message; eauto 10
  | |- returns_after_message (mret _) => apply ram_ret
  | |- returns_after_message (raise _) => apply ram_raise
  | |- returns_after_message (lift _) => apply ram_lift
  | |- returns_after_message (print _) => apply ram_print
  | |- returns_after_message (call_to_file _ _ _) => apply ram_call_to_file
  | |- returns_after_message (mbind _ _) => apply ram_bind; [|intros ?]
  | |- returns_after_message (try _ _) => apply ram_try; [|intros ?]
  | |- returns_after_message (for_each _ _ _) => apply ram_for_each; intros ? ?
  | |- returns_after_message (if ?b then _ else _) => destruct b
  | |- returns_after_message (match ?x with _ => _ end) => destruct x
  end.

Lemma body_returns_after_message w : returns_after_message (body w).
Proof.
  unfold body, prepare_inputs, load_shapefile, clean_shapefile, load_workbook,
    build_master, rename_recommendations, rename_line, merge_recommendations,
    merge_community, merge_potential, add_match_keys, assemble, merge_geometry,
    finalize, apply_core_mapping, add_community_flag, fill_missing, fill_rec_col,
    check_duplicates, save, report, report_objective.
  repeat ram_step.
Qed.

(** ** What a run that gets through has found *)

Section Inversion.

Import Frame.

Lemma columns_named_elem l (f : frame) c :
  c ∈ columns_named l f <-> c ∈ f /\ label c = l.
Proof. unfold columns_named. rewrite list_elem_of_filter. tauto. Qed.

Lemma columns_named_nil l (f : frame) : columns_named l f = [] <-> l ∉ labels f.
Proof.
  split.
  - intros H (c & -> & Hc)%list_elem_of_fmap.
    assert (Hin : c ∈ columns_named (label c) f) by (apply columns_named_elem; auto).
    rewrite H in Hin. apply elem_of_nil in Hin. exact Hin.
  - intros H. apply elem_of_nil_inv. intros c [Hc <-]%columns_named_elem.
    apply H, list_elem_of_fmap_2, Hc.
Qed.

Lemma select_Ok ls (f g : frame) :
  select ls f = Ok g ->
  (forall l, l ∈ ls -> l ∈ labels f)
  /\ (forall c, c ∈ g <-> c ∈ f /\ label c ∈ ls).
Proof.
  revert g. induction ls as [|l ls IH]; intros g; simpl.
  - intros [= <-]. split; [intros l H; apply elem_of_nil in H; destruct H|].
    intros c. rewrite !elem_of_nil. tauto.
  - destruct (columns_named l f) as [|c0 cs] eqn:E; [discriminate|].
    destruct (select ls f) as [rest|]; [|discriminate]. simpl. intros [= <-].
    destruct (IH rest eq_refl) as [IH1 IH2]. split.
    + intros l' [Heq|Hl']%elem_of_cons; [subst l'|apply IH1, Hl'].
      destruct (decide (l ∈ labels f)) as [H|H]; [exact H|].
      apply columns_named_nil in H. congruence.
    + intros c. change (c ∈ (c0 :: cs) ++ rest <-> c ∈ f /\ label c ∈ l :: ls).
      rewrite elem_of_app, <- E, columns_named_elem, IH2, elem_of_cons.
      split; [intros [[? ->]|[? ?]]; auto | intros [? [->|?]]; auto].
Qed.

Lemma set_labels_Ok names (f g : frame) :
  set_labels names f = Ok g -> length f = length names /\ labels g = names.
Proof.
  revert f g. induction names as [|n names IH]; intros [|c f] g; simpl; try discriminate.
  - intros [= <-]. split; reflexivity.
  - destruct (set_labels names f) as [rest|] eqn:E; [|discriminate]. simpl.
    intros [= <-]. destruct (IH _ _ E) as [-> Hl].
    split; [reflexivity|]. unfold labels in *. rewrite fmap_cons, Hl. reflexivity.
Qed.

Lemma load_shapefile_Next w gdf :
  ctl (load_shapefile w) = Next gdf -> shapefile_exists w = true /\ read_file w = Ok gdf.
Proof.
  unfold load_shapefile. intros H. apply ctl_try_Next in H; [|discriminate].
  destruct (shapefile_exists w); [|discriminate]. split; [reflexivity|].
  apply ctl_bind_Next in H as (gdf' & Hr & H). apply ctl_lift_Next in Hr.
  rewrite ctl_bind in H. simpl in H. congruence.
Qed.

Lemma load_workbook_Next w wb :
  ctl (load_workbook w) = Next wb ->
  read_excel w "Solar Suitability_new_ranking" = Ok (solar_ranking wb)
  /\ read_sheet w "District_recommendation" = Ok (district_recommendations wb)
  /\ read_excel w "Community SIP" = Ok (community_sip wb)
  /\ read_excel w "GIS layer accronym" = Ok (gis_acronym wb)
  /\ read_excel w "potential" = Ok (potential_data wb)
  /\ forall sheet, sheet ∈ sheet_names -> exists f, read_excel w sheet = Ok f.
Proof.
  unfold load_workbook. intros H. apply ctl_try_Next in H; [|discriminate].
  repeat (apply ctl_bind_Next in H as (? & ?%ctl_lift_Next & H)).
  injection H as <-. simpl. repeat (split; [assumption|]).
  intros sheet Hs. unfold sheet_names in Hs.
  repeat (apply elem_of_cons in Hs as [->|Hs];
          [first [ solve [eauto]
                 | match goal with
                   | Hr : read_sheet _ _ = _ |- _ => unfold read_excel; rewrite Hr; eauto
                   end ]|]).
  apply elem_of_nil in Hs. destruct Hs.
Qed.

Lemma build_master_Next wb m master :
  ctl (build_master wb m) = Next master ->
  length (solar_ranking wb) = 4
  /\ (forall l, l ∈ ["State"; "District"; "Final"] -> l ∈ labels (community_sip wb))
  /\ (forall l, l ∈ ["District"; "Final Potential"] -> l ∈ labels (potential_data wb)).
Proof.
  unfold build_master. intros H.
  apply ctl_bind_Next in H as (recs & _ & H).
  apply ctl_bind_Next in H as (m0 & Hset%ctl_lift_Next & H).
  apply ctl_bind_Next in H as (m1 & _ & H).
  apply ctl_bind_Next in H as (m2 & Hcomm & H).
  split; [apply set_labels_Ok in Hset as [Hset _]; exact Hset|]. split.
  - unfold merge_community in Hcomm.
    apply ctl_bind_Next in Hcomm as (c0 & Hsel%ctl_lift_Next & _).
    apply select_Ok in Hsel as [Hsel _]. exact Hsel.
  - unfold merge_potential in H.
    apply ctl_bind_Next in H as (c0 & Hsel%ctl_lift_Next & _).
    apply select_Ok in Hsel as [Hsel _]. exact Hsel.
Qed.

Lemma clean_shapefile_Next shp gdf :
  ctl (clean_shapefile shp) = Next gdf ->
  "geometry" ∈ labels shp
  /\ forall c, c ∈ gdf <-> c ∈ shp /\ (label c = "geometry" \/ is_name_column (label c)).
Proof.
  unfold clean_shapefile. intros H%ctl_lift_Next. apply select_Ok in H as [H1 H2]. split.
  - apply H1. apply elem_of_cons. left. reflexivity.
  - intros c. rewrite H2, elem_of_cons, list_elem_of_filter.
    split; intros [Hc Hl]; (split; [exact Hc|]).
    + destruct Hl as [Hl|[Hl _]]; auto.
    + destruct Hl as [Hl|Hl]; [left; exact Hl | right; split; [exact Hl|]].
      apply list_elem_of_fmap_2, Hc.
Qed.

Lemma add_match_keys_Next gdf master inputs :
  ctl (add_match_keys gdf master) = Next inputs ->
  "NAME_2" ∈ labels gdf \/ "District" ∈ labels gdf.
Proof.
  unfold add_match_keys. intros H.
  apply ctl_bind_Next in H as (clean & _ & H).
  destruct (has "NAME_2" gdf) eqn:E1.
  { left. apply bool_decide_eq_true in E1. exact E1. }
  destruct (has "District" gdf) eqn:E2.
  { right. apply bool_decide_eq_true in E2. exact E2. }
  rewrite ctl_bind in H. discriminate.
Qed.

(** What the inputs of a run that reached the merge look like. *)
Lemma prepare_inputs_Next w inputs :
  ctl (prepare_inputs w) = Next inputs ->
  shapefile_exists w = true
  /\ (exists shp, read_file w = Ok shp /\ "NAME_2" ∈ labels shp)
  /\ (forall sheet, sheet ∈ sheet_names -> exists f, read_excel w sheet = Ok f)
  /\ (forall f, read_excel w "Solar Suitability_new_ranking" = Ok f -> length f = 4)
  /\ (forall f, read_excel w "Community SIP" = Ok f ->
        forall l, l ∈ ["State"; "District"; "Final"] -> l ∈ labels f)
  /\ (forall f, read_excel w "potential" = Ok f ->
        forall l, l ∈ ["District"; "Final Potential"] -> l ∈ labels f).
Proof.
  unfold prepare_inputs. intros H.
  apply ctl_bind_Next in H as (shp & [Hex Hshp]%load_shapefile_Next & H).
  apply ctl_bind_Next in H as (gdf & [_ Hgdf]%clean_shapefile_Next & H).
  apply ctl_bind_Next in H as (wb & (Hr & _ & Hc & _ & Hp & Hall)%load_workbook_Next & H).
  apply ctl_bind_Next in H as (m & _ & H).
  apply ctl_bind_Next in H as (master & (H4 & Hcl & Hpl)%build_master_Next & H).
  apply add_match_keys_Next in H.
  split; [exact Hex|]. split; [|split; [exact Hall|split; [|split]]].
  - exists shp. split; [exact Hshp|].
    assert (Hin : forall l, l ∈ labels gdf -> l ∈ labels shp /\ (l = "geometry" \/ is_name_column l)).
    { intros l (c & -> & Hc')%list_elem_of_fmap. apply Hgdf in Hc' as [Hc' Hl].
      split; [apply list_elem_of_fmap_2, Hc' | exact Hl]. }
    destruct H as [H|H]; apply Hin in H as [H Hl]; [exact H|].
    destruct Hl as [Hl|Hl]; [discriminate | destruct Hl].
  - intros f Hf. congruence.
  - intros f Hf. rewrite Hc in Hf. injection Hf as <-. exact Hcl.
  - intros f Hf. rewrite Hp in Hf. injection Hf as <-. exact Hpl.
Qed.

End Inversion.

Lemma written_app t1 t2 : written (t1 ++ t2) = written t1 ++ written t2.
Proof. unfold written. apply omap_app. Qed.

Lemma written_prints t : (forall e, e ∈ t -> is_print e) -> written t = [].
Proof.
  induction t as [|e t IH]; intros H; [reflexivity|].
  destruct (H e) as [msg ->]; [apply elem_of_cons; left; reflexivity|].
  simpl. apply IH. intros e' He'. apply H. apply elem_of_cons. right. exact He'.
Qed.

(** A run that does not get through the preparation writes nothing and does
    not return [True]. *)
Lemma returned_true w :
  (create_true_solar_suitability_shapefile w).2 = Returned true ->
  exists u, ctl (body w) = Next u.
Proof.
  simpl. destruct (ctl (body w)) as [u|b|e] eqn:E; [eauto | | discriminate].
  intros [= ->]. apply body_returns_after_message in E as [E _]. discriminate.
Qed.

Lemma not_prepared w :
  (forall inputs, ctl (prepare_inputs w) <> Next inputs) ->
  (create_true_solar_suitability_shapefile w).2 <> Returned true
  /\ written (create_true_solar_suitability_shapefile w).1 = [].
Proof.
  intros H. split.
  - intros [u Hu]%returned_true. unfold body in Hu.
    apply ctl_bind_Next in Hu as (inputs & Hi & _). exact (H inputs Hi).
  - simpl. unfold body. rewrite trace_bind.
    destruct (ctl (prepare_inputs w)) as [inputs|b|e] eqn:E;
      [destruct (H inputs eq_refl) | |];
      rewrite app_nil_r; apply written_prints, prepare_inputs_prints.
Qed.

(** The events of a run that got as far as saving. *)
Lemma body_saving w inputs f :
  ctl (prepare_inputs w) = Next inputs ->
  ctl (assemble inputs) = Next f ->
  trace (body w) = trace (prepare_inputs w) ++ trace (assemble inputs)
                   ++ trace (save w f;; report f)
  /\ ctl (body w) = ctl (save w f;; report f).
Proof.
  intros Hi Hf. unfold body. rewrite trace_bind, ctl_bind, Hi, trace_bind, ctl_bind, Hf.
  split; reflexivity.
Qed.

Lemma save_failed w f e :
  to_file w f = Err e ->
  trace (save w f;; report f)
  = [ToFile "true_solar_suitability.shp" f; Print (SaveError e)]
  /\ ctl (save w f;; report f) = Return false.
Proof.
  intros H. unfold save, try, call_to_file. rewrite trace_bind, !ctl_bind. simpl.
  rewrite H. simpl. split; reflexivity.
Qed.

(** ** An unreadable sheet *)

Section Unreadable.

Import Frame.

Lemma select_returns ls (f : frame) :
  (forall l, l ∈ ls -> l ∈ labels f) -> exists g, select ls f = Ok g.
Proof.
  induction ls as [|l ls IH]; intros Hls; cbn [select]; [eauto|].
  destruct (columns_named l f) as [|c cs] eqn:E.
  - exfalso. assert (Hl : l ∈ labels f) by (apply Hls; left).
    apply list_elem_of_fmap in Hl as (c & Hl & Hc).
    assert (Hin : c ∈ columns_named l f) by (apply list_elem_of_filter; auto).
    rewrite E in Hin. apply elem_of_nil in Hin. exact Hin.
  - destruct IH as [g Hg]; [intros l' Hl'; apply Hls; right; exact Hl'|].
    rewrite Hg. simpl. eauto.
Qed.

Lemma load_shapefile_loaded w shp :
  shapefile_exists w = true -> read_file w = Ok shp ->
  load_shapefile w = Run [Print (ShapefileLoaded (nrows shp))] (Next shp).
Proof. intros Hex Hshp. unfold load_shapefile. rewrite Hex, Hshp. reflexivity. Qed.

Lemma clean_shapefile_returns (gdf : frame) :
  "geometry" ∈ labels gdf -> exists g, clean_shapefile gdf = Run [] (Next g).
Proof.
  intros Hg. unfold clean_shapefile.
  destruct (select_returns
              ("geometry" :: filter (fun col => is_name_column col) (labels gdf)) gdf)
    as [g Hsel].
  - intros l [->|Hl]%elem_of_cons; [exact Hg|].
    apply list_elem_of_filter in Hl as [_ Hl]. exact Hl.
  - exists g. rewrite Hsel. reflexivity.
Qed.

Lemma clean_shapefile_raises (gdf : frame) :
  "geometry" ∉ labels gdf -> clean_shapefile gdf = Run [] (Raise (KeyError "geometry")).
Proof.
  intros Hg. unfold clean_shapefile. cbn [select].
  destruct (columns_named "geometry" gdf) as [|c cs] eqn:E; [reflexivity|].
  exfalso. apply Hg.
  assert (Hin : c ∈ columns_named "geometry" gdf) by (rewrite E; left).
  apply list_elem_of_filter in Hin as [<- Hin]. apply list_elem_of_fmap_2, Hin.
Qed.

End Unreadable.

Lemma bind_Next {A B : Type} (t : list event) (a : A) (k : A -> M B) :
  Run t (Next a) ≫= k = Run (t ++ trace (k a)) (ctl (k a)).
Proof. reflexivity. Qed.

(** The case of [load_workbook_fails] in which [sheet'] is the first sheet
    that cannot be read. *)
Ltac unreadable before sheet' after :=
  exists before, sheet', after; eexists;
  split; [reflexivity|];
  split; [intros s Hin;
          repeat (apply elem_of_cons in Hin as [->|Hin];
                  [repeat match goal with
                          | H : read_sheet _ _ = Ok _ |- _ => rewrite H
                          end; eauto|]);
          apply elem_of_nil in Hin; destruct Hin|];
  split; [match goal with H : read_sheet _ _ = Err _ |- _ => rewrite H end; reflexivity
         | reflexivity].

(** The sheets before the first one that cannot be read are read, and the
    workbook step prints the error of that one and returns [False]. *)
Lemma load_workbook_fails w sheet e :
  sheet ∈ sheet_names -> read_excel w sheet = Err e ->
  exists before sheet' after e',
    sheet_names = before ++ sheet' :: after
    /\ (forall s, s ∈ before -> exists f, read_excel w s = Ok f)
    /\ read_excel w sheet' = Err e'
    /\ load_workbook w = Run [Print (ExcelError e')] (Return false).
Proof.
  intros Hs He. unfold load_workbook, read_excel in *.
  destruct (read_sheet w "Solar Suitability_new_ranking") as [s1|e1] eqn:E1;
    [|unreadable (@nil string) "Solar Suitability_new_ranking"
        ["District_recommendation"; "Adaptation"; "Mitigation"; "Replacement";
         "Community SIP"; "GIS layer accronym"; "potential"; "All"]].
  destruct (read_sheet w "District_recommendation") as [s2|e2] eqn:E2;
    [|unreadable ["Solar Suitability_new_ranking"] "District_recommendation"
        ["Adaptation"; "Mitigation"; "Replacement";
         "Community SIP"; "GIS layer accronym"; "potential"; "All"]].
  destruct (read_sheet w "Adaptation") as [s3|e3] eqn:E3;
    [|unreadable ["Solar Suitability_new_ranking"; "District_recommendation"] "Adaptation"
        ["Mitigation"; "Replacement"; "Community SIP"; "GIS layer accronym"; "potential";
         "All"]].
  destruct (read_sheet w "Mitigation") as [s4|e4] eqn:E4;
    [|unreadable ["Solar Suitability_new_ranking"; "District_recommendation"; "Adaptation"]
        "Mitigation"
        ["Replacement"; "Community SIP"; "GIS layer accronym"; "potential"; "All"]].
  destruct (read_sheet w "Replacement") as [s5|e5] eqn:E5;
    [|unreadable ["Solar Suitability_new_ranking"; "District_recommendation"; "Adaptation";
                  "Mitigation"]
        "Replacement" ["Community SIP"; "GIS layer accronym"; "potential"; "All"]].
  destruct (read_sheet w "Community SIP") as [s6|e6] eqn:E6;
    [|unreadable ["Solar Suitability_new_ranking"; "District_recommendation"; "Adaptation";
                  "Mitigation"; "Replacement"]
        "Community SIP" ["GIS layer accronym"; "potential"; "All"]].
  destruct (read_sheet w "GIS layer accronym") as [s7|e7] eqn:E7;
    [|unreadable ["Solar Suitability_new_ranking"; "District_recommendation"; "Adaptation";
                  "Mitigation"; "Replacement"; "Community SIP"]
        "GIS layer accronym" ["potential"; "All"]].
  destruct (read_sheet w "potential") as [s8|e8] eqn:E8;
    [|unreadable ["Solar Suitability_new_ranking"; "District_recommendation"; "Adaptation";
                  "Mitigation"; "Replacement"; "Community SIP"; "GIS layer accronym"]
        "potential" ["All"]].
  destruct (read_sheet w "All") as [s9|e9] eqn:E9;
    [|unreadable ["Solar Suitability_new_ranking"; "District_recommendation"; "Adaptation";
                  "Mitigation"; "Replacement"; "Community SIP"; "GIS layer accronym";
                  "potential"]
        "All" (@nil string)].
  exfalso. unfold sheet_names in Hs.
  repeat (apply elem_of_cons in Hs as [->|Hs];
          [repeat match goal with
                  | H : read_sheet _ _ = Ok _ |- _ => rewrite H in He
                  end; discriminate|]).
  apply elem_of_nil in Hs. exact Hs.
Qed.

(** C7 (as amended). A missing shapefile, an unreadable shapefile and a
    failed write make the function print one failure line on standard output
    and return [False] at once. So does a workbook sheet that cannot be read,
    once the shapefile has been loaded with its geometry column: the run
    prints the line about the loaded shapefile and the error of the first
    unreadable sheet, and returns [False]. A shapefile without geometry
    column ends the run before the workbook is opened, with an exception
    nobody catches. A shapefile without NAME_2 column, a ranking sheet that
    has not four columns and a community or potential sheet without one of
    the columns the script selects stop the run as well. In all these cases
    but the failed write, [to_file] has not been called; when the write
    fails it has been called once, and the script removes nothing. Whenever
    the function returns [False], the last thing it did was print a failure
    line. *)
Theorem failures_print_and_stop (w : world) :
  let r := create_true_solar_suitability_shapefile w in
  (shapefile_exists w = false -> r = ([Print ShapefileNotFound], Returned false))
  /\ (forall e, shapefile_exists w = true -> read_file w = Err e ->
        r = ([Print (ShapefileError e)], Returned false))
  /\ (forall shp sheet e,
        shapefile_exists w = true -> read_file w = Ok shp ->
        "geometry" ∈ Frame.labels shp ->
        sheet ∈ sheet_names -> read_excel w sheet = Err e ->
        exists before sheet' after e',
          sheet_names = before ++ sheet' :: after
          /\ (forall s, s ∈ before -> exists f, read_excel w s = Ok f)
          /\ read_excel w sheet' = Err e'
          /\ r = ([Print (ShapefileLoaded (Frame.nrows shp)); Print (ExcelError e')],
                  Returned false))
  /\ (forall shp,
        shapefile_exists w = true -> read_file w = Ok shp ->
        "geometry" ∉ Frame.labels shp ->
        r = ([Print (ShapefileLoaded (Frame.nrows shp))], Uncaught (KeyError "geometry")))
  /\ (forall sheet e, sheet ∈ sheet_names -> read_excel w sheet = Err e ->
        r.2 <> Returned true /\ written r.1 = [])
  /\ (forall shp, read_file w = Ok shp -> "NAME_2" ∉ Frame.labels shp ->
        r.2 <> Returned true /\ written r.1 = [])
  /\ (forall f, read_excel w "Solar Suitability_new_ranking" = Ok f -> length f <> 4 ->
        r.2 <> Returned true /\ written r.1 = [])
  /\ (forall f l, read_excel w "Community SIP" = Ok f ->
        l ∈ ["State"; "District"; "Final"] -> l ∉ Frame.labels f ->
        r.2 <> Returned true /\ written r.1 = [])
  /\ (forall f l, read_excel w "potential" = Ok f ->
        l ∈ ["District"; "Final Potential"] -> l ∉ Frame.labels f ->
        r.2 <> Returned true /\ written r.1 = [])
  /\ (forall path f e, ToFile path f ∈ r.1 -> to_file w f = Err e ->
        r.2 = Returned false
        /\ last r.1 = Some (Print (SaveError e))
        /\ written r.1 = [f])
  /\ (r.2 = Returned false ->
        exists msg, last r.1 = Some (Print msg) /\ failure_message msg).
Proof.
  cbv zeta. repeat apply conj.
  - intros H. unfold create_true_solar_suitability_shapefile, body, prepare_inputs,
      load_shapefile. rewrite H. reflexivity.
  - intros e H He. unfold create_true_solar_suitability_shapefile, body, prepare_inputs,
      load_shapefile. rewrite H, He. reflexivity.
  - intros shp sheet e Hex Hshp Hgeo Hs He.
    destruct (load_workbook_fails w sheet e Hs He)
      as (before & sheet' & after & e' & Hnames & Hbefore & He' & Hwb).
    exists before, sheet', after, e'. repeat (split; [assumption|]).
    destruct (clean_shapefile_returns shp Hgeo) as [gdf Hclean].
    unfold create_true_solar_suitability_shapefile, body, prepare_inputs.
    rewrite (load_shapefile_loaded w shp Hex Hshp), bind_Next. cbv beta.
    rewrite Hclean, bind_Next. cbv beta. rewrite Hwb. reflexivity.
  - intros shp Hex Hshp Hgeo.
    unfold create_true_solar_suitability_shapefile, body, prepare_inputs.
    rewrite (load_shapefile_loaded w shp Hex Hshp), bind_Next. cbv beta.
    rewrite (clean_shapefile_raises shp Hgeo). reflexivity.
  - intros sheet e Hs He. apply not_prepared. intros inputs Hi.
    apply prepare_inputs_Next in Hi as (_ & _ & Hall & _).
    destruct (Hall sheet Hs) as [f Hf]. congruence.
  - intros shp Hshp Hn. apply not_prepared. intros inputs Hi.
    apply prepare_inputs_Next in Hi as (_ & (shp' & Hshp' & Hin) & _).
    rewrite Hshp in Hshp'. injection Hshp' as <-. contradiction.
  - intros f Hf Hn. apply not_prepared. intros inputs Hi.
    apply prepare_inputs_Next in Hi as (_ & _ & _ & H4 & _). apply Hn, H4, Hf.
  - intros f l Hf Hl Hn. apply not_prepared. intros inputs Hi.
    apply prepare_inputs_Next in Hi as (_ & _ & _ & _ & Hc & _). apply Hn, (Hc f Hf l Hl).
  - intros f l Hf Hl Hn. apply not_prepared. intros inputs Hi.
    apply prepare_inputs_Next in Hi as (_ & _ & _ & _ & _ & Hp). apply Hn, (Hp f Hf l Hl).
  - intros path f e Hin He. simpl in Hin.
    apply written_frame in Hin as (_ & inputs & Hi & Hf).
    destruct (body_saving w inputs f Hi Hf) as [Ht Hc].
    destruct (save_failed w f e He) as [Hst Hsc].
    simpl. rewrite Hc, Hsc, Ht, Hst. split; [reflexivity|]. split.
    + change [ToFile "true_solar_suitability.shp" f; Print (SaveError e)]
        with ([ToFile "true_solar_suitability.shp" f] ++ [Print (SaveError e)]).
      rewrite !app_assoc. apply last_snoc.
    + rewrite !written_app.
      rewrite (written_prints _ (prepare_inputs_prints w)).
      rewrite (written_prints _ (assemble_prints inputs)). reflexivity.
  - simpl. destruct (ctl (body w)) as [u|b|e] eqn:E; try discriminate.
    intros [= ->]. apply body_returns_after_message in E as [_ E]. exact E.
Qed.

Lemma failures_print_and_stop_witness :
  create_true_solar_suitability_shapefile no_shapefile_world
  = ([Print ShapefileNotFound], Returned false)
  /\ create_true_solar_suitability_shapefile unreadable_workbook_world
     = ([Print (ShapefileLoaded 3); Print (ExcelError OSError)], Returned false).
Proof.
  split.
  - apply (proj1 (failures_print_and_stop no_shapefile_world)). reflexivity.
  - destruct (proj1 (proj2 (proj2 (failures_print_and_stop unreadable_workbook_world)))
                sample_shapefile "All" OSError eq_refl eq_refl)
      as (before & sheet' & after & e' & _ & _ & He & Hr).
    + vm_compute. find_elem.
    + vm_compute. find_elem.
    + reflexivity.
    + injection He as <-. exact Hr.
Defined.

(** C7, the claim as stated fails twice. With the shapefile missing, the
    failure line goes to standard output and standard error stays empty.
    With an acronym sheet that lacks both expected columns and has no rows,
    the run does not abort: it writes the output and returns [True]. *)
Lemma failure_line_is_not_on_standard_error :
  (create_true_solar_suitability_shapefile no_shapefile_world
     = ([Print ShapefileNotFound], Returned false)
   /\ standard_error (create_true_solar_suitability_shapefile no_shapefile_world) = [])
  /\ (read_excel empty_acronym_world "GIS layer accronym" = Ok []
      /\ (create_true_solar_suitability_shapefile empty_acronym_world).2 = Returned true
      /\ length (written (create_true_solar_suitability_shapefile empty_acronym_world).1) = 1).
Proof. split; [split; reflexivity|]. split; [reflexivity|]. split; vm_compute; reflexivity. Qed.

(** ** Labels under the suffixes of a merge *)

Section Suffixes.

Import Text.

Lemma append_empty s : s +:+ "" = s.
Proof.
  induction s as [|c s IH]; [reflexivity|].
  change (String c (s +:+ "") = String c s). f_equal. exact IH.
Qed.

Lemma length_append s t : String.length (s +:+ t) = String.length s + String.length t.
Proof.
  induction s as [|c s IH]; [reflexivity|].
  change (S (String.length (s +:+ t)) = S (String.length s + String.length t)).
  f_equal. exact IH.
Qed.

Lemma drop_chars_append s t : drop_chars (String.length s) (s +:+ t) = t.
Proof.
  induction s as [|c s IH]; [destruct t; reflexivity|].
  change (drop_chars (String.length s) (s +:+ t) = t). exact IH.
Qed.

Lemma endswith_append s t : endswith t (s +:+ t) = true.
Proof.
  unfold endswith. rewrite length_append.
  replace (String.length s + String.length t - String.length t) with (String.length s) by lia.
  rewrite drop_chars_append, String.eqb_refl, andb_true_r.
  apply Nat.leb_le. lia.
Qed.

(** A label that does not end in the suffix is not a suffixed label. *)
Lemma not_suffixed s t l : endswith t l = false -> s +:+ t <> l.
Proof. intros H <-. rewrite endswith_append in H. discriminate. Qed.

End Suffixes.

(** ** Where the columns of a result come from *)

Section Origins.

Import Frame.

Lemma assign_elem l d vs (f : frame) c :
  c ∈ assign l d vs f -> c = Series l d vs \/ (c ∈ f /\ label c <> l).
Proof.
  unfold assign. destruct (has l f) eqn:Hhas.
  - intros (c0 & -> & Hc0)%list_elem_of_fmap.
    destruct (decide (label c0 = l)); [left; reflexivity | right; auto].
  - intros [H|H%list_elem_of_singleton]%elem_of_app; [|left; exact H].
    right. split; [exact H | eapply has_false; eassumption].
Qed.

Lemma assign_new l d vs (f : frame) : Series l d vs ∈ assign l d vs f.
Proof.
  unfold assign. destruct (has l f) eqn:Hhas.
  - apply bool_decide_eq_true in Hhas. apply list_elem_of_fmap in Hhas as (c & Hl & Hc).
    apply list_elem_of_fmap. exists c. split; [|exact Hc].
    rewrite decide_True by congruence. reflexivity.
  - apply elem_of_app. right. apply list_elem_of_singleton. reflexivity.
Qed.

Lemma assign_other l d vs (f : frame) c :
  c ∈ f -> label c <> l -> c ∈ assign l d vs f.
Proof.
  intros Hc Hl. unfold assign. destruct (has l f).
  - apply list_elem_of_fmap. exists c. split; [|exact Hc].
    rewrite decide_False by exact Hl. reflexivity.
  - apply elem_of_app. left. exact Hc.
Qed.

Lemma labels_assign l d vs (f : frame) l' :
  l' ∈ labels (assign l d vs f) <-> l' = l \/ l' ∈ labels f.
Proof.
  split.
  - intros (c & -> & [->|[Hc _]]%assign_elem)%list_elem_of_fmap;
      [left; reflexivity | right; apply list_elem_of_fmap_2, Hc].
  - intros [->|(c & -> & Hc)%list_elem_of_fmap].
    + apply (list_elem_of_fmap_2 label _ _ (assign_new l d vs f)).
    + destruct (decide (label c = l)) as [<-|Hl].
      * apply (list_elem_of_fmap_2 label _ _ (assign_new (label c) d vs f)).
      * apply list_elem_of_fmap_2, assign_other; assumption.
Qed.

Lemma drop_elem ls (f : frame) c : c ∈ drop ls f <-> c ∈ f /\ label c ∉ ls.
Proof. unfold drop. rewrite list_elem_of_filter. tauto. Qed.

Lemma loc_mask_elem {X} (mask : list bool) (xs : list X) x :
  x ∈ loc_mask mask xs -> x ∈ xs.
Proof.
  revert xs. induction mask as [|b mask IH]; intros [|y xs]; simpl;
    try (intros H; apply elem_of_nil in H; destruct H).
  destruct b.
  - intros [->|H]%elem_of_cons; apply elem_of_cons; [left; reflexivity | right; apply IH, H].
  - intros H. apply elem_of_cons. right. apply IH, H.
Qed.

Lemma drop_duplicated_elem (f : frame) c : c ∈ drop_duplicated f -> c ∈ f.
Proof. apply loc_mask_elem. Qed.

Lemma fill_label_elem l v (f : frame) c :
  c ∈ fill_label l v f ->
  c ∈ f \/ exists c0, c0 ∈ f /\ label c0 = l /\ c = fillna v c0.
Proof.
  intros (c0 & -> & Hc0)%list_elem_of_fmap.
  destruct (decide (label c0 = l)); [right; eauto | left; exact Hc0].
Qed.

Lemma labels_fill_label l v (f : frame) : labels (fill_label l v f) = labels f.
Proof.
  unfold labels, fill_label. rewrite <- list_fmap_compose.
  apply list_fmap_ext. intros _ c _. simpl. destruct (decide _); reflexivity.
Qed.

Lemma suffixed_cases overlap suffix l :
  (suffixed overlap suffix l = l /\ l ∉ overlap)
  \/ (suffixed overlap suffix l = l +:+ suffix /\ l ∈ overlap).
Proof.
  unfold suffixed. destruct (decide (l ∈ overlap)) as [H|H].
  - right. rewrite bool_decide_eq_true_2 by exact H. auto.
  - left. rewrite bool_decide_eq_false_2 by exact H. auto.
Qed.

Lemma overlap_labels_elem (left right' : frame) l :
  l ∈ overlap_labels left right' <-> l ∈ labels left /\ l ∈ labels right'.
Proof. unfold overlap_labels. rewrite list_elem_of_filter. tauto. Qed.

(** A column of a merge is a left column with its rows taken, or a right
    column other than the key with its rows taken; its label got the suffix
    exactly when both frames have it. *)
Lemma merge_left_elem ls rs on (left right merged : frame) c' :
  merge_left ls rs on left right = Ok merged ->
  c' ∈ merged ->
  exists lk rk c,
    key_column on left = Ok lk /\ key_column on right = Ok rk
    /\ let ix := merge_indexer (cells lk) (cells rk) in
       let overlap := overlap_labels left (drop [on] right) in
       (c ∈ left /\ c' = Series (suffixed overlap ls (label c)) (sdtype c)
                                (take_left ix (cells c)))
       \/ (c ∈ drop [on] right
           /\ c' = Series (suffixed overlap rs (label c)) (right_dtype ix (sdtype c))
                          (take_right ix (cells c))).
Proof.
  intros (lk & rk & Hl & Hr & ->)%merge_left_inv.
  intros [(c & -> & Hc)%list_elem_of_fmap|(c & -> & Hc)%list_elem_of_fmap]%elem_of_app;
    exists lk, rk, c; (split; [exact Hl|]); (split; [exact Hr|]); cbv zeta; auto.
Qed.

End Origins.

(** ** From the merged frame to the frame that is saved *)

Section Finalize.

Import Frame.

Lemma get_elem dup l (f : frame) c : get dup l f = Ok c -> c ∈ f /\ label c = l.
Proof.
  unfold get. destruct (columns_named l f) as [|c0 [|c1 cs]] eqn:E; try discriminate.
  intros [= <-]. apply columns_named_elem. rewrite E. apply elem_of_cons. left. reflexivity.
Qed.

Lemma drop_strict_elem l (f g : frame) c : drop_strict l f = Ok g -> c ∈ g -> c ∈ f.
Proof.
  unfold drop_strict. destruct (has l f); [|discriminate].
  intros [= <-] [H _]%drop_elem. exact H.
Qed.

(** The loop that collects the recommendation columns appends the columns
    it picks, none of them among the names it skips. *)
Lemma collect_rec_cols gdf cols recs0 ess0 :
  exists added,
    foldl (collect_rec_col gdf) (recs0, ess0) cols = (recs0 ++ added, ess0 ++ added)
    /\ forall l, l ∈ added -> l ∉ skip_cols gdf.
Proof.
  revert recs0 ess0. induction cols as [|col cols IH]; intros recs0 ess0; simpl.
  - exists []. rewrite !app_nil_r. split; [reflexivity|].
    intros l H. apply elem_of_nil in H. destruct H.
  - destruct (decide (col ∉ skip_cols gdf)) as [Hs|Hs];
      [rewrite (bool_decide_eq_true_2 _ Hs) | rewrite (bool_decide_eq_false_2 _ Hs)]; simpl.
    + destruct (bool_decide (col ∉ ess0)).
      * destruct (IH (recs0 ++ [col]) (ess0 ++ [col])) as (added & -> & Ha).
        exists (col :: added). rewrite <- !app_assoc. split; [reflexivity|].
        intros l [->|Hl]%elem_of_cons; [exact Hs | apply Ha, Hl].
      * apply IH.
    + apply IH.
Qed.

Context (G : string -> value -> Prop).

Lemma core_new_is_not_old entry pair :
  entry ∈ core_suitability_mapping -> pair ∈ suitability_mapping -> entry.2 <> pair.1.
Proof.
  assert (H : Forall (fun e => Forall (fun p : string * string => e.2 <> p.1)
                                      suitability_mapping) core_suitability_mapping).
  { apply (bool_decide_unpack _). vm_compute. exact I. }
  intros He Hp. rewrite Forall_forall in H. specialize (H _ He).
  rewrite Forall_forall in H. exact (H _ Hp).
Qed.

Lemma core_new_suitability entry :
  entry ∈ core_suitability_mapping -> entry.2 ∈ suitability_columns ->
  entry ∈ suitability_mapping.
Proof.
  assert (H : Forall (fun e : string * string =>
                        e.2 ∈ suitability_columns -> e ∈ suitability_mapping)
                     core_suitability_mapping).
  { apply (bool_decide_unpack _). vm_compute. exact I. }
  intros He. rewrite Forall_forall in H. exact (H _ He).
Qed.

Lemma suitability_old_is_not_new pair :
  pair ∈ suitability_mapping -> pair.1 ∉ "Has_CommSI" :: suitability_columns.
Proof.
  assert (H : Forall (fun p : string * string => p.1 ∉ "Has_CommSI" :: suitability_columns)
                     suitability_mapping).
  { apply (bool_decide_unpack _). vm_compute. exact I. }
  intros Hp. rewrite Forall_forall in H. exact (H _ Hp).
Qed.

Lemma apply_core_mapping_good entry st st' :
  entry ∈ core_suitability_mapping ->
  ctl (apply_core_mapping entry st) = Next st' ->
  suitability_good G st.1 st.2 -> suitability_good G st'.1 st'.2.
Proof.
  destruct entry as [old0 new0], st as [m ess]. intros Hentry. unfold apply_core_mapping.
  destruct (has old0 m); [|intros [= <-]; auto].
  intros H. apply ctl_bind_Next in H as (c0 & Hget%ctl_lift_Next & H).
  injection H as <-. apply get_elem in Hget as [Hc0 Hl0]. simpl.
  intros [I1 I2]. split.
  - intros c old new [->|[Hc Hne]]%assign_elem Hpair Hl.
    + exfalso. simpl in Hl. exact (core_new_is_not_old _ _ Hentry Hpair Hl).
    + eapply I1; eassumption.
  - intros c [->|[Hc Hne]]%assign_elem Hnew Hess.
    + simpl in *. apply (I1 c0 old0 new0 Hc0); [|exact Hl0].
      apply (core_new_suitability _ Hentry Hnew).
    + apply I2; [exact Hc | exact Hnew|].
      apply elem_of_app in Hess as [Hess|Hess%list_elem_of_singleton]; [exact Hess|].
      congruence.
Qed.

Lemma for_each_core_mapping_good entries st st' :
  (forall entry, entry ∈ entries -> entry ∈ core_suitability_mapping) ->
  ctl (for_each entries apply_core_mapping st) = Next st' ->
  suitability_good G st.1 st.2 -> suitability_good G st'.1 st'.2.
Proof.
  revert st. induction entries as [|entry entries IH]; intros st Hsub; simpl.
  - intros [= <-]. auto.
  - intros H. apply ctl_bind_Next in H as (st1 & Hstep & H). intros Hgood.
    apply (IH st1); [intros e He; apply Hsub, elem_of_cons; right; exact He | exact H|].
    eapply apply_core_mapping_good; [|exact Hstep | exact Hgood].
    apply Hsub, elem_of_cons. left. reflexivity.
Qed.

Lemma suitability_not_skipped gdf l : l ∈ suitability_columns -> l ∈ skip_cols gdf.
Proof.
  intros H. unfold skip_cols. apply elem_of_app. left. unfold suitability_columns in H.
  repeat (apply elem_of_cons in H as [->|H]; [find_elem|]).
  apply elem_of_nil in H. destruct H.
Qed.

(** The suitability fields of the frame before the fill are copies of the
    suitability columns of the merged frame. *)
Lemma finalize_good gdf merged_gdf final_gdf district_rec_cols :
  (forall l, l ∈ labels gdf -> l ∉ suitability_columns) ->
  (forall c old new, c ∈ merged_gdf -> (old, new) ∈ suitability_mapping ->
                     label c = old -> Forall (G new) (cells c)) ->
  ctl (finalize gdf merged_gdf) = Next (final_gdf, district_rec_cols) ->
  forall c, c ∈ final_gdf -> label c ∈ suitability_columns ->
            Forall (G (label c)) (cells c).
Proof.
  intros Hgdf Hmerged. unfold finalize. intros H.
  apply ctl_bind_Next in H as (m1 & Hdrop%ctl_lift_Next & H).
  apply ctl_bind_Next in H as (st & Hloop & H).
  apply ctl_bind_Next in H as ([m3 ess3] & Hflag & H).
  assert (Hgood0 : suitability_good G (drop_duplicated (drop ["District_Clean"] m1))
            ("geometry" :: filter (fun col => col ≠ "geometry" ∧ col ≠ "match_key") (labels gdf))).
  { split.
    - intros c old new Hc. apply (Hmerged c old new).
      apply drop_duplicated_elem, drop_elem in Hc as [Hc _].
      eapply drop_strict_elem; eassumption.
    - intros c _ Hnew [Hl|[_ Hl]%list_elem_of_filter]%elem_of_cons.
      + exfalso. rewrite Hl in Hnew. unfold suitability_columns in Hnew.
        repeat (apply elem_of_cons in Hnew as [Hnew|Hnew]; [discriminate|]).
        apply elem_of_nil in Hnew. exact Hnew.
      + destruct (Hgdf _ Hl Hnew). }
  apply (for_each_core_mapping_good _ _ _ (fun _ H => H) Hloop) in Hgood0.
  assert (Hgood3 : suitability_good G m3 ess3).
  { destruct st as [m2 ess2]. unfold add_community_flag in Hflag.
    destruct (has "Comm_SIP" m2); [|injection Hflag as <- <-; exact Hgood0].
    apply ctl_bind_Next in Hflag as (c0 & _ & Hflag). injection Hflag as <- <-.
    destruct Hgood0 as [I1 I2]. split.
    - intros c old new [->|[Hc _]]%assign_elem Hpair Hl; [|eapply I1; eassumption].
      exfalso. simpl in Hl. subst old. unfold suitability_mapping in Hpair.
      repeat (apply elem_of_cons in Hpair as [Hpair|Hpair]; [discriminate|]).
      apply elem_of_nil in Hpair. exact Hpair.
    - intros c [->|[Hc _]]%assign_elem Hnew Hess.
      + exfalso. simpl in Hnew. unfold suitability_columns in Hnew.
        repeat (apply elem_of_cons in Hnew as [Hnew|Hnew]; [discriminate|]).
        apply elem_of_nil in Hnew. exact Hnew.
      + apply I2; [exact Hc | exact Hnew|].
        apply elem_of_app in Hess as [Hess|Hess%list_elem_of_singleton]; [exact Hess|].
        exfalso. rewrite Hess in Hnew. unfold suitability_columns in Hnew.
        repeat (apply elem_of_cons in Hnew as [Hnew|Hnew]; [discriminate|]).
        apply elem_of_nil in Hnew. exact Hnew. }
  destruct (collect_rec_cols gdf (labels m3) [] ess3) as (added & Heq & Hadded).
  rewrite Heq in H.
  apply ctl_bind_Next in H as (final & Hsel%ctl_lift_Next & H). injection H as <- _.
  apply select_Ok in Hsel as [_ Hsel].
  intros c [Hc Hl]%Hsel Hnew. apply Hgood3; [exact Hc | exact Hnew|].
  apply elem_of_app in Hl as [Hl|Hl]; [exact Hl|].
  destruct (Hadded _ Hl). apply suitability_not_skipped, Hnew.
Qed.

End Finalize.

(** ** From the fill to the saved frame *)

Lemma check_duplicates_elem (filled out : frame) c :
  ctl (check_duplicates filled) = Next out -> c ∈ out -> c ∈ filled.
Proof.
  unfold check_duplicates. destruct (Frame.loc_mask _ _).
  - intros [= <-]. auto.
  - rewrite ctl_bind. simpl. intros [= <-]. apply drop_duplicated_elem.
Qed.

Lemma filled_suitability recs c :
  label c ∈ suitability_columns ->
  filled_cells recs c = Frame.fill_cell (Str "No Data") <$> cells c.
Proof.
  intros H. unfold filled_cells, fill_policy. rewrite bool_decide_eq_true_2 by exact H.
  reflexivity.
Qed.

Section Tail.

Context (G : string -> value -> Prop).

(** From the merged frame to the saved frame: a suitability field holds
   "No Data" or a good value of the merged suitability column. *)
Lemma assemble_tail_good gdf merged_gdf final_gdf recs filled out :
  (forall l, l ∈ Frame.labels gdf -> l ∉ suitability_columns) ->
  (forall c old new, c ∈ merged_gdf -> (old, new) ∈ suitability_mapping ->
                     label c = old -> Forall (G new) (cells c)) ->
  ctl (finalize gdf merged_gdf) = Next (final_gdf, recs) ->
  ctl (fill_missing recs final_gdf) = Next filled ->
  ctl (check_duplicates filled) = Next out ->
  forall c v, c ∈ out -> label c ∈ suitability_columns -> v ∈ cells c ->
              v = Str "No Data" \/ (G (label c) v /\ v <> NaN).
Proof.
  intros Hgdf Hmerged Hfin Hfill Hdup c' v' Hc' Hnew Hv'.
  apply (check_duplicates_elem _ _ _ Hdup) in Hc'.
  apply fill_missing_cells in Hfill.
  apply list_elem_of_lookup in Hc' as [i Hi].
  destruct (Forall2_lookup_r _ _ _ _ _ Hfill Hi) as (c & Hc & Hl & Hcells).
  rewrite Hl in *. rewrite Hcells, (filled_suitability _ _ Hnew) in Hv'.
  apply list_elem_of_fmap in Hv' as (v & -> & Hv).
  assert (Hgood : Forall (G (label c)) (cells c)).
  { eapply (finalize_good G); try eassumption. eapply list_elem_of_lookup_2, Hc. }
  rewrite Forall_forall in Hgood. destruct v; simpl; auto; right;
    (split; [apply Hgood, Hv | discriminate]).
Qed.

End Tail.

(** ** No match at all *)

Section ZeroMatch.

Import Frame.

Lemma suitability_old_not_boundary pair :
  pair ∈ suitability_mapping ->
  ~ boundary_label pair.1 /\ Text.endswith "_x" pair.1 = false
  /\ Text.endswith "_y" pair.1 = false.
Proof.
  assert (H : Forall (fun p : string * string =>
                        ~ (p.1 = "geometry" \/ p.1 = "match_key" \/ is_name_column p.1)
                        /\ Text.endswith "_x" p.1 = false
                        /\ Text.endswith "_y" p.1 = false) suitability_mapping).
  { apply (bool_decide_unpack _). vm_compute. exact I. }
  intros Hp. rewrite Forall_forall in H. exact (H _ Hp).
Qed.

Lemma suitability_new_not_boundary l :
  l ∈ suitability_columns -> ~ boundary_label l.
Proof.
  assert (H : Forall (fun l => ~ (l = "geometry" \/ l = "match_key" \/ is_name_column l))
                     suitability_columns).
  { apply (bool_decide_unpack _). vm_compute. exact I. }
  intros Hl. rewrite Forall_forall in H. exact (H _ Hl).
Qed.






End ZeroMatch.

Section NeverReturns.







End NeverReturns.



Lemma save_succeeded w f :
  to_file w f = Ok tt ->
  trace (save w f;; report f)
  = [ToFile "true_solar_suitability.shp" f; Print (Saved "true_solar_suitability.shp")]
    ++ trace (report f)
  /\ ctl (save w f;; report f) = ctl (report f).
Proof.
  intros H. unfold save, try, call_to_file. rewrite trace_bind, !ctl_bind. simpl.
  rewrite H. simpl. split; reflexivity.
Qed.

Lemma save_calls_to_file w f :
  ToFile "true_solar_suitability.shp" f ∈ trace (save w f;; report f).
Proof.
  rewrite trace_bind. apply elem_of_app. left.
  unfold save, try, call_to_file. rewrite !ctl_bind. simpl.
  destruct (to_file w f); simpl; apply elem_of_cons; left; reflexivity.
Qed.

Lemma prepare_inputs_boundary w gdf master_data match_column :
  ctl (prepare_inputs w) = Next (gdf, master_data, match_column) ->
  forall l, l ∈ Frame.labels gdf -> boundary_label l.
Proof.
  unfold prepare_inputs. intros H.
  apply ctl_bind_Next in H as (shp & _ & H).
  apply ctl_bind_Next in H as (gdf1 & [_ Hgdf]%clean_shapefile_Next & H).
  apply ctl_bind_Next in H as (wb & _ & H).
  apply ctl_bind_Next in H as (m & _ & H).
  apply ctl_bind_Next in H as (master & _ & H).
  assert (Hl1 : forall l, l ∈ Frame.labels gdf1 -> boundary_label l).
  { intros l (c & -> & Hc)%list_elem_of_fmap. apply Hgdf in Hc as [_ [Hc|Hc]].
    - left. exact Hc.
    - right. right. exact Hc. }
  unfold add_match_keys in H.
  apply ctl_bind_Next in H as (clean & _ & H).
  destruct (Frame.has "NAME_2" gdf1).
  - apply ctl_bind_Next in H as (names & _ & H). injection H as <- _ _.
    intros l [->|Hl]%labels_assign; [right; left; reflexivity | apply Hl1, Hl].
  - destruct (Frame.has "District" gdf1); [|rewrite ctl_bind in H; discriminate].
    apply ctl_bind_Next in H as (names & _ & H). injection H as <- _ _.
    intros l [->|Hl]%labels_assign; [right; left; reflexivity | apply Hl1, Hl].
Qed.

(** ** The short names of the acronym dictionary *)

(** A row writes an entry when both cells are there: under the key of its
    original name. *)
Lemma acronym_entry_lookup (m : gmap dict_key value) original gis_raw k :
  acronym_entry m (original, gis_raw) !! k
  = if decide (key_of original = Some k /\ gis_raw <> NaN) then Some gis_raw else m !! k.
Proof.
  unfold acronym_entry.
  destruct (decide (key_of original = Some k /\ gis_raw <> NaN)) as [[Hk Hr]|Hno].
  - rewrite Hk. destruct original; try discriminate;
      destruct gis_raw; try contradiction; simpl; apply lookup_insert_eq.
  - destruct (negb (Frame.isna original) && negb (Frame.isna gis_raw)) eqn:E; [|reflexivity].
    destruct (key_of original) as [k'|] eqn:Ek; [|reflexivity].
    rewrite lookup_insert_ne; [reflexivity|]. intros ->. apply Hno. split; [reflexivity|].
    apply andb_true_iff in E as [_ E]. intros ->. discriminate.
Qed.

Lemma acronym_entries_snoc (m : gmap dict_key value) rows row :
  foldl acronym_entry m (rows ++ [row]) = acronym_entry (foldl acronym_entry m rows) row.
Proof. rewrite foldl_app. reflexivity. Qed.

(** The entry under [k] is the short name of the last row whose original
    name has the key [k] and that has a short name. *)
Lemma acronym_entries_last (rows : list (value * value)) k v :
  foldl acronym_entry ∅ rows !! k = Some v
  <-> exists before after original,
        rows = before ++ (original, v) :: after
        /\ key_of original = Some k /\ v <> NaN
        /\ forall original' v', (original', v') ∈ after ->
                                key_of original' = Some k -> v' = NaN.
Proof.
  induction rows as [|[original gis_raw] rows IH] using rev_ind.
  - simpl. rewrite lookup_empty. split; [discriminate|].
    intros (before & after & o & H & _). destruct before; discriminate.
  - rewrite acronym_entries_snoc, acronym_entry_lookup.
    destruct (decide (key_of original = Some k /\ gis_raw <> NaN)) as [[Hk Hraw]|Hno].
    + split.
      * intros [= <-]. exists rows, [], original. split; [reflexivity|].
        split; [exact Hk|]. split; [exact Hraw|].
        intros o' v' Hv'. apply elem_of_nil in Hv'. destruct Hv'.
      * intros (before & after & o & Hrows & Ho & Hv & Hafter).
        destruct after as [|a after _] using rev_ind.
        -- apply app_inj_tail in Hrows as [_ [= _ ->]]. reflexivity.
        -- rewrite app_comm_cons, app_assoc in Hrows.
           apply app_inj_tail in Hrows as [_ <-].
           destruct Hraw. apply (Hafter original); [|exact Hk].
           rewrite elem_of_app, list_elem_of_singleton. auto.
    + rewrite IH. split.
      * intros (before & after & o & -> & Ho & Hv & Hafter).
        exists before, (after ++ [(original, gis_raw)]), o.
        split; [rewrite <- app_assoc; reflexivity|]. split; [exact Ho|]. split; [exact Hv|].
        intros o' v' [Hv'|Hv']%elem_of_app; [apply Hafter, Hv'|].
        apply list_elem_of_singleton in Hv'. injection Hv' as -> ->. intros Hk.
        destruct (decide (gis_raw = NaN)) as [E|E]; [exact E | destruct Hno; auto].
      * intros (before & after & o & Hrows & Ho & Hv & Hafter).
        destruct after as [|a after _] using rev_ind.
        -- apply app_inj_tail in Hrows as [_ [= -> ->]]. destruct Hno. auto.
        -- rewrite app_comm_cons, app_assoc in Hrows.
           apply app_inj_tail in Hrows as [-> _].
           exists before, after, o. split; [reflexivity|]. split; [exact Ho|].
           split; [exact Hv|].
           intros o' v' Hv'. apply Hafter. rewrite elem_of_app. auto.
Qed.

(** ** The renaming loop *)

(** [col[:10]] is the one thing that can fail in the loop. *)
Lemma new_col_name_cases m col :
  (exists new, new_col_name m col = Ok new
               /\ (is_text col = true \/ is_Some (acronym_lookup m col)))
  \/ (new_col_name m col = Err TypeError
      /\ is_text col = false /\ acronym_lookup m col = None).
Proof.
  unfold new_col_name.
  destruct (decide (col ∈ [Str "State"; Str "District"])) as [Hk|Hk].
  - rewrite (bool_decide_eq_true_2 _ Hk). left. exists col. split; [reflexivity|]. left.
    repeat (apply elem_of_cons in Hk as [->|Hk]; [reflexivity|]).
    apply elem_of_nil in Hk. destruct Hk.
  - rewrite (bool_decide_eq_false_2 _ Hk).
    destruct (acronym_lookup m col) as [v|]; [left; exists v; eauto|].
    destruct col; try (right; repeat split; reflexivity).
    left. eexists. split; [reflexivity | left; reflexivity].
Qed.

Lemma rename_line_ctl m col names :
  ctl (rename_line m col names)
  = match new_col_name m col with
    | Ok new => Next (names ++ [new])
    | Err e => Raise e
    end.
Proof.
  unfold rename_line. destruct (new_col_name m col) as [new|e]; [|reflexivity].
  rewrite ctl_lift_bind, ctl_bind.
  destruct (bool_decide _); [reflexivity|].
  destruct (acronym_lookup m col); [reflexivity|].
  destruct col; try reflexivity. destruct (_ <? _)%nat; reflexivity.
Qed.

Lemma rename_lines_return m cols names :
  Forall (fun col => is_text col = true \/ is_Some (acronym_lookup m col)) cols ->
  exists news, ctl (for_each cols (rename_line m) names) = Next news.
Proof.
  intros H. revert names. induction H as [|col cols Hcol _ IH]; intros names.
  - exists names. reflexivity.
  - cbn [for_each]. rewrite ctl_bind, rename_line_ctl.
    destruct (new_col_name_cases m col) as [(new & -> & _)|(_ & Hn & Hl)].
    + apply IH.
    + destruct Hcol as [Hcol|[v Hcol]]; congruence.
Qed.

Lemma rename_lines_raise m cols names :
  Exists (fun col => is_text col = false /\ acronym_lookup m col = None) cols ->
  ctl (for_each cols (rename_line m) names) = Raise TypeError.
Proof.
  intros H. revert names. induction cols as [|col cols IH]; intros names.
  - apply Exists_nil in H. destruct H.
  - cbn [for_each]. rewrite ctl_bind, rename_line_ctl.
    destruct (new_col_name_cases m col) as [(new & -> & Hc)|(-> & _)]; [|reflexivity].
    apply IH. apply Exists_cons in H as [[Ht Hl]|H]; [|exact H].
    destruct Hc as [Hc|[v Hc]]; congruence.
Qed.

Lemma rename_line_Next m col names0 names :
  ctl (rename_line m col names0) = Next names ->
  exists new, new_col_name m col = Ok new /\ names = names0 ++ [new].
Proof.
  unfold rename_line. intros H.
  apply ctl_bind_Next in H as (new & Hnew%ctl_lift_Next & H).
  apply ctl_bind_Next in H as (u & _ & H). injection H as <-. eauto.
Qed.

Lemma rename_lines_Next m cols names0 names :
  ctl (for_each cols (rename_line m) names0) = Next names ->
  exists news,
    names = names0 ++ news
    /\ Forall2 (fun col new => new_col_name m col = Ok new) cols news.
Proof.
  revert names0. induction cols as [|col cols IH]; intros names0; cbn [for_each].
  - intros [= <-]. exists []. rewrite app_nil_r. split; [reflexivity | constructor].
  - intros H. apply ctl_bind_Next in H as (names1 & (new & Hnew & ->)%rename_line_Next & H).
    apply IH in H as (news & -> & Hall). exists (new :: news).
    rewrite <- app_assoc. split; [reflexivity|]. constructor; assumption.
Qed.

(** The renamed sheet has the columns of the sheet, in their order, each
    under its new name. *)
Lemma rename_recommendations_Next m (recs renamed : sheet) :
  ctl (rename_recommendations m recs) = Next renamed ->
  Forall2 (fun c c' => new_col_name m (header c) = Ok (header c')
                       /\ ctype c' = ctype c /\ ccells c' = ccells c)
          recs renamed.
Proof.
  unfold rename_recommendations. intros H.
  apply ctl_bind_Next in H as (names & (news & -> & Hall)%rename_lines_Next & H).
  injection H as <-. simpl. unfold Sheet.headers, Sheet.relabel in *.
  clear -Hall. revert news Hall. induction recs as [|c recs IH]; intros news Hall.
  - apply Forall2_nil_inv_l in Hall. subst news. constructor.
  - rewrite fmap_cons in Hall. apply Forall2_cons_inv_l in Hall as (new & news' & Hn & Hall & ->).
    simpl. constructor; [auto | apply IH, Hall].
Qed.

Lemma text_columns_elem (s : sheet) c :
  c ∈ Sheet.text_columns s <->
  exists c', c' ∈ s /\ header c' = Str (label c) /\ ctype c' = sdtype c /\ ccells c' = cells c.
Proof.
  unfold Sheet.text_columns. rewrite list_elem_of_omap. split.
  - intros (c' & Hc' & H). exists c'. split; [exact Hc'|].
    destruct (header c') as [|l| | |]; try discriminate. injection H as <-. auto.
  - intros (c' & Hc' & Hh & Ht & Hcs). exists c'. split; [exact Hc'|].
    rewrite Hh, Ht, Hcs. destruct c. reflexivity.
Qed.

Lemma acronym_entries_range (rows : list (value * value)) (m : gmap dict_key value) k v :
  foldl acronym_entry m rows !! k = Some v -> m !! k = Some v \/ v ∈ rows.*2.
Proof.
  revert m. induction rows as [|[original gis_raw] rows IH]; intros m; [left; assumption|].
  simpl. intros H. apply IH in H as [H|H]; [|right; apply elem_of_cons; right; exact H].
  destruct (negb (Frame.isna original) && negb (Frame.isna gis_raw)); [|left; exact H].
  destruct (key_of original) as [s|]; [|left; exact H].
  destruct (decide (s = k)) as [->|Hne].
  - rewrite lookup_insert_eq in H. injection H as ->. right. apply elem_of_cons. left.
    reflexivity.
  - rewrite lookup_insert_ne in H by exact Hne. left. exact H.
Qed.

Lemma build_acronym_mapping_range gis_acronym m col v :
  build_acronym_mapping gis_acronym = Ok m -> m !! col = Some v ->
  exists c, c ∈ gis_acronym /\ label c = "GIS Raw data layer" /\ v ∈ cells c.
Proof.
  unfold build_acronym_mapping.
  destruct (decide (Frame.nrows gis_acronym = 0)).
  { intros [= <-]. rewrite lookup_empty. discriminate. }
  destruct (Frame.get ValueError "Original" gis_acronym) as [original|]; [|discriminate].
  destruct (Frame.get ValueError "GIS Raw data layer" gis_acronym) as [gis_raw|] eqn:Hg;
    [|discriminate].
  simpl. intros [= <-] H. apply acronym_entries_range in H as [H|H].
  { rewrite lookup_empty in H. discriminate. }
  apply get_elem in Hg as [Hc Hl]. exists gis_raw. split; [exact Hc|]. split; [exact Hl|].
  apply list_elem_of_fmap in H as ([a b] & -> & Hin). apply elem_of_zip_r in Hin. exact Hin.
Qed.

(** ** Where the labels of the saved frame come from *)

Section LabelInvariant.

Import Frame.

Context (P : string -> Prop).
Hypothesis P_suffix : forall l s, s ∈ merge_suffixes -> P (l +:+ s).
Hypothesis P_pipeline : forall l, l ∈ pipeline_labels -> P l.
Hypothesis P_name : forall l, is_name_column l -> P l.
Hypothesis P_short : forall l, Text.len l <= 10 -> P l.

Lemma select_ok ls (f g : frame) :
  select ls f = Ok g -> labels_ok P f -> labels_ok P g.
Proof.
  intros [_ H]%select_Ok Hf l (c & -> & [Hc _]%H)%list_elem_of_fmap.
  apply Hf, list_elem_of_fmap_2, Hc.
Qed.

Lemma select_ok_requested ls (f g : frame) :
  select ls f = Ok g -> (forall l, l ∈ ls -> P l) -> labels_ok P g.
Proof.
  intros [_ H]%select_Ok Hls l (c & -> & [_ Hc]%H)%list_elem_of_fmap. apply Hls, Hc.
Qed.

Lemma assign_ok l d vs (f : frame) :
  P l -> labels_ok P f -> labels_ok P (assign l d vs f).
Proof. intros Hl Hf l' [->|H]%labels_assign; [exact Hl | apply Hf, H]. Qed.

Lemma drop_ok ls (f : frame) : labels_ok P f -> labels_ok P (drop ls f).
Proof.
  intros Hf l (c & -> & [Hc _]%drop_elem)%list_elem_of_fmap.
  apply Hf, list_elem_of_fmap_2, Hc.
Qed.

Lemma drop_duplicated_ok (f : frame) : labels_ok P f -> labels_ok P (drop_duplicated f).
Proof.
  intros Hf l (c & -> & Hc%drop_duplicated_elem)%list_elem_of_fmap.
  apply Hf, list_elem_of_fmap_2, Hc.
Qed.

Lemma fill_label_ok l v (f : frame) : labels_ok P f -> labels_ok P (fill_label l v f).
Proof. intros Hf l'. rewrite labels_fill_label. apply Hf. Qed.

Lemma rename_one_ok old new (f : frame) :
  P new -> labels_ok P f -> labels_ok P (rename_one old new f).
Proof.
  intros Hnew Hf l (c' & -> & (c & -> & Hc)%list_elem_of_fmap)%list_elem_of_fmap. simpl.
  destruct (decide (label c = old)); [exact Hnew | apply Hf, list_elem_of_fmap_2, Hc].
Qed.

Lemma suffixed_ok overlap s l :
  s = "" \/ s ∈ merge_suffixes -> P l -> P (suffixed overlap s l).
Proof.
  intros Hs Hl. destruct (suffixed_cases overlap s l) as [[-> _]|[-> _]]; [exact Hl|].
  destruct Hs as [->|Hs]; [rewrite append_empty; exact Hl | apply P_suffix, Hs].
Qed.

Lemma merge_left_ok ls rs on (left right merged : frame) :
  ls = "" \/ ls ∈ merge_suffixes -> rs = "" \/ rs ∈ merge_suffixes ->
  merge_left ls rs on left right = Ok merged ->
  labels_ok P left -> labels_ok P right -> labels_ok P merged.
Proof.
  intros Hls Hrs Hm Hl Hr l (c' & -> & Hc')%list_elem_of_fmap.
  destruct (merge_left_elem _ _ _ _ _ _ _ Hm Hc') as (lk & rk & c & _ & _ & Horigin).
  cbv zeta in Horigin. destruct Horigin as [[Hc ->]|[[Hc _]%drop_elem ->]]; simpl.
  - apply suffixed_ok; [exact Hls | apply Hl, list_elem_of_fmap_2, Hc].
  - apply suffixed_ok; [exact Hrs | apply Hr, list_elem_of_fmap_2, Hc].
Qed.

Lemma district_clean_ok (f g : frame) :
  district_clean f = Ok g -> labels_ok P f -> labels_ok P g.
Proof.
  unfold district_clean.
  destruct (get AttributeError "District" f) as [c|]; [|discriminate]. simpl.
  destruct (str_title_strip c) as [vs|]; [|discriminate]. simpl. intros [= <-].
  apply assign_ok, P_pipeline. unfold pipeline_labels. find_elem.
Qed.

Ltac pipeline_label := apply P_pipeline; unfold pipeline_labels; find_elem.
Ltac suffix_ok :=
  first [ left; reflexivity | right; unfold merge_suffixes; find_elem ].

Lemma set_labels_ok names (f g : frame) :
  set_labels names f = Ok g -> (forall l, l ∈ names -> P l) -> labels_ok P g.
Proof. intros [_ H]%set_labels_Ok Hn l Hl. rewrite H in Hl. apply Hn, Hl. Qed.

Lemma merge_recommendations_ok master recs flag master' :
  ctl (merge_recommendations master recs flag) = Next master' ->
  labels_ok P master -> labels_ok P recs -> labels_ok P master'.
Proof.
  unfold merge_recommendations. intros H Hm Hr.
  apply ctl_bind_Next in H as (m1 & H1%ctl_lift_Next & H).
  apply ctl_bind_Next in H as (r1 & H2%ctl_lift_Next & H).
  apply ctl_bind_Next in H as (m2 & H3%ctl_lift_Next & H).
  apply ctl_bind_Next in H as (u & _ & H).
  assert (Hm2 : labels_ok P m2).
  { eapply (merge_left_ok "" "_district_rec"); [suffix_ok | suffix_ok | exact H3 | |];
      eapply district_clean_ok; eassumption. }
  destruct (filter _ (labels m2)); injection H as <-; [exact Hm2 | apply drop_ok, Hm2].
Qed.

Lemma merge_community_ok master community master' :
  ctl (merge_community master community) = Next master' ->
  labels_ok P master -> labels_ok P master'.
Proof.
  unfold merge_community. intros H Hm.
  apply ctl_bind_Next in H as (c1 & H1%ctl_lift_Next & H).
  apply ctl_bind_Next in H as (st & _ & H).
  apply ctl_bind_Next in H as (vs & _ & H).
  apply ctl_bind_Next in H as (c2 & _ & H).
  apply ctl_bind_Next in H as (right & Hsel%ctl_lift_Next & H).
  apply ctl_bind_Next in H as (m1 & Hmerge%ctl_lift_Next & H).
  apply ctl_bind_Next in H as (u & _ & H). injection H as <-.
  apply fill_label_ok.
  eapply (merge_left_ok "_x" "_y"); [suffix_ok | suffix_ok | exact Hmerge | exact Hm|].
  eapply select_ok_requested; [exact Hsel|].
  intros l Hl. apply P_pipeline. unfold pipeline_labels.
  repeat (apply elem_of_cons in Hl as [->|Hl]; [find_elem|]).
  apply elem_of_nil in Hl. destruct Hl.
Qed.

Lemma merge_potential_ok master potential master' :
  ctl (merge_potential master potential) = Next master' ->
  labels_ok P master -> labels_ok P master'.
Proof.
  unfold merge_potential. intros H Hm.
  apply ctl_bind_Next in H as (c1 & _ & H).
  apply ctl_bind_Next in H as (c2 & _ & H).
  apply ctl_bind_Next in H as (right & Hsel%ctl_lift_Next & H).
  apply ctl_lift_Next in H.
  eapply (merge_left_ok "_x" "_y"); [suffix_ok | suffix_ok | exact H | exact Hm|].
  eapply select_ok_requested; [exact Hsel|].
  intros l Hl. apply P_pipeline. unfold pipeline_labels.
  repeat (apply elem_of_cons in Hl as [->|Hl]; [find_elem|]).
  apply elem_of_nil in Hl. destruct Hl.
Qed.

(** The labels of the renamed recommendation sheet: a key column, a short
    name of the acronym dictionary, or at most ten characters. *)
Lemma rename_recommendations_ok m recs renamed :
  (forall k s, m !! k = Some (Str s) -> P s) ->
  ctl (rename_recommendations m recs) = Next renamed ->
  labels_ok P (Sheet.text_columns renamed).
Proof.
  intros Hm H%rename_recommendations_Next.
  intros l (c & -> & (c' & Hc' & Hh & _)%text_columns_elem)%list_elem_of_fmap.
  apply list_elem_of_lookup in Hc' as [i Hi].
  destruct (Forall2_lookup_r _ _ _ _ _ H Hi) as (c0 & _ & Hnew & _).
  rewrite Hh in Hnew. clear -Hm Hnew P_pipeline P_short.
  unfold new_col_name in Hnew.
  destruct (decide (header c0 ∈ [Str "State"; Str "District"])) as [Hk|Hk].
  - rewrite (bool_decide_eq_true_2 _ Hk) in Hnew. injection Hnew as Hnew.
    rewrite Hnew in Hk. apply P_pipeline. unfold pipeline_labels.
    repeat (apply elem_of_cons in Hk as [Hk|Hk]; [injection Hk as ->; find_elem|]).
    apply elem_of_nil in Hk. destruct Hk.
  - rewrite (bool_decide_eq_false_2 _ Hk) in Hnew.
    destruct (acronym_lookup m (header c0)) as [v|] eqn:E.
    + injection Hnew as ->. unfold acronym_lookup in E.
      destruct (key_of (header c0)) as [k|]; [|discriminate]. simpl in E. eapply Hm, E.
    + destruct (header c0) as [|s| | |]; try discriminate. injection Hnew as <-.
      exact (P_short _ (take_chars_length 10 s)).
Qed.

Lemma build_master_ok wb m master :
  (forall k s, m !! k = Some (Str s) -> P s) ->
  ctl (build_master wb m) = Next master -> labels_ok P master.
Proof.
  intros Hm H. unfold build_master in H.
  apply ctl_bind_Next in H as (recs & Hren & H).
  apply ctl_bind_Next in H as (m0 & Hset%ctl_lift_Next & H).
  apply ctl_bind_Next in H as (m1 & Hrec & H).
  apply ctl_bind_Next in H as (m2 & Hcom & H).
  eapply merge_potential_ok; [exact H|].
  eapply merge_community_ok; [exact Hcom|].
  eapply merge_recommendations_ok; [exact Hrec | |].
  - eapply set_labels_ok; [exact Hset|]. intros l Hl. apply P_pipeline.
    unfold pipeline_labels.
    repeat (apply elem_of_cons in Hl as [->|Hl]; [find_elem|]).
    apply elem_of_nil in Hl. destruct Hl.
  - eapply rename_recommendations_ok; eassumption.
Qed.

Lemma add_match_keys_ok gdf master gdf' master' col :
  ctl (add_match_keys gdf master) = Next (gdf', master', col) ->
  labels_ok P gdf -> labels_ok P master -> labels_ok P gdf' /\ labels_ok P master'.
Proof.
  unfold add_match_keys. intros H Hg Hm.
  apply ctl_bind_Next in H as (clean & _ & H).
  assert (Hk : P "match_key") by pipeline_label.
  destruct (has "NAME_2" gdf).
  - apply ctl_bind_Next in H as (names & _ & H). injection H as <- <- _.
    split; apply assign_ok; assumption.
  - destruct (has "District" gdf); [|rewrite ctl_bind in H; discriminate].
    apply ctl_bind_Next in H as (names & _ & H). injection H as <- <- _.
    split; apply assign_ok; assumption.
Qed.

Lemma apply_core_mapping_ok entry st st' :
  entry ∈ core_suitability_mapping ->
  ctl (apply_core_mapping entry st) = Next st' -> labels_ok P st.1 -> labels_ok P st'.1.
Proof.
  destruct entry as [old new], st as [m ess]. intros He. unfold apply_core_mapping.
  destruct (has old m); [|intros [= <-]; auto].
  intros H. apply ctl_bind_Next in H as (c0 & _ & H). injection H as <-. simpl.
  apply assign_ok. apply P_pipeline. unfold core_suitability_mapping in He.
  unfold pipeline_labels.
  repeat (apply elem_of_cons in He as [He|He]; [injection He as <- <-; find_elem|]).
  apply elem_of_nil in He. destruct He.
Qed.

Lemma for_each_core_mapping_ok entries st st' :
  (forall entry, entry ∈ entries -> entry ∈ core_suitability_mapping) ->
  ctl (for_each entries apply_core_mapping st) = Next st' ->
  labels_ok P st.1 -> labels_ok P st'.1.
Proof.
  revert st. induction entries as [|entry entries IH]; intros st Hsub; simpl.
  - intros [= <-]. auto.
  - intros H. apply ctl_bind_Next in H as (st1 & Hstep & H). intros Hok.
    apply (IH st1); [intros e He; apply Hsub, elem_of_cons; right; exact He | exact H|].
    eapply apply_core_mapping_ok; [|exact Hstep | exact Hok].
    apply Hsub, elem_of_cons. left. reflexivity.
Qed.

Lemma finalize_ok gdf merged final recs :
  ctl (finalize gdf merged) = Next (final, recs) -> labels_ok P merged -> labels_ok P final.
Proof.
  unfold finalize. intros H Hm.
  apply ctl_bind_Next in H as (m1 & Hdrop%ctl_lift_Next & H).
  apply ctl_bind_Next in H as (st & Hloop & H).
  apply ctl_bind_Next in H as ([m3 ess3] & Hflag & H).
  assert (H1 : labels_ok P m1).
  { intros l (c & -> & Hc)%list_elem_of_fmap. apply Hm, list_elem_of_fmap_2.
    eapply drop_strict_elem; eassumption. }
  assert (H2 : labels_ok P st.1).
  { eapply (for_each_core_mapping_ok _ _ _ (fun _ H => H) Hloop).
    simpl. apply drop_duplicated_ok, drop_ok, H1. }
  assert (H3 : labels_ok P m3).
  { destruct st as [m2 ess2]. unfold add_community_flag in Hflag.
    destruct (has "Comm_SIP" m2); [|injection Hflag as <- _; exact H2].
    apply ctl_bind_Next in Hflag as (c0 & _ & Hflag). injection Hflag as <- _.
    apply assign_ok; [pipeline_label | exact H2]. }
  destruct (foldl (collect_rec_col gdf) ([], ess3) (labels m3)) as [recs' ess'].
  apply ctl_bind_Next in H as (final' & Hsel%ctl_lift_Next & H). injection H as <- _.
  eapply select_ok; eassumption.
Qed.

Lemma fill_missing_ok recs final filled :
  ctl (fill_missing recs final) = Next filled -> labels_ok P final -> labels_ok P filled.
Proof.
  intros H%fill_missing_cells Hf l (c' & -> & Hc')%list_elem_of_fmap.
  apply list_elem_of_lookup in Hc' as [i Hi].
  destruct (Forall2_lookup_r _ _ _ _ _ H Hi) as (c & Hc & -> & _).
  eapply Hf, list_elem_of_fmap_2, list_elem_of_lookup_2, Hc.
Qed.

Lemma assemble_ok gdf master col final :
  ctl (assemble (gdf, master, col)) = Next final ->
  labels_ok P gdf -> labels_ok P master -> labels_ok P final.
Proof.
  unfold assemble. intros H Hg Hm.
  apply ctl_bind_Next in H as (merged & Hmg & H).
  apply ctl_bind_Next in H as ([final0 recs] & Hfin & H).
  apply ctl_bind_Next in H as (filled & Hfill & Hdup).
  assert (Hmerged : labels_ok P merged).
  { unfold merge_geometry in Hmg.
    apply ctl_bind_Next in Hmg as (u & _ & Hmg).
    apply ctl_bind_Next in Hmg as (merged' & Hmerge%ctl_lift_Next & Hmg).
    apply ctl_bind_Next in Hmg as (a & _ & Hmg).
    apply ctl_bind_Next in Hmg as (u1 & _ & Hmg).
    apply ctl_bind_Next in Hmg as (u2 & _ & Hmg). injection Hmg as <-.
    eapply (merge_left_ok "_x" "_y"); [suffix_ok | suffix_ok | exact Hmerge | exact Hg | exact Hm]. }
  intros l (c & -> & Hc)%list_elem_of_fmap.
  apply (check_duplicates_elem _ _ _ Hdup) in Hc.
  eapply fill_missing_ok; [exact Hfill | | apply list_elem_of_fmap_2, Hc].
  eapply finalize_ok; eassumption.
Qed.

Lemma prepare_inputs_ok w gdf master col :
  (forall f c s, read_excel w "GIS layer accronym" = Ok f -> c ∈ f ->
                 label c = "GIS Raw data layer" -> Str s ∈ cells c -> P s) ->
  ctl (prepare_inputs w) = Next (gdf, master, col) ->
  labels_ok P gdf /\ labels_ok P master.
Proof.
  intros Hacr H. unfold prepare_inputs in H.
  apply ctl_bind_Next in H as (shp & _ & H).
  apply ctl_bind_Next in H as (gdf1 & [_ Hgdf]%clean_shapefile_Next & H).
  apply ctl_bind_Next in H as (wb & (_ & _ & _ & Hr & _)%load_workbook_Next & H).
  apply ctl_bind_Next in H as (m & Hmap%ctl_lift_Next & H).
  apply ctl_bind_Next in H as (master0 & Hbuild & H).
  eapply add_match_keys_ok; [exact H | |].
  - intros l (c & -> & Hc)%list_elem_of_fmap. apply Hgdf in Hc as [_ [Hc|Hc]].
    + rewrite Hc. pipeline_label.
    + apply P_name, Hc.
  - eapply build_master_ok; [|exact Hbuild]. intros col0 s Hs.
    destruct (build_acronym_mapping_range _ _ _ _ Hmap Hs) as (c & Hc & Hl & Hv).
    eapply Hacr; eassumption.
Qed.

End LabelInvariant.

(** ** The community count of the report *)

Ltac no_community_count :=
  repeat first [ emits_step | intros ?; discriminate ].

Lemma prepare_inputs_no_count w : emits not_community_count (prepare_inputs w).
Proof.
  unfold prepare_inputs, load_shapefile, clean_shapefile, load_workbook,
    build_master, rename_recommendations, rename_line, merge_recommendations,
    merge_community, merge_potential, add_match_keys.
  no_community_count.
Qed.

Lemma assemble_no_count inputs : emits not_community_count (assemble inputs).
Proof.
  destruct inputs as [[gdf master] col].
  unfold assemble, merge_geometry, finalize, apply_core_mapping, add_community_flag,
    fill_missing, fill_rec_col, check_duplicates.
  no_community_count.
Qed.

Lemma save_no_count w f : emits not_community_count (save w f).
Proof. unfold save. no_community_count. Qed.

Lemma report_no_count final_gdf :
  "Has_CommSIP" ∉ Frame.labels final_gdf -> emits not_community_count (report final_gdf).
Proof.
  intros H. unfold report, report_objective, Frame.has.
  rewrite (bool_decide_eq_false_2 _ H). no_community_count.
Qed.

Section HasCommSIP.

Lemma P_suffix l s : s ∈ merge_suffixes -> not_Has_CommSIP (l +:+ s).
Proof.
  unfold merge_suffixes. intros Hs.
  repeat (apply elem_of_cons in Hs as [->|Hs]; [apply not_suffixed; reflexivity|]).
  apply elem_of_nil in Hs. destruct Hs.
Qed.

Lemma P_pipeline l : l ∈ pipeline_labels -> not_Has_CommSIP l.
Proof.
  assert (H : Forall (fun l => l <> "Has_CommSIP") pipeline_labels).
  { apply (bool_decide_unpack _). vm_compute. exact I. }
  rewrite Forall_forall in H. apply H.
Qed.

Lemma P_name l : is_name_column l -> not_Has_CommSIP l.
Proof. intros H ->. exact H. Qed.

Lemma P_short l : Text.len l <= 10 -> not_Has_CommSIP l.
Proof. intros H ->. vm_compute in H. lia. Qed.

(** The frame a run saves has no column of that name, unless the acronym
    sheet has it as a short name. *)
Lemma saved_frame_has_no_Has_CommSIP w path f :
  (forall a c, read_excel w "GIS layer accronym" = Ok a -> c ∈ a ->
               label c = "GIS Raw data layer" -> Str "Has_CommSIP" ∉ cells c) ->
  ToFile path f ∈ trace (body w) -> "Has_CommSIP" ∉ Frame.labels f.
Proof.
  intros Hacr (_ & [[gdf master] col] & Hprep & Hasm)%written_frame Hin.
  destruct (prepare_inputs_ok not_Has_CommSIP P_suffix P_pipeline P_name P_short w gdf master col)
    as [Hg Hm]; [|exact Hprep|].
  - intros a c s Ha Hc Hl Hs ->. exact (Hacr a c Ha Hc Hl Hs).
  - exact (assemble_ok not_Has_CommSIP P_suffix P_pipeline _ _ _ _ Hasm Hg Hm _ Hin eq_refl).
Qed.

End HasCommSIP.

(** C10 (as amended). In every run whose acronym sheet does not give
    "Has_CommSIP" as a short name, the frame that is saved and reported on
    has no column named "Has_CommSIP", so the branch of the report that
    tests for that name is not taken and the community count is never
    printed. *)
Theorem community_count_is_never_printed (w : world) :
  (forall a c, read_excel w "GIS layer accronym" = Ok a -> c ∈ a ->
               label c = "GIS Raw data layer" -> Str "Has_CommSIP" ∉ cells c) ->
  let r := create_true_solar_suitability_shapefile w in
  (forall path f, ToFile path f ∈ r.1 -> "Has_CommSIP" ∉ Frame.labels f)
  /\ (forall total, Print (CommunityDistricts total) ∉ r.1).
Proof.
  intros Hacr. cbv zeta. simpl. split.
  - intros path f. apply saved_frame_has_no_Has_CommSIP, Hacr.
  - intros total H. unfold body in H.
    apply elem_trace_bind in H as [H|(inputs & Hprep & H)].
    { exact (prepare_inputs_no_count w _ H total eq_refl). }
    apply elem_trace_bind in H as [H|(final & Hasm & H)].
    { exact (assemble_no_count inputs _ H total eq_refl). }
    apply elem_trace_bind in H as [H|(u & _ & H)].
    { exact (save_no_count w final _ H total eq_refl). }
    assert (Hno : "Has_CommSIP" ∉ Frame.labels final).
    { apply (saved_frame_has_no_Has_CommSIP w "true_solar_suitability.shp"); [exact Hacr|].
      destruct (body_saving w inputs final Hprep Hasm) as [Ht _]. rewrite Ht.
      rewrite !elem_of_app. right. right. apply save_calls_to_file. }
    exact (report_no_count final Hno _ H total eq_refl).
Qed.

Lemma community_count_is_never_printed_witness :
  (forall path f,
     ToFile path f ∈ (create_true_solar_suitability_shapefile sample_world).1 ->
     "Has_CommSIP" ∉ Frame.labels f)
  /\ (forall total,
       Print (CommunityDistricts total)
         ∉ (create_true_solar_suitability_shapefile sample_world).1).
Proof.
  apply (community_count_is_never_printed sample_world).
  intros a c [= <-] Hc Hl. unfold sample_acronym in Hc.
  repeat (apply elem_of_cons in Hc as [->|Hc]; [try discriminate|]).
  - simpl. intros H. repeat (apply elem_of_cons in H as [H|H]; [discriminate|]).
    apply elem_of_nil in H. exact H.
  - apply elem_of_nil in Hc. destruct Hc.
Defined.

(** C10, the claim as stated fails: the acronym sheet gives "Has_CommSIP" as
    the short name of a recommendation column, the saved frame has a column
    of that name, and the report prints the community count. *)
Lemma community_count_can_be_printed :
  exists f : frame,
    ToFile "true_solar_suitability.shp" f
      ∈ (create_true_solar_suitability_shapefile flag_acronym_world).1
    /\ "Has_CommSIP" ∈ Frame.labels f
    /\ Print (CommunityDistricts (Num 19))
         ∈ (create_true_solar_suitability_shapefile flag_acronym_world).1
    /\ (create_true_solar_suitability_shapefile flag_acronym_world).2 = Returned true.
Proof.
  eexists. split; [vm_compute; find_elem|].
  split; [vm_compute; find_elem|]. split; [vm_compute; find_elem | reflexivity].
Qed.

(** ** Where the values of the suitability fields come from *)

Section Provenance.

Import Frame.

Lemma take_left_Forall (Q : value -> Prop) ix vs :
  Q NaN -> Forall Q vs -> Forall Q (take_left ix vs).
Proof.
  intros HN Hvs. unfold take_left. apply Forall_fmap, Forall_forall. intros p _. simpl.
  destruct (vs !! p.1) as [v|] eqn:E; simpl; [|exact HN].
  rewrite Forall_forall in Hvs. eapply Hvs, list_elem_of_lookup_2, E.
Qed.

Lemma take_right_Forall (Q : value -> Prop) ix vs :
  Q NaN -> Forall Q vs -> Forall Q (take_right ix vs).
Proof.
  intros HN Hvs. unfold take_right. apply Forall_fmap, Forall_forall. intros p _. simpl.
  destruct p.2 as [j|]; [|exact HN].
  destruct (vs !! j) as [v|] eqn:E; simpl; [|exact HN].
  rewrite Forall_forall in Hvs. eapply Hvs, list_elem_of_lookup_2, E.
Qed.

(** A column of the merge whose label carries no suffix is a left column
    of that label, or a right column of that label which the left frame
    does not have. *)
Lemma merge_left_column ls rs on (left right merged : frame) c' :
  merge_left ls rs on left right = Ok merged -> c' ∈ merged ->
  ls = "" \/ Text.endswith ls (label c') = false ->
  Text.endswith rs (label c') = false ->
  exists ix c,
    label c = label c'
    /\ ((c ∈ left /\ (ls = "" \/ label c' ∉ labels (drop [on] right))
         /\ cells c' = take_left ix (cells c))
        \/ (c ∈ drop [on] right /\ (label c' ∉ labels left)
            /\ cells c' = take_right ix (cells c))).
Proof.
  intros Hm Hc' Hls Hrs.
  destruct (merge_left_elem _ _ _ _ _ _ _ Hm Hc') as (lk & rk & c & _ & _ & Horigin).
  cbv zeta in Horigin. exists (merge_indexer (cells lk) (cells rk)), c.
  destruct Horigin as [[Hc ->]|[Hc ->]]; simpl in *.
  - destruct (suffixed_cases (overlap_labels left (drop [on] right)) ls (label c))
      as [[He Hno]|[He _]]; rewrite He in *.
    + split; [reflexivity|]. left. split; [exact Hc|]. split; [|reflexivity].
      right. intros Hl. apply Hno, overlap_labels_elem. split; [|exact Hl].
      apply list_elem_of_fmap_2, Hc.
    + destruct Hls as [->|Hls]; [rewrite append_empty; split; [reflexivity | left; auto]|].
      rewrite endswith_append in Hls. discriminate.
  - destruct (suffixed_cases (overlap_labels left (drop [on] right)) rs (label c))
      as [[He Hno]|[He _]]; rewrite He in *.
    + split; [reflexivity|]. right. split; [exact Hc|]. split; [|reflexivity].
      intros Hl. apply Hno, overlap_labels_elem. split; [exact Hl|].
      apply list_elem_of_fmap_2, Hc.
    + rewrite endswith_append in Hrs. discriminate.
Qed.

(** A label of the left frame is a label of the merge when the left suffix
    is empty or the right frame does not have it. *)
Lemma merge_left_keeps_label ls rs on (left right merged : frame) l :
  merge_left ls rs on left right = Ok merged ->
  l ∈ labels left -> ls = "" \/ l ∉ labels (drop [on] right) ->
  l ∈ labels merged.
Proof.
  intros (lk & rk & _ & _ & ->)%merge_left_inv (c & -> & Hc)%list_elem_of_fmap Hls.
  unfold labels. rewrite fmap_app. apply elem_of_app. left.
  apply list_elem_of_fmap. eexists. split; [|apply list_elem_of_fmap_2, Hc]. simpl.
  destruct (suffixed_cases (overlap_labels left (drop [on] right)) ls (label c))
    as [[-> _]|[-> Hin]]; [reflexivity|].
  destruct Hls as [->|Hno]; [rewrite append_empty; reflexivity|].
  apply overlap_labels_elem in Hin as [_ Hin]. contradiction.
Qed.

Lemma set_labels_lookup names (f g : frame) i c' :
  set_labels names f = Ok g -> g !! i = Some c' ->
  exists c, f !! i = Some c /\ names !! i = Some (label c') /\ cells c' = cells c.
Proof.
  revert f g i. induction names as [|n names IH]; intros [|c f] g i; simpl; try discriminate.
  - intros [= <-] H. discriminate.
  - destruct (set_labels names f) as [rest|] eqn:E; [|discriminate]. simpl.
    intros [= <-]. destruct i as [|i]; simpl.
    + intros [= <-]. exists c. auto.
    + intros H. eapply IH; eassumption.
Qed.

Context (ranking potential : frame).

Abbreviation good := (carried ranking potential).

Lemma carried_NaN field : good field NaN.
Proof. left. reflexivity. Qed.

Lemma ranking_old_facts pair :
  pair ∈ ranking_mapping ->
  pair ∈ suitability_mapping
  /\ Text.endswith "_district_rec" pair.1 = false
  /\ Text.endswith "_x" pair.1 = false
  /\ Text.endswith "_y" pair.1 = false
  /\ pair.1 ∉ ["District_Clean"; "Community_SIP"; "Overall_Potential"; "match_key"].
Proof.
  assert (H : Forall (fun p : string * string =>
                p ∈ suitability_mapping
                /\ Text.endswith "_district_rec" p.1 = false
                /\ Text.endswith "_x" p.1 = false
                /\ Text.endswith "_y" p.1 = false
                /\ p.1 ∉ ["District_Clean"; "Community_SIP"; "Overall_Potential"; "match_key"])
              ranking_mapping).
  { apply (bool_decide_unpack _). vm_compute. exact I. }
  intros Hp. rewrite Forall_forall in H. exact (H _ Hp).
Qed.

Lemma ranking_good_set_labels master0 :
  set_labels ["District"; "Adaptation_New"; "Mitigation_New"; "Replacement_New"] ranking
    = Ok master0 ->
  ranking_good ranking potential master0.
Proof.
  intros Hset. split.
  - intros pair Hp. destruct (set_labels_Ok _ _ _ Hset) as [_ ->].
    unfold ranking_mapping in Hp.
    repeat (apply elem_of_cons in Hp as [->|Hp]; [simpl; find_elem|]).
    apply elem_of_nil in Hp. destruct Hp.
  - intros c' pair [i Hi]%list_elem_of_lookup Hp Hl.
    destruct (set_labels_lookup _ _ _ _ _ Hset Hi) as (c & Hc & Hn & Hcells).
    rewrite Hcells. apply Forall_forall. intros v Hv. right. exists c. split; [|exact Hv].
    rewrite Hl in Hn. unfold ranking_mapping in Hp. unfold sheet_source.
    repeat (apply elem_of_cons in Hp as [->|Hp];
            [simpl in *;
             do 4 (destruct i as [|i]; [try discriminate; tauto|]); discriminate|]).
    apply elem_of_nil in Hp. destruct Hp.
Qed.

Lemma ranking_good_assign l d vs master_data :
  (forall pair, pair ∈ ranking_mapping -> pair.1 <> l) ->
  ranking_good ranking potential master_data -> ranking_good ranking potential (assign l d vs master_data).
Proof.
  intros Hl [R1 R2]. split.
  - intros pair Hp. apply labels_assign. right. apply R1, Hp.
  - intros c pair [->|[Hc _]]%assign_elem Hp Hlc; [|eapply R2; eassumption].
    destruct (Hl pair Hp). symmetry. exact Hlc.
Qed.

Lemma ranking_good_merge ls rs master_data right merged :
  ls = "" \/ (ls = "_x" /\ forall pair, pair ∈ ranking_mapping ->
                                        pair.1 ∉ labels (drop ["District_Clean"] right)) ->
  rs = "_district_rec" \/ rs = "_y" ->
  merge_left ls rs "District_Clean" master_data right = Ok merged ->
  ranking_good ranking potential master_data -> ranking_good ranking potential merged.
Proof.
  intros Hls Hrs Hm [R1 R2]. split.
  - intros pair Hp. eapply merge_left_keeps_label; [exact Hm | apply R1, Hp|].
    destruct Hls as [->|[_ Hno]]; [left; reflexivity | right; apply Hno, Hp].
  - intros c' pair Hc' Hp Hl.
    destruct (ranking_old_facts pair Hp) as (_ & Hd & Hx & Hy & _).
    destruct (merge_left_column _ _ _ _ _ _ _ Hm Hc') as (ix & c & Hlc & Horigin).
    + destruct Hls as [->|[-> _]]; [left; reflexivity | right; rewrite Hl; exact Hx].
    + rewrite Hl. destruct Hrs as [->| ->]; assumption.
    + destruct Horigin as [(Hc & _ & ->)|(_ & Hno & _)].
      * apply take_left_Forall; [apply carried_NaN|].
        apply (R2 c pair Hc Hp). congruence.
      * destruct Hno. rewrite Hl. apply R1, Hp.
Qed.

Lemma ranking_good_sub (master_data sub : frame) :
  (forall c, c ∈ sub -> c ∈ master_data) ->
  (forall pair, pair ∈ ranking_mapping -> pair.1 ∈ labels master_data -> pair.1 ∈ labels sub) ->
  ranking_good ranking potential master_data -> ranking_good ranking potential sub.
Proof.
  intros Hsub Hl [R1 R2]. split.
  - intros pair Hp. apply Hl; [exact Hp | apply R1, Hp].
  - intros c pair Hc. apply R2, Hsub, Hc.
Qed.

Lemma ranking_good_district_clean (f g : frame) :
  district_clean f = Ok g -> ranking_good ranking potential f -> ranking_good ranking potential g.
Proof.
  unfold district_clean.
  destruct (get AttributeError "District" f) as [c|]; [|discriminate]. simpl.
  destruct (str_title_strip c) as [vs|]; [|discriminate]. simpl. intros [= <-].
  apply ranking_good_assign. intros pair Hp He.
  destruct (ranking_old_facts pair Hp) as (_ & _ & _ & _ & Hno).
  apply Hno. rewrite He. find_elem.
Qed.

Lemma ranking_good_fill_label l v (f : frame) :
  (forall pair, pair ∈ ranking_mapping -> pair.1 <> l) ->
  ranking_good ranking potential f -> ranking_good ranking potential (fill_label l v f).
Proof.
  intros Hl [R1 R2]. split.
  - intros pair Hp. rewrite labels_fill_label. apply R1, Hp.
  - intros c pair [Hc|(c0 & Hc0 & Hl0 & ->)]%fill_label_elem Hp Hlc;
      [eapply R2; eassumption|].
    destruct (Hl pair Hp). simpl in Hlc. congruence.
Qed.

Lemma select_labels ls (f g : frame) l :
  select ls f = Ok g -> l ∈ labels g -> l ∈ ls.
Proof. intros [_ H]%select_Ok (c & -> & [_ Hc]%H)%list_elem_of_fmap. exact Hc. Qed.

Lemma drop_labels ls (f : frame) l : l ∈ labels (drop ls f) -> l ∈ labels f /\ l ∉ ls.
Proof.
  intros (c & -> & [Hc Hl]%drop_elem)%list_elem_of_fmap.
  split; [apply list_elem_of_fmap_2, Hc | exact Hl].
Qed.

Lemma merge_recommendations_good master_data recs flag master' :
  ctl (merge_recommendations master_data recs flag) = Next master' ->
  ranking_good ranking potential master_data -> ranking_good ranking potential master'.
Proof.
  unfold merge_recommendations. intros H Hgood.
  apply ctl_bind_Next in H as (m1 & H1%ctl_lift_Next & H).
  apply ctl_bind_Next in H as (r1 & H2%ctl_lift_Next & H).
  apply ctl_bind_Next in H as (m2 & H3%ctl_lift_Next & H).
  apply ctl_bind_Next in H as (u & _ & H).
  assert (Hm2 : ranking_good ranking potential m2).
  { eapply (ranking_good_merge "" "_district_rec"); [left; reflexivity | left; reflexivity
                                                     | exact H3|].
    eapply ranking_good_district_clean; eassumption. }
  destruct (filter _ (labels m2)) as [|d ds] eqn:E; injection H as <-; [exact Hm2|].
  apply (ranking_good_sub m2); [intros c [Hc _]%drop_elem; exact Hc | | exact Hm2].
  intros pair Hp (c & Hl & Hc)%list_elem_of_fmap. rewrite Hl.
  apply list_elem_of_fmap_2, drop_elem. split; [exact Hc|].
  rewrite <- E, list_elem_of_filter. intros [Hend _].
  destruct (ranking_old_facts pair Hp) as (_ & Hd & _).
  rewrite <- Hl, Hd in Hend. exact Hend.
Qed.

Lemma ranking_not_in_right pair ls (f right : frame) :
  pair ∈ ranking_mapping ->
  (forall l, l ∈ ls -> l ∈ ["District_Clean"; "Community_SIP"; "Overall_Potential"]) ->
  select ls f = Ok right ->
  pair.1 ∉ labels (drop ["District_Clean"] right).
Proof.
  intros Hp Hls Hsel [Hl _]%drop_labels.
  apply (select_labels _ _ _ _ Hsel), Hls in Hl.
  destruct (ranking_old_facts pair Hp) as (_ & _ & _ & _ & Hno). apply Hno.
  repeat (apply elem_of_cons in Hl as [->|Hl]; [find_elem|]).
  apply elem_of_nil in Hl. destruct Hl.
Qed.

Lemma merge_community_good master_data community master' :
  ctl (merge_community master_data community) = Next master' ->
  ranking_good ranking potential master_data -> ranking_good ranking potential master'.
Proof.
  unfold merge_community. intros H Hgood.
  apply ctl_bind_Next in H as (c1 & _ & H).
  apply ctl_bind_Next in H as (st & _ & H).
  apply ctl_bind_Next in H as (vs & _ & H).
  apply ctl_bind_Next in H as (c2 & _ & H).
  apply ctl_bind_Next in H as (right & Hsel%ctl_lift_Next & H).
  apply ctl_bind_Next in H as (m1 & Hmerge%ctl_lift_Next & H).
  apply ctl_bind_Next in H as (u & _ & H). injection H as <-.
  apply ranking_good_fill_label.
  { intros pair Hp He. destruct (ranking_old_facts pair Hp) as (_ & _ & _ & _ & Hno).
    apply Hno. rewrite He. find_elem. }
  eapply (ranking_good_merge "_x" "_y"); [|right; reflexivity | exact Hmerge | exact Hgood].
  right. split; [reflexivity|]. intros pair Hp.
  eapply ranking_not_in_right; [exact Hp | | exact Hsel].
  intros l Hl. repeat (apply elem_of_cons in Hl as [->|Hl]; [find_elem|]).
  apply elem_of_nil in Hl. destruct Hl.
Qed.

Lemma rename_one_elem old new (f : frame) c :
  c ∈ rename_one old new f ->
  exists c0, c0 ∈ f /\ cells c = cells c0
             /\ label c = (if decide (label c0 = old) then new else label c0).
Proof. intros (c0 & -> & Hc0)%list_elem_of_fmap. exists c0. auto. Qed.

Lemma suitability_mapping_cases pair :
  pair ∈ suitability_mapping ->
  pair ∈ ranking_mapping \/ pair = ("Overall_Potential", "General_SI").
Proof.
  unfold suitability_mapping, ranking_mapping. intros H.
  repeat (apply elem_of_cons in H as [->|H];
          [first [solve [left; find_elem] | right; reflexivity]|]).
  apply elem_of_nil in H. destruct H.
Qed.

Lemma merge_potential_good master_data master' :
  ctl (merge_potential master_data potential) = Next master' ->
  ranking_good ranking potential master_data -> ranking_good ranking potential master' /\ master_good ranking potential master'.
Proof.
  unfold merge_potential. intros H Hgood.
  apply ctl_bind_Next in H as (p0 & Hsel0%ctl_lift_Next & H).
  apply ctl_bind_Next in H as (p1 & Hclean%ctl_lift_Next & H).
  apply ctl_bind_Next in H as (right & Hsel%ctl_lift_Next & H).
  apply ctl_lift_Next in H.
  assert (Hrank : ranking_good ranking potential master').
  { eapply (ranking_good_merge "_x" "_y"); [|right; reflexivity | exact H | exact Hgood].
    right. split; [reflexivity|]. intros pair Hp.
    eapply ranking_not_in_right; [exact Hp | | exact Hsel].
    intros l Hl. repeat (apply elem_of_cons in Hl as [->|Hl]; [find_elem|]).
    apply elem_of_nil in Hl. destruct Hl. }
  split; [exact Hrank|].
  intros c' pair Hc' [Hp| ->]%suitability_mapping_cases Hl.
  { destruct Hrank as [_ R2]. eapply R2; eassumption. }
  simpl in Hl.
  destruct (merge_left_column _ _ _ _ _ _ _ H Hc') as (ix & c & Hlc & Horigin).
  { right. rewrite Hl. reflexivity. }
  { rewrite Hl. reflexivity. }
  assert (Hright : "Overall_Potential" ∈ labels (drop ["District_Clean"] right)).
  { apply select_Ok in Hsel as [Hsel1 Hsel2].
    assert (Hop : "Overall_Potential" ∈ labels (rename_one "Final Potential" "Overall_Potential" p1))
      by (apply Hsel1; find_elem).
    apply list_elem_of_fmap in Hop as (c1 & Hl1 & Hc1). rewrite Hl1.
    apply list_elem_of_fmap_2, drop_elem. split.
    - apply Hsel2. split; [exact Hc1|]. rewrite <- Hl1. find_elem.
    - rewrite <- Hl1. intros Hd%list_elem_of_singleton. discriminate. }
  destruct Horigin as [(_ & [Hx|Hno] & _)|(Hc & _ & ->)].
  - discriminate.
  - destruct Hno. rewrite Hl. exact Hright.
  - apply take_right_Forall; [apply carried_NaN|].
    apply drop_elem in Hc as [Hc _].
    apply select_Ok in Hsel as [_ Hsel2]. apply Hsel2 in Hc as [Hc _].
    apply rename_one_elem in Hc as (c1 & Hc1 & Hcells & Hl1).
    rewrite Hcells. apply Forall_forall. intros v Hv. right. exists c1.
    split; [|exact Hv]. unfold sheet_source. do 3 right. split; [reflexivity|].
    unfold district_clean in Hclean.
    destruct (get AttributeError "District" p0) as [d|]; [|discriminate]. simpl in Hclean.
    destruct (str_title_strip d) as [vs|]; [|discriminate]. simpl in Hclean.
    injection Hclean as <-. rewrite Hlc, Hl in Hl1.
    apply assign_elem in Hc1 as [->|[Hc1 _]].
    + simpl in Hl1. discriminate.
    + apply select_Ok in Hsel0 as [_ Hsel0]. apply Hsel0 in Hc1 as [Hc1 Hin].
      split; [exact Hc1|].
      destruct (decide (label c1 = "Final Potential")) as [He|He]; [exact He|].
      rewrite <- Hl1 in Hin.
      repeat (apply elem_of_cons in Hin as [Hin|Hin]; [discriminate|]).
      apply elem_of_nil in Hin. destruct Hin.
Qed.

Lemma build_master_good wb m master_data :
  solar_ranking wb = ranking -> potential_data wb = potential ->
  ctl (build_master wb m) = Next master_data -> master_good ranking potential master_data.
Proof.
  intros Hr Hp H. unfold build_master in H. rewrite Hr, Hp in H.
  apply ctl_bind_Next in H as (recs & _ & H).
  apply ctl_bind_Next in H as (m0 & Hset%ctl_lift_Next & H).
  apply ctl_bind_Next in H as (m1 & Hrec & H).
  apply ctl_bind_Next in H as (m2 & Hcom & H).
  eapply merge_potential_good; [exact H|].
  eapply merge_community_good; [exact Hcom|].
  eapply merge_recommendations_good; [exact Hrec|].
  apply ranking_good_set_labels, Hset.
Qed.

(** The merged frame holds, in its suitability columns, values of the sheet
    columns. *)
Lemma merge_geometry_good gdf master_data match_column merged_gdf :
  (forall l, l ∈ labels gdf -> boundary_label l) ->
  master_good ranking potential master_data ->
  ctl (merge_geometry gdf master_data match_column) = Next merged_gdf ->
  master_good ranking potential merged_gdf.
Proof.
  intros Hgdf Hgood H. unfold merge_geometry in H.
  apply ctl_bind_Next in H as (u & _ & H).
  apply ctl_bind_Next in H as (merged & Hmerge%ctl_lift_Next & H).
  apply ctl_bind_Next in H as (a & _ & H).
  apply ctl_bind_Next in H as (u1 & _ & H).
  apply ctl_bind_Next in H as (u2 & _ & H). injection H as <-.
  intros c' pair Hc' Hp Hl.
  destruct (suitability_old_not_boundary pair Hp) as (Hb & Hx & Hy).
  destruct (merge_left_column _ _ _ _ _ _ _ Hmerge Hc') as (ix & c & Hlc & Horigin).
  { right. rewrite Hl. exact Hx. }
  { rewrite Hl. exact Hy. }
  destruct Horigin as [(Hc & _ & _)|(Hc & _ & ->)].
  - destruct Hb. rewrite <- Hl, <- Hlc. apply Hgdf, list_elem_of_fmap_2, Hc.
  - apply take_right_Forall; [apply carried_NaN|].
    apply drop_elem in Hc as [Hc _]. apply (Hgood c pair Hc Hp). congruence.
Qed.

End Provenance.

Lemma prepare_inputs_good w ranking potential gdf master_data match_column :
  read_excel w "Solar Suitability_new_ranking" = Ok ranking ->
  read_excel w "potential" = Ok potential ->
  ctl (prepare_inputs w) = Next (gdf, master_data, match_column) ->
  master_good ranking potential master_data.
Proof.
  intros Hr Hp H. unfold prepare_inputs in H.
  apply ctl_bind_Next in H as (shp & _ & H).
  apply ctl_bind_Next in H as (gdf1 & _ & H).
  apply ctl_bind_Next in H as (wb & (Hr' & _ & _ & _ & Hp' & _)%load_workbook_Next & H).
  apply ctl_bind_Next in H as (m & _ & H).
  apply ctl_bind_Next in H as (master0 & Hbuild & H).
  assert (Hgood : master_good ranking potential master0).
  { eapply build_master_good; [| |exact Hbuild]; congruence. }
  assert (Hassign : forall d vs, master_good ranking potential
                                   (Frame.assign "match_key" d vs master0)).
  { intros d vs c pair [->|[Hc _]]%assign_elem Hpair Hl; [|eapply Hgood; eassumption].
    destruct (suitability_old_not_boundary pair Hpair) as (Hb & _). destruct Hb.
    rewrite <- Hl. right. left. reflexivity. }
  unfold add_match_keys in H.
  apply ctl_bind_Next in H as (clean & _ & H).
  destruct (Frame.has "NAME_2" gdf1).
  - apply ctl_bind_Next in H as (names & _ & H). injection H as _ <- _. apply Hassign.
  - destruct (Frame.has "District" gdf1); [|rewrite ctl_bind in H; discriminate].
    apply ctl_bind_Next in H as (names & _ & H). injection H as _ <- _. apply Hassign.
Qed.

(** The suitability fields of the saved frame: "No Data", or a value of the
    sheet column the field is made from. *)
Lemma saved_suitability_cells w ranking potential path f c v :
  read_excel w "Solar Suitability_new_ranking" = Ok ranking ->
  read_excel w "potential" = Ok potential ->
  ToFile path f ∈ trace (body w) ->
  c ∈ f -> label c ∈ suitability_columns -> v ∈ cells c ->
  v = Str "No Data" \/ (carried ranking potential (label c) v /\ v <> NaN).
Proof.
  intros Hr Hp (_ & [[gdf master] col] & Hprep & Hasm)%written_frame Hc Hl Hv.
  pose proof (prepare_inputs_boundary _ _ _ _ Hprep) as Hgdf.
  pose proof (prepare_inputs_good _ _ _ _ _ _ Hr Hp Hprep) as Hgood.
  unfold assemble in Hasm.
  apply ctl_bind_Next in Hasm as (merged & Hmg & Hrest).
  apply ctl_bind_Next in Hrest as ([final recs] & Hfin & Hrest).
  apply ctl_bind_Next in Hrest as (filled & Hfill & Hdup).
  eapply (assemble_tail_good (carried ranking potential) gdf merged final recs filled f);
    try eassumption.
  - intros l Hlg Hs. exact (suitability_new_not_boundary _ Hs (Hgdf _ Hlg)).
  - intros c0 old new Hc0 Hpair Hl0.
    apply (merge_geometry_good ranking potential _ _ _ _ Hgdf Hgood Hmg c0 (old, new));
      assumption.
Qed.

(** C9 (as amended). Each of the four suitability fields of every saved
    feature holds "No Data" or a value copied unchanged from the sheet
    column the field is made from (the ranking sheet's second, third or
    fourth column, the potential sheet's "Final Potential"); the script
    checks no value, so the fields stay within the enumerated levels
    exactly as far as the sheets do. *)
Theorem suitability_fields_carry_sheet_values
    (w : world) (ranking potential : frame) (path : string) (f : frame)
    (c : series) (v : value) :
  read_excel w "Solar Suitability_new_ranking" = Ok ranking ->
  read_excel w "potential" = Ok potential ->
  ToFile path f ∈ (create_true_solar_suitability_shapefile w).1 ->
  c ∈ f -> label c ∈ suitability_columns -> v ∈ cells c ->
  (v = Str "No Data"
   \/ exists col, sheet_source ranking potential (label c) col /\ v ∈ cells col)
  /\ ((forall col x, sheet_source ranking potential (label c) col -> x ∈ cells col ->
         x = NaN \/ exists s, x = Str s /\ s ∈ suitability_levels (label c)) ->
      expected_level (label c) v).
Proof.
  intros Hr Hp Hin Hc Hl Hv. simpl in Hin.
  destruct (saved_suitability_cells _ _ _ _ _ _ _ Hr Hp Hin Hc Hl Hv)
    as [->|[[->|(col & Hsrc & Hcol)] Hne]].
  - split; [left; reflexivity | intros _; left; reflexivity].
  - contradiction.
  - split; [right; eauto|]. intros Hsheet.
    destruct (Hsheet col v Hsrc Hcol) as [->|Hs]; [contradiction | right; exact Hs].
Qed.

Lemma suitability_fields_carry_sheet_values_witness :
  Str "Less Suitable" = Str "No Data"
  \/ exists col, sheet_source sample_ranking sample_potential "Mitigate" col
                 /\ Str "Less Suitable" ∈ cells col.
Proof.
  refine (proj1 (suitability_fields_carry_sheet_values sample_world
            sample_ranking sample_potential "true_solar_suitability.shp" _
            (text "Mitigate" [Str "Less Suitable"; Str "Moderately Suitable"; Str "No Data"])
            (Str "Less Suitable") eq_refl eq_refl _ _ _ _)).
  - vm_compute. find_elem.
  - find_elem.
  - unfold suitability_columns. find_elem.
  - find_elem.
Defined.

(** C9, the claim as stated fails: the ranking sheet says "Excellent", and
    so does the field "Adapt" of the saved frame; no colour table lists it. *)
Lemma unlisted_level_is_written :
  exists (f : frame) (c : series),
    ToFile "true_solar_suitability.shp" f
      ∈ (create_true_solar_suitability_shapefile unlisted_level_world).1
    /\ c ∈ f /\ label c = "Adapt" /\ Str "Excellent" ∈ cells c
    /\ ~ expected_level "Adapt" (Str "Excellent").
Proof.
  do 2 eexists. split; [vm_compute; find_elem|].
  split; [do 3 (apply elem_of_cons; right); apply elem_of_cons; left; reflexivity|].
  split; [reflexivity|]. split; [simpl; find_elem|].
  intros [H|(s & [= <-] & Hs)]; [discriminate|].
  vm_compute in Hs.
  repeat (apply elem_of_cons in Hs as [Hs|Hs]; [discriminate|]).
  apply elem_of_nil in Hs. exact Hs.
Qed.

(** ** Runs that get through the merge and the final columns *)

Section NoAbort.

Import Frame.

Lemma one_column_NoDup l (f : frame) :
  NoDup (labels f) -> l ∈ labels f -> one_column l f.
Proof.
  intros Hnd Hl. destruct (columns_named_NoDup l f Hnd Hl) as [c Hc].
  unfold one_column. rewrite Hc. reflexivity.
Qed.

Lemma one_column_get dup l (f : frame) : one_column l f -> exists c, get dup l f = Ok c.
Proof.
  unfold one_column, get. destruct (columns_named l f) as [|c [|c' cs]]; try discriminate.
  eauto.
Qed.

Lemma one_column_label l (f : frame) : one_column l f -> l ∈ labels f.
Proof.
  intros H. destruct (decide (l ∈ labels f)) as [Hl|Hl]; [exact Hl|].
  apply columns_named_nil in Hl. unfold one_column in H. rewrite Hl in H. discriminate.
Qed.

(** A relabelling that keeps the columns named [l], and only those, under
    that name keeps their number. *)
Lemma columns_named_fmap_length l (F : series -> series) (f : frame) :
  (forall c, c ∈ f -> label (F c) = l <-> label c = l) ->
  length (columns_named l (F <$> f)) = length (columns_named l f).
Proof.
  unfold columns_named. induction f as [|c f IH]; intros HF; [reflexivity|].
  rewrite fmap_cons, !filter_cons.
  assert (Hc : label (F c) = l <-> label c = l) by (apply HF, elem_of_cons; left; reflexivity).
  assert (IH' : length (filter (fun c => label c = l) (F <$> f))
                = length (filter (fun c => label c = l) f)).
  { apply IH. intros c' Hc'. apply HF, elem_of_cons. right. exact Hc'. }
  destruct (decide (label (F c) = l)) as [E|E], (decide (label c = l)) as [E'|E'];
    cbn [length]; try (rewrite IH'; reflexivity); tauto.
Qed.

Lemma one_column_assign l l' d vs (f : frame) :
  l <> l' -> one_column l f -> one_column l (assign l' d vs f).
Proof.
  unfold one_column, assign. intros Hne H. destruct (has l' f).
  - rewrite columns_named_fmap_length; [exact H|]. intros c _.
    destruct (decide (label c = l')) as [E|E]; [|tauto]. simpl. split; congruence.
  - unfold columns_named. rewrite filter_app, length_app.
    rewrite (filter_cons_False _ (Series l' d vs)) by (simpl; congruence).
    rewrite filter_nil. simpl. unfold columns_named in H. lia.
Qed.

Lemma columns_named_drop l ls (f : frame) :
  l ∉ ls -> columns_named l (drop ls f) = columns_named l f.
Proof.
  intros Hl. unfold columns_named, drop. induction f as [|c f IH]; [reflexivity|].
  rewrite !filter_cons. destruct (decide (label c ∉ ls)) as [E|E].
  - rewrite filter_cons, IH. reflexivity.
  - rewrite IH. destruct (decide (label c = l)) as [E'|E']; [|reflexivity].
    rewrite E' in E. contradiction.
Qed.

Lemma one_column_fill_label l l' v (f : frame) :
  one_column l f -> one_column l (fill_label l' v f).
Proof.
  unfold one_column, fill_label. intros H.
  rewrite columns_named_fmap_length; [exact H|]. intros c _.
  destruct (decide (label c = l')); reflexivity.
Qed.

Lemma labels_drop ls (f : frame) l : l ∈ labels f -> l ∉ ls -> l ∈ labels (drop ls f).
Proof.
  intros (c & -> & Hc)%list_elem_of_fmap Hl.
  apply list_elem_of_fmap_2, drop_elem. split; assumption.
Qed.

Lemma loc_mask_keeps_label seen (f : frame) l :
  l ∈ labels f -> l ∉ seen ->
  l ∈ labels (loc_mask (negb <$> duplicated_from seen (labels f)) f).
Proof.
  revert seen. induction f as [|c f IH]; intros seen Hl Hseen.
  - apply elem_of_nil in Hl. destruct Hl.
  - unfold labels in *. rewrite fmap_cons in Hl.
    cbn [fmap list_fmap duplicated_from loc_mask].
    destruct (decide (label c ∈ seen)) as [Hc|Hc].
    + rewrite (bool_decide_eq_true_2 _ Hc). cbn [negb].
      apply elem_of_cons in Hl as [->|Hl]; [contradiction|].
      apply IH; [exact Hl|]. intros [->|H]%elem_of_cons; contradiction.
    + rewrite (bool_decide_eq_false_2 _ Hc). cbn [negb]. rewrite fmap_cons.
      destruct (decide (l = label c)) as [->|Hne]; [apply elem_of_cons; left; reflexivity|].
      apply elem_of_cons. right.
      apply elem_of_cons in Hl as [->|Hl]; [contradiction|].
      apply IH; [exact Hl|]. intros [->|H]%elem_of_cons; contradiction.
Qed.

Lemma drop_duplicated_keeps_label (f : frame) l :
  l ∈ labels f -> l ∈ labels (drop_duplicated f).
Proof. intros H. apply loc_mask_keeps_label; [exact H | apply not_elem_of_nil]. Qed.

Lemma assign_NoDup l d vs (f : frame) : NoDup (labels f) -> NoDup (labels (assign l d vs f)).
Proof.
  intros H. unfold assign. destruct (has l f) eqn:Hhas.
  - assert (E : labels ((fun c => if decide (label c = l) then Series l d vs else c) <$> f)
                = labels f).
    { unfold labels. rewrite <- list_fmap_compose. apply list_fmap_ext.
      intros _ c _. simpl. destruct (decide (label c = l)) as [<-|]; reflexivity. }
    rewrite E. exact H.
  - unfold labels. rewrite fmap_app. apply NoDup_app. split; [exact H|]. split.
    + intros l' Hl' ->%list_elem_of_singleton.
      apply bool_decide_eq_false in Hhas. contradiction.
    + apply NoDup_singleton.
Qed.

Lemma select_NoDup ls (f : frame) :
  NoDup (labels f) -> (forall l, l ∈ ls -> l ∈ labels f) ->
  exists g, select ls f = Ok g /\ labels g = ls.
Proof.
  intros Hnd. induction ls as [|l ls IH]; intros Hls; cbn [select].
  - exists []. split; reflexivity.
  - destruct (columns_named_NoDup l f Hnd) as [c Hc];
      [apply Hls, elem_of_cons; left; reflexivity|].
    destruct IH as (g & Hg & Hl); [intros l' Hl'; apply Hls, elem_of_cons; right; exact Hl'|].
    rewrite Hc, Hg. exists ([c] ++ g). split; [reflexivity|].
    unfold labels in *. rewrite fmap_app, Hl. cbn [fmap list_fmap app]. f_equal.
    assert (Hin : c ∈ columns_named l f) by (rewrite Hc; apply list_elem_of_singleton; reflexivity).
    apply columns_named_elem in Hin. tauto.
Qed.

(** *** Merges *)

(** A left column named [l] that keeps its name is, in the merged frame,
    as unique as it was. *)
Lemma merge_left_one_column ls rs on (left right merged : frame) l :
  merge_left ls rs on left right = Ok merged ->
  ls = "" \/ (Text.endswith ls l = false /\ l ∉ labels (drop [on] right)) ->
  Text.endswith rs l = false ->
  one_column l left -> one_column l merged.
Proof.
  intros (lk & rk & _ & _ & ->)%merge_left_inv Hls Hrs Hone.
  pose proof (one_column_label _ _ Hone) as Hl.
  unfold one_column, columns_named. rewrite filter_app, length_app.
  fold (columns_named l (left_part (overlap_labels left (drop [on] right)) ls
                           (merge_indexer (cells lk) (cells rk)) left)).
  fold (columns_named l (right_part (overlap_labels left (drop [on] right)) rs
                           (merge_indexer (cells lk) (cells rk)) (drop [on] right))).
  assert (Hright : columns_named l (right_part (overlap_labels left (drop [on] right)) rs
                      (merge_indexer (cells lk) (cells rk)) (drop [on] right)) = []).
  { apply columns_named_nil. intros (c' & E & (c & -> & Hc)%list_elem_of_fmap)%list_elem_of_fmap.
    simpl in E.
    destruct (suffixed_cases (overlap_labels left (drop [on] right)) rs (label c))
      as [[He Hno]|[He _]]; rewrite He in E.
    - apply Hno, overlap_labels_elem. rewrite <- E. split; [exact Hl|].
      rewrite E. apply list_elem_of_fmap_2, Hc.
    - rewrite E, endswith_append in Hrs. discriminate. }
  rewrite Hright. unfold left_part. rewrite columns_named_fmap_length.
  - unfold one_column in Hone. rewrite Hone. reflexivity.
  - intros c Hc. simpl.
    destruct (suffixed_cases (overlap_labels left (drop [on] right)) ls (label c))
      as [[He Hno]|[He Hin]]; rewrite He; [tauto|].
    destruct Hls as [->|[Hend Hnot]]; [rewrite append_empty; tauto|].
    split.
    + intros E. rewrite <- E, endswith_append in Hend. discriminate.
    + intros E. rewrite E in Hin. apply overlap_labels_elem in Hin as [_ Hin]. contradiction.
Qed.


(** *** A merge of frames that share the key only *)

Lemma overlap_labels_nil (left right' : frame) :
  (forall l, l ∈ labels left -> l ∉ labels right') -> overlap_labels left right' = [].
Proof.
  intros H. unfold overlap_labels.
  destruct (filter _ (labels left)) as [|l ls] eqn:E; [reflexivity|].
  assert (Hl : l ∈ filter (fun l => l ∈ labels right') (labels left))
    by (rewrite E; apply elem_of_cons; left; reflexivity).
  apply list_elem_of_filter in Hl as [Hr Hl]. destruct (H l Hl Hr).
Qed.

Lemma suffixed_nil suffix (ls : list string) : suffixed [] suffix <$> ls = ls.
Proof.
  rewrite <- (list_fmap_id ls) at 2. apply list_fmap_ext. intros _ l _.
  unfold suffixed. rewrite bool_decide_eq_false_2 by apply not_elem_of_nil. reflexivity.
Qed.

Lemma suffix_clashes_same (ls : list string) : suffix_clashes ls ls = [].
Proof.
  unfold suffix_clashes. generalize (duplicated ls). intros mask. revert ls.
  induction mask as [|b mask IH]; intros [|l ls]; try reflexivity.
  cbn [fmap list_fmap zip_with loc_mask]. rewrite andb_negb_r. apply IH.
Qed.

Lemma labels_left_part suffix ix (f : frame) : labels (left_part [] suffix ix f) = labels f.
Proof.
  unfold labels, left_part. rewrite <- list_fmap_compose, <- (suffixed_nil suffix (label <$> f)).
  rewrite <- list_fmap_compose. reflexivity.
Qed.

Lemma labels_right_part suffix ix (f : frame) : labels (right_part [] suffix ix f) = labels f.
Proof.
  unfold labels, right_part. rewrite <- list_fmap_compose, <- (suffixed_nil suffix (label <$> f)).
  rewrite <- list_fmap_compose. reflexivity.
Qed.

Lemma merge_left_disjoint ls rs on (left right : frame) :
  one_column on left -> one_column on right ->
  (forall l, l ∈ labels left -> l ∈ labels right -> l = on) ->
  exists merged,
    merge_left ls rs on left right = Ok merged
    /\ labels merged = labels left ++ labels (drop [on] right)
    /\ forall l, l <> on -> l ∉ labels left ->
                 length (columns_named l merged) = length (columns_named l right).
Proof.
  intros Hkl Hkr Hshare.
  destruct (one_column_get ValueError on left Hkl) as [lk Hlk].
  destruct (one_column_get ValueError on right Hkr) as [rk Hrk].
  assert (Hdis : forall l, l ∈ labels left -> l ∉ labels (drop [on] right)).
  { intros l Hin (c & -> & [Hc Hne]%drop_elem)%list_elem_of_fmap. apply Hne.
    apply list_elem_of_singleton, Hshare; [exact Hin | apply list_elem_of_fmap_2, Hc]. }
  eexists. split; [|split].
  - unfold merge_left, key_column. rewrite Hlk, Hrk. cbn [mbind result_bind]. cbv zeta.
    rewrite (overlap_labels_nil _ _ Hdis), !suffixed_nil, !suffix_clashes_same.
    reflexivity.
  - unfold labels at 1. rewrite fmap_app.
    fold (labels (left_part [] ls (merge_indexer (cells lk) (cells rk)) left)).
    fold (labels (right_part [] rs (merge_indexer (cells lk) (cells rk)) (drop [on] right))).
    rewrite labels_left_part, labels_right_part. reflexivity.
  - intros l Hne Hl. unfold columns_named at 1. rewrite filter_app, length_app.
    fold (columns_named l (left_part [] ls (merge_indexer (cells lk) (cells rk)) left)).
    fold (columns_named l (right_part [] rs (merge_indexer (cells lk) (cells rk))
                             (drop [on] right))).
    assert (Hleft : columns_named l (left_part [] ls (merge_indexer (cells lk) (cells rk)) left)
                    = []).
    { apply columns_named_nil. rewrite labels_left_part. exact Hl. }
    rewrite Hleft. unfold right_part. rewrite columns_named_fmap_length.
    + rewrite columns_named_drop; [reflexivity|].
      intros H%list_elem_of_singleton. contradiction.
    + intros c _. simpl. unfold suffixed.
      rewrite bool_decide_eq_false_2 by apply not_elem_of_nil. tauto.
Qed.

Lemma merge_geometry_returns (gdf master_data : frame) match_column :
  NoDup (labels gdf) ->
  one_column "match_key" master_data ->
  (forall l, l ∈ labels gdf -> l ∈ labels master_data -> l = "match_key") ->
  "match_key" ∈ labels gdf -> match_column ∈ labels gdf ->
  one_column "Adaptation_New" master_data -> one_column "District" master_data ->
  exists merged_gdf,
    ctl (merge_geometry gdf master_data match_column) = Next merged_gdf
    /\ (forall l, l ∈ labels gdf -> l ∈ labels merged_gdf)
    /\ (forall l, l ∈ labels master_data -> l <> "match_key" -> l ∈ labels merged_gdf).
Proof.
  intros Hg Hkm Hshare Hkg Hcol Had Hdi.
  destruct (merge_left_disjoint "_x" "_y" "match_key" gdf master_data)
    as (merged & Hmerge & Hlabels & Hcount);
    [apply one_column_NoDup; assumption | exact Hkm | exact Hshare|].
  exists merged. split; [|split].
  2:{ intros l Hl. rewrite Hlabels. apply elem_of_app. left. exact Hl. }
  2:{ intros l Hl Hne. rewrite Hlabels. apply elem_of_app. right.
      apply labels_drop; [exact Hl|]. intros H%list_elem_of_singleton. contradiction. }
  assert (Ha : one_column "Adaptation_New" merged).
  { unfold one_column. rewrite Hcount; [exact Had | discriminate|].
    intros Hin. specialize (Hshare _ Hin (one_column_label _ _ Had)). discriminate. }
  destruct (one_column_get ValueError "Adaptation_New" merged Ha) as [a Hget].
  destruct (one_column_get AttributeError match_column gdf) as [names Hnames];
    [apply one_column_NoDup; assumption|].
  destruct (one_column_get AttributeError "District" master_data Hdi) as [ds Hds].
  unfold merge_geometry.
  rewrite ctl_print_bind, Hmerge, ctl_lift_bind, Hget, ctl_lift_bind, ctl_print_bind.
  rewrite ctl_bind. destruct (decide (notna_count (cells a) = 0)); [|reflexivity].
  rewrite ctl_print_bind, Hnames, ctl_lift_bind, ctl_print_bind, Hds, ctl_lift_bind.
  reflexivity.
Qed.

(** *** The final columns *)

Lemma apply_core_mapping_returns entry (m : frame) ess :
  NoDup (labels m) ->
  exists m' ess',
    ctl (apply_core_mapping entry (m, ess)) = Next (m', ess')
    /\ NoDup (labels m')
    /\ (forall l, l ∈ labels m -> l ∈ labels m')
    /\ (((entry.1 ∉ labels m) /\ ess' = ess)
        \/ (ess' = ess ++ [entry.2] /\ entry.2 ∈ labels m')).
Proof.
  destruct entry as [old new]. intros Hnd. unfold apply_core_mapping, has.
  destruct (decide (old ∈ labels m)) as [Hin|Hin].
  - rewrite (bool_decide_eq_true_2 _ Hin).
    destruct (get_NoDup ValueError old m Hnd Hin) as [c Hc].
    rewrite Hc, ctl_lift_bind. do 2 eexists. split; [reflexivity|].
    split; [apply assign_NoDup, Hnd|]. split.
    + intros l Hl. apply labels_assign. right. exact Hl.
    + right. split; [reflexivity|]. apply labels_assign. left. reflexivity.
  - rewrite (bool_decide_eq_false_2 _ Hin). do 2 eexists. split; [reflexivity|].
    split; [exact Hnd|]. split; [tauto | left; split; [exact Hin | reflexivity]].
Qed.

Lemma for_each_core_mapping_returns entries (m : frame) ess :
  NoDup (labels m) ->
  exists m' ess' news,
    ctl (for_each entries apply_core_mapping (m, ess)) = Next (m', ess')
    /\ NoDup (labels m')
    /\ (forall l, l ∈ labels m -> l ∈ labels m')
    /\ ess' = ess ++ news
    /\ news `sublist_of` entries.*2
    /\ (forall l, l ∈ news -> l ∈ labels m')
    /\ (forall entry, entry ∈ entries -> entry.1 ∈ labels m -> entry.2 ∈ news).
Proof.
  revert m ess. induction entries as [|entry entries IH]; intros m ess Hnd; cbn [for_each].
  - exists m, ess, []. rewrite app_nil_r. split; [reflexivity|]. split; [exact Hnd|].
    split; [tauto|]. split; [reflexivity|]. split; [apply sublist_nil_l|].
    split; [intros l Hl | intros e He]; apply elem_of_nil in Hl || apply elem_of_nil in He;
      contradiction.
  - destruct (apply_core_mapping_returns entry m ess Hnd)
      as (m1 & ess1 & H1 & Hnd1 & Hsub1 & Hess1).
    destruct (IH m1 ess1 Hnd1)
      as (m' & ess' & news & H2 & Hnd' & Hsub' & He & Hnews & Hin & Hall).
    rewrite ctl_bind, H1. rewrite fmap_cons.
    destruct Hess1 as [[Hold ->]|[-> Hnew]].
    + exists m', ess', news. split; [exact H2|]. split; [exact Hnd'|].
      split; [auto|]. split; [exact He|]. split; [apply sublist_cons, Hnews|].
      split; [exact Hin|].
      intros e [->|Hentry]%elem_of_cons Hl; [contradiction | apply Hall; auto].
    + exists m', ess', (entry.2 :: news). split; [exact H2|]. split; [exact Hnd'|].
      split; [auto|]. split; [rewrite He, <- app_assoc; reflexivity|].
      split; [apply sublist_skip, Hnews|]. split.
      * intros l [->|Hl]%elem_of_cons; [apply Hsub', Hnew | apply Hin, Hl].
      * intros e [->|Hentry]%elem_of_cons Hl; apply elem_of_cons;
          [left; reflexivity | right; apply Hall; auto].
Qed.

Lemma add_community_flag_returns (m : frame) ess :
  NoDup (labels m) ->
  exists m' ess',
    ctl (add_community_flag (m, ess)) = Next (m', ess')
    /\ NoDup (labels m')
    /\ (forall l, l ∈ labels m -> l ∈ labels m')
    /\ (ess' = ess \/ (ess' = ess ++ ["Has_CommSI"] /\ "Has_CommSI" ∈ labels m')).
Proof.
  intros Hnd. unfold add_community_flag, has.
  destruct (decide ("Comm_SIP" ∈ labels m)) as [Hin|Hin].
  - rewrite (bool_decide_eq_true_2 _ Hin).
    destruct (get_NoDup ValueError "Comm_SIP" m Hnd Hin) as [c Hc].
    rewrite Hc, ctl_lift_bind. do 2 eexists. split; [reflexivity|].
    split; [apply assign_NoDup, Hnd|]. split.
    + intros l Hl. apply labels_assign. right. exact Hl.
    + right. split; [reflexivity|]. apply labels_assign. left. reflexivity.
  - rewrite (bool_decide_eq_false_2 _ Hin). do 2 eexists. split; [reflexivity|].
    split; [exact Hnd|]. split; [tauto | left; reflexivity].
Qed.

Lemma collect_rec_cols_NoDup gdf ls recs ess recs' ess' :
  foldl (collect_rec_col gdf) (recs, ess) ls = (recs', ess') ->
  NoDup ess ->
  NoDup ess' /\ (forall l, l ∈ ess' -> l ∈ ess \/ l ∈ ls) /\ (forall l, l ∈ ess -> l ∈ ess').
Proof.
  revert recs ess. induction ls as [|col ls IH]; intros recs ess; cbn [foldl].
  - intros [= <- <-] Hnd. split; [exact Hnd | tauto].
  - destruct (collect_rec_col gdf (recs, ess) col) as [recs1 ess1] eqn:E1.
    intros H Hnd. unfold collect_rec_col in E1.
    destruct (bool_decide (col ∉ skip_cols gdf) && bool_decide (col ∉ ess)) eqn:E;
      injection E1 as <- <-.
    + apply andb_true_iff in E as [_ E%bool_decide_eq_true].
      destruct (IH _ _ H) as (Hnd' & Hin & Hsub).
      { apply NoDup_app. split; [exact Hnd|]. split; [|apply NoDup_singleton].
        intros l Hl ->%list_elem_of_singleton. contradiction. }
      split; [exact Hnd'|]. split.
      * intros l Hl. apply Hin in Hl as [Hl|Hl].
        -- apply elem_of_app in Hl as [Hl| ->%list_elem_of_singleton]; [left; exact Hl|].
           right. apply elem_of_cons. left. reflexivity.
        -- right. apply elem_of_cons. right. exact Hl.
      * intros l Hl. apply Hsub, elem_of_app. left. exact Hl.
    + destruct (IH _ _ H Hnd) as (Hnd' & Hin & Hsub). split; [exact Hnd'|].
      split; [|exact Hsub].
      intros l Hl. apply Hin in Hl as [Hl|Hl]; [left; exact Hl|].
      right. apply elem_of_cons. right. exact Hl.
Qed.

Lemma new_names_facts :
  NoDup (core_suitability_mapping.*2 ++ ["Has_CommSI"])
  /\ Forall (fun l => ~ (l = "geometry" \/ l = "match_key" \/ is_name_column l))
            ("District_Clean" :: core_suitability_mapping.*2 ++ ["Has_CommSI"]).
Proof. split; apply (bool_decide_unpack _); vm_compute; exact I. Qed.

Lemma finalize_returns (gdf merged_gdf : frame) :
  NoDup (labels gdf) ->
  (forall l, l ∈ labels gdf -> boundary_label l) ->
  (forall l, l ∈ labels gdf -> l ∈ labels merged_gdf) ->
  "geometry" ∈ labels gdf -> "match_key" ∈ labels gdf ->
  exists final_gdf recs,
    ctl (finalize gdf merged_gdf) = Next (final_gdf, recs)
    /\ NoDup (labels final_gdf)
    /\ forall entry, entry ∈ core_suitability_mapping ->
                     entry.1 ∈ labels merged_gdf ->
                     entry.1 ∉ ["match_key"; "District_Clean"] ->
                     entry.2 ∈ labels final_gdf.
Proof.
  intros Hg Hb Hsub Hgeo Hkey.
  destruct new_names_facts as [Hnew Hnb]. rewrite Forall_forall in Hnb.
  pose (m1 := drop_duplicated (drop ["District_Clean"] (drop ["match_key"] merged_gdf))).
  pose (ess0 := "geometry" :: filter (fun col => col ≠ "geometry" ∧ col ≠ "match_key")
                                     (labels gdf)).
  assert (Hm1 : NoDup (labels m1)) by apply drop_duplicated_NoDup.
  assert (Hess0 : forall l, l ∈ ess0 -> l ∈ labels gdf /\ l <> "match_key").
  { intros l [->|[[_ Hk] Hl]%list_elem_of_filter]%elem_of_cons; [|tauto].
    split; [exact Hgeo | discriminate]. }
  assert (Hin0 : forall l, l ∈ ess0 -> l ∈ labels m1).
  { intros l [Hl Hk]%Hess0. apply drop_duplicated_keeps_label.
    apply labels_drop; [apply labels_drop|].
    - apply Hsub, Hl.
    - intros H%list_elem_of_singleton. contradiction.
    - intros ->%list_elem_of_singleton.
      apply (Hnb "District_Clean"); [apply elem_of_cons; left; reflexivity | apply Hb, Hl]. }
  assert (Hnd0 : NoDup ess0).
  { apply NoDup_cons. split; [|apply NoDup_filter, Hg].
    intros [[H _] _]%list_elem_of_filter. apply H. reflexivity. }
  destruct (for_each_core_mapping_returns core_suitability_mapping m1 ess0 Hm1)
    as (m2 & ess2 & news & H2 & Hm2 & Hsub2 & He2 & Hnews & Hin2 & Hall).
  destruct (add_community_flag_returns m2 ess2 Hm2) as (m3 & ess3 & H3 & Hm3 & Hsub3 & He3).
  destruct (foldl (collect_rec_col gdf) ([], ess3) (labels m3)) as [recs ess4] eqn:E4.
  assert (Hess3 : exists flag, ess3 = ess0 ++ news ++ flag
                               /\ flag `sublist_of` ["Has_CommSI"]
                               /\ forall l, l ∈ flag -> l ∈ labels m3).
  { destruct He3 as [->|[-> Hflag]].
    - exists []. rewrite app_nil_r. split; [exact He2|]. split; [apply sublist_nil_l|].
      intros l Hl. apply elem_of_nil in Hl. destruct Hl.
    - exists ["Has_CommSI"]. rewrite He2, <- app_assoc. split; [reflexivity|].
      split; [reflexivity|]. intros l ->%list_elem_of_singleton. exact Hflag. }
  destruct Hess3 as (flag & He & Hflag & Hinflag).
  assert (Hnd3 : NoDup ess3).
  { rewrite He. apply NoDup_app. split; [exact Hnd0|]. split.
    - intros l [Hl _]%Hess0 Hn. apply (Hnb l); [|apply Hb, Hl].
      apply elem_of_cons. right. eapply elem_of_sublist; [exact Hn|].
      apply sublist_app; assumption.
    - eapply sublist_NoDup; [exact Hnew | apply sublist_app; assumption]. }
  destruct (collect_rec_cols_NoDup _ _ _ _ _ _ E4 Hnd3) as (Hnd4 & Hin4 & Hsub4).
  destruct (select_NoDup ess4 m3 Hm3) as (final & Hsel & Hlabels).
  { intros l [Hl|Hl]%Hin4; [|exact Hl]. rewrite He in Hl.
    apply elem_of_app in Hl as [Hl|Hl]; [apply Hsub3, Hsub2, Hin0, Hl|].
    apply elem_of_app in Hl as [Hl|Hl]; [apply Hsub3, Hin2, Hl | apply Hinflag, Hl]. }
  exists final, recs. split; [|split; [rewrite Hlabels; exact Hnd4|]].
  2:{ intros entry Hentry Hold Hno. rewrite Hlabels. apply Hsub4. rewrite He.
      apply elem_of_app. right. apply elem_of_app. left. apply Hall; [exact Hentry|].
      apply drop_duplicated_keeps_label.
      apply labels_drop; [apply labels_drop; [exact Hold|]|];
        intros E%list_elem_of_singleton; apply Hno; rewrite E; find_elem. }
  unfold finalize, drop_strict, has.
  rewrite (bool_decide_eq_true_2 _ (Hsub _ Hkey)), ctl_lift_bind. cbv zeta.
  fold m1. fold ess0.
  rewrite ctl_bind, H2, ctl_bind, H3. cbv beta iota.
  rewrite E4, Hsel, ctl_lift_bind. reflexivity.
Qed.

Lemma check_duplicates_returns (final_gdf : frame) :
  exists out, ctl (check_duplicates final_gdf) = Next out.
Proof.
  unfold check_duplicates. destruct (loc_mask _ _); eexists; reflexivity.
Qed.



(** *** The columns the prepared inputs are sure to have *)

Lemma kept_label_facts l :
  l ∈ ["District"; "Adaptation_New"; "Mitigation_New"; "Replacement_New"] ->
  Text.endswith "_district_rec" l = false
  /\ Text.endswith "_x" l = false
  /\ Text.endswith "_y" l = false
  /\ l ∉ ["District_Clean"; "Community_SIP"; "Overall_Potential"; "match_key"].
Proof.
  assert (H : Forall (fun l : string =>
                Text.endswith "_district_rec" l = false
                /\ Text.endswith "_x" l = false
                /\ Text.endswith "_y" l = false
                /\ l ∉ ["District_Clean"; "Community_SIP"; "Overall_Potential"; "match_key"])
              ["District"; "Adaptation_New"; "Mitigation_New"; "Replacement_New"]).
  { apply (bool_decide_unpack _). vm_compute. exact I. }
  intros Hl. rewrite Forall_forall in H. exact (H _ Hl).
Qed.

Lemma district_clean_one_column (f g : frame) l :
  district_clean f = Ok g -> l <> "District_Clean" -> one_column l f -> one_column l g.
Proof.
  unfold district_clean.
  destruct (get AttributeError "District" f) as [c|]; [|discriminate]. simpl.
  destruct (str_title_strip c) as [vs|]; [|discriminate]. simpl. intros [= <-] Hne H.
  apply one_column_assign; assumption.
Qed.

Lemma merge_recommendations_one_column master_data recs flag master' l :
  ctl (merge_recommendations master_data recs flag) = Next master' ->
  Text.endswith "_district_rec" l = false -> l <> "District_Clean" ->
  one_column l master_data -> one_column l master'.
Proof.
  unfold merge_recommendations. intros H Hend Hne Hl.
  apply ctl_bind_Next in H as (m1 & H1%ctl_lift_Next & H).
  apply ctl_bind_Next in H as (r1 & H2%ctl_lift_Next & H).
  apply ctl_bind_Next in H as (m2 & H3%ctl_lift_Next & H).
  apply ctl_bind_Next in H as (u & _ & H).
  assert (Hm2 : one_column l m2).
  { eapply merge_left_one_column; [exact H3 | left; reflexivity | exact Hend|].
    eapply district_clean_one_column; eassumption. }
  destruct (filter _ (labels m2)) as [|d ds] eqn:E; injection H as <-; [exact Hm2|].
  unfold one_column. rewrite columns_named_drop; [exact Hm2|].
  rewrite <- E, list_elem_of_filter. intros [Hd _]. rewrite Hend in Hd. exact Hd.
Qed.

Lemma not_in_selected l ls (f right : frame) :
  l ∉ ["District_Clean"; "Community_SIP"; "Overall_Potential"; "match_key"] ->
  (forall l', l' ∈ ls -> l' ∈ ["District_Clean"; "Community_SIP"; "Overall_Potential"]) ->
  select ls f = Ok right ->
  l ∉ labels (drop ["District_Clean"] right).
Proof.
  intros Hno Hls Hsel [Hl _]%drop_labels.
  apply (select_labels _ _ _ _ Hsel), Hls in Hl. apply Hno.
  repeat (apply elem_of_cons in Hl as [->|Hl]; [find_elem|]).
  apply elem_of_nil in Hl. destruct Hl.
Qed.

Lemma merge_community_one_column master_data community master' l :
  ctl (merge_community master_data community) = Next master' ->
  Text.endswith "_x" l = false -> Text.endswith "_y" l = false ->
  l ∉ ["District_Clean"; "Community_SIP"; "Overall_Potential"; "match_key"] ->
  one_column l master_data -> one_column l master'.
Proof.
  unfold merge_community. intros H Hx Hy Hno Hl.
  apply ctl_bind_Next in H as (c1 & _ & H).
  apply ctl_bind_Next in H as (st & _ & H).
  apply ctl_bind_Next in H as (vs & _ & H).
  apply ctl_bind_Next in H as (c2 & _ & H).
  apply ctl_bind_Next in H as (right & Hsel%ctl_lift_Next & H).
  apply ctl_bind_Next in H as (m1 & Hmerge%ctl_lift_Next & H).
  apply ctl_bind_Next in H as (u & _ & H). injection H as <-.
  apply one_column_fill_label.
  eapply merge_left_one_column; [exact Hmerge | right; split; [exact Hx|] | exact Hy | exact Hl].
  eapply not_in_selected; [exact Hno | | exact Hsel].
  intros l' Hl'. repeat (apply elem_of_cons in Hl' as [->|Hl']; [find_elem|]).
  apply elem_of_nil in Hl'. destruct Hl'.
Qed.

Lemma merge_potential_one_column master_data potential master' l :
  ctl (merge_potential master_data potential) = Next master' ->
  Text.endswith "_x" l = false -> Text.endswith "_y" l = false ->
  l ∉ ["District_Clean"; "Community_SIP"; "Overall_Potential"; "match_key"] ->
  one_column l master_data -> one_column l master'.
Proof.
  unfold merge_potential. intros H Hx Hy Hno Hl.
  apply ctl_bind_Next in H as (p0 & _ & H).
  apply ctl_bind_Next in H as (p1 & _ & H).
  apply ctl_bind_Next in H as (right & Hsel%ctl_lift_Next & H).
  apply ctl_lift_Next in H.
  eapply merge_left_one_column; [exact H | right; split; [exact Hx|] | exact Hy | exact Hl].
  eapply not_in_selected; [exact Hno | | exact Hsel].
  intros l' Hl'. repeat (apply elem_of_cons in Hl' as [->|Hl']; [find_elem|]).
  apply elem_of_nil in Hl'. destruct Hl'.
Qed.

(** The master data has exactly one column for the district names and one
    for each ranking. *)
Lemma build_master_one_column wb m master_data l :
  ctl (build_master wb m) = Next master_data ->
  l ∈ ["District"; "Adaptation_New"; "Mitigation_New"; "Replacement_New"] ->
  one_column l master_data.
Proof.
  intros H Hl. destruct (kept_label_facts l Hl) as (Hend & Hx & Hy & Hno).
  assert (Hne : l <> "District_Clean").
  { intros ->. apply Hno. find_elem. }
  unfold build_master in H.
  apply ctl_bind_Next in H as (recs & _ & H).
  apply ctl_bind_Next in H as (m0 & Hset%ctl_lift_Next & H).
  apply ctl_bind_Next in H as (m1 & Hrec & H).
  apply ctl_bind_Next in H as (m2 & Hcom & H).
  eapply merge_potential_one_column; [exact H | exact Hx | exact Hy | exact Hno|].
  eapply merge_community_one_column; [exact Hcom | exact Hx | exact Hy | exact Hno|].
  eapply merge_recommendations_one_column; [exact Hrec | exact Hend | exact Hne|].
  destruct (set_labels_Ok _ _ _ Hset) as [_ Hlabels].
  apply one_column_NoDup; rewrite Hlabels; [|exact Hl].
  apply (bool_decide_unpack _). vm_compute. exact I.
Qed.

Lemma clean_shapefile_NoDup shp gdf :
  ctl (clean_shapefile shp) = Next gdf -> NoDup (labels shp) -> NoDup (labels gdf).
Proof.
  unfold clean_shapefile. intros H%ctl_lift_Next Hnd.
  pose proof H as [Hin _]%select_Ok.
  destruct (select_NoDup _ shp Hnd Hin) as (g & Hg & Hl).
  rewrite H in Hg. injection Hg as <-. rewrite Hl.
  apply NoDup_cons. split; [|apply NoDup_filter, Hnd].
  intros [H' _]%list_elem_of_filter. exact H'.
Qed.

Lemma prepare_inputs_columns w shp gdf master_data match_column :
  read_file w = Ok shp -> NoDup (labels shp) ->
  ctl (prepare_inputs w) = Next (gdf, master_data, match_column) ->
  NoDup (labels gdf)
  /\ "geometry" ∈ labels gdf /\ "match_key" ∈ labels gdf /\ match_column ∈ labels gdf
  /\ forall l, l ∈ ["District"; "Adaptation_New"; "Mitigation_New"; "Replacement_New"] ->
                 one_column l master_data.
Proof.
  unfold prepare_inputs. intros Hread Hshp H.
  apply ctl_bind_Next in H as (shp' & [_ Hshp']%load_shapefile_Next & H).
  rewrite Hread in Hshp'. injection Hshp' as <-.
  apply ctl_bind_Next in H as (gdf1 & Hclean & H).
  pose proof (clean_shapefile_NoDup _ _ Hclean Hshp) as Hnd1.
  apply clean_shapefile_Next in Hclean as [Hgeo Hgdf].
  apply ctl_bind_Next in H as (wb & _ & H).
  apply ctl_bind_Next in H as (m & _ & H).
  apply ctl_bind_Next in H as (master & Hbuild & H).
  assert (Hgeo1 : "geometry" ∈ labels gdf1).
  { apply list_elem_of_fmap in Hgeo as (c & Hl & Hc). rewrite Hl.
    apply list_elem_of_fmap_2, Hgdf. split; [exact Hc | left; congruence]. }
  unfold add_match_keys in H.
  apply ctl_bind_Next in H as (clean & _ & H).
  assert (Hone : forall l,
             l ∈ ["District"; "Adaptation_New"; "Mitigation_New"; "Replacement_New"] ->
             one_column l (assign "match_key" DObject (apply_match_key clean) master)).
  { intros l Hl. apply one_column_assign; [|eapply build_master_one_column; eassumption].
    intros ->. destruct (kept_label_facts _ Hl) as (_ & _ & _ & Hno). apply Hno. find_elem. }
  destruct (has "NAME_2" gdf1) eqn:Hn.
  - apply ctl_bind_Next in H as (names & _ & H). injection H as <- <- <-.
    apply bool_decide_eq_true in Hn. rewrite !labels_assign.
    split; [apply assign_NoDup, Hnd1|]. repeat split; auto.
  - destruct (has "District" gdf1) eqn:Hdi; [|rewrite ctl_bind in H; discriminate].
    apply ctl_bind_Next in H as (names & _ & H). injection H as <- <- <-.
    apply bool_decide_eq_true in Hdi. rewrite !labels_assign.
    split; [apply assign_NoDup, Hnd1|]. repeat split; auto.
Qed.

Lemma fill_missing_labels recs (final_gdf out : frame) :
  ctl (fill_missing recs final_gdf) = Next out -> labels out = labels final_gdf.
Proof.
  intros H%fill_missing_fmap. subst out. unfold labels. rewrite <- list_fmap_compose.
  apply list_fmap_ext. intros _ c _. apply label_foldl_run_step.
Qed.

Lemma check_duplicates_keeps_label (filled out : frame) l :
  ctl (check_duplicates filled) = Next out -> l ∈ labels filled -> l ∈ labels out.
Proof.
  unfold check_duplicates. destruct (loc_mask _ _).
  - intros [= <-]. auto.
  - rewrite ctl_bind. simpl. intros [= <-]. apply drop_duplicated_keeps_label.
Qed.

Lemma suitability_old_facts pair :
  pair ∈ suitability_mapping ->
  pair ∈ core_suitability_mapping /\ pair.1 ∉ ["match_key"; "District_Clean"].
Proof.
  assert (H : Forall (fun p : string * string =>
                p ∈ core_suitability_mapping /\ p.1 ∉ ["match_key"; "District_Clean"])
              suitability_mapping).
  { apply (bool_decide_unpack _). vm_compute. exact I. }
  intros Hp. rewrite Forall_forall in H. exact (H _ Hp).
Qed.

(** A run whose inputs load and whose columns do not clash gets through the
    merge, the final columns, the fill and the last duplicate check, and
    every suitability column of the master data has its field in the
    result. *)
Lemma assemble_returns w shp gdf master_data match_column :
  read_file w = Ok shp -> NoDup (labels shp) ->
  ctl (prepare_inputs w) = Next (gdf, master_data, match_column) ->
  one_column "match_key" master_data ->
  (forall l, l ∈ labels gdf -> l ∈ labels master_data -> l = "match_key") ->
  exists final_gdf,
    ctl (assemble (gdf, master_data, match_column)) = Next final_gdf
    /\ forall pair, pair ∈ suitability_mapping -> pair.1 ∈ labels master_data ->
                    pair.2 ∈ labels final_gdf.
Proof.
  intros Hread Hshp Hprep Hkm Hshare.
  destruct (prepare_inputs_columns _ _ _ _ _ Hread Hshp Hprep)
    as (Hg & Hgeo & Hkg & Hcol & Hone).
  assert (Ha : one_column "Adaptation_New" master_data) by (apply Hone; find_elem).
  assert (Hd : one_column "District" master_data) by (apply Hone; find_elem).
  pose proof (prepare_inputs_boundary _ _ _ _ Hprep) as Hb.
  destruct (merge_geometry_returns gdf master_data match_column)
    as (merged & Hmerge & Hsub & Hsubm); try assumption.
  destruct (finalize_returns gdf merged) as (final & recs & Hfin & Hndf & Hfields);
    try assumption.
  destruct (fill_missing_returns recs final Hndf) as [filled Hfill].
  destruct (check_duplicates_returns filled) as [out Hout].
  exists out. split.
  - unfold assemble.
    rewrite ctl_bind, Hmerge, ctl_bind, Hfin. cbv beta iota.
    rewrite ctl_bind, Hfill. exact Hout.
  - intros pair [Hcore Hno]%suitability_old_facts Hold.
    apply (check_duplicates_keeps_label _ _ _ Hout).
    rewrite (fill_missing_labels _ _ _ Hfill).
    apply Hfields; [exact Hcore | | exact Hno].
    apply Hsubm; [exact Hold|]. intros E. apply Hno. rewrite E. find_elem.
Qed.

End NoAbort.




(** ** The row pairs of a left merge *)

Section LeftJoin.

Import Frame.

Lemma matches_from_sorted k rk j0 : StronglySorted lt (matches_from j0 k rk).
Proof.
  revert j0. induction rk as [|r rk IH]; intros j0; simpl; [constructor|].
  destruct (decide (k = r)); [|apply IH].
  constructor; [apply IH|]. apply Forall_forall. intros j Hj.
  apply matches_from_spec in Hj as [Hj _]. lia.
Qed.

Lemma rows_for_sorted i k rk : StronglySorted pair_lt (rows_for i k rk).
Proof.
  unfold rows_for. pose proof (matches_from_sorted k rk 0) as Hs.
  destruct (matches_from 0 k rk) as [|j js]; [repeat constructor|].
  induction Hs as [|a l Hs IH Ha]; [constructor|].
  rewrite fmap_cons. constructor; [exact IH|].
  apply Forall_fmap, Forall_forall. intros b Hb. rewrite Forall_forall in Ha.
  right. split; [reflexivity|]. exists a, b. simpl. auto.
Qed.

Lemma sorted_app {X} (R : X -> X -> Prop) l1 l2 :
  StronglySorted R l1 -> StronglySorted R l2 ->
  (forall x y, x ∈ l1 -> y ∈ l2 -> R x y) ->
  StronglySorted R (l1 ++ l2).
Proof.
  intros H1 H2 H. induction H1 as [|a l1 H1 IH Ha]; [exact H2|].
  simpl. constructor.
  - apply IH. intros x y Hx. apply H. apply elem_of_cons. right. exact Hx.
  - apply Forall_app. split; [exact Ha|]. apply Forall_forall. intros y Hy.
    apply H; [apply elem_of_cons; left; reflexivity | exact Hy].
Qed.

Lemma indexer_from_sorted i0 lk rk : StronglySorted pair_lt (indexer_from i0 lk rk).
Proof.
  revert i0. induction lk as [|k lk IH]; intros i0; cbn [indexer_from]; [constructor|].
  apply sorted_app; [apply rows_for_sorted | apply IH|].
  intros p q [Hp _]%rows_for_elem (k' & Hq & _)%indexer_from_elem. left. lia.
Qed.

Lemma rows_for_paired i k rk j : rk !! j = Some k -> (i, Some j) ∈ rows_for i k rk.
Proof.
  intros Hj. assert (Hin : j ∈ matches_from 0 k rk).
  { apply matches_from_spec. split; [lia|]. replace (j - 0) with j by lia. exact Hj. }
  unfold rows_for. destruct (matches_from 0 k rk) as [|j0 js]; [apply elem_of_nil in Hin; destruct Hin|].
  apply (list_elem_of_fmap_2 (fun j => (i, Some j))), Hin.
Qed.

Lemma rows_for_alone i k rk : k ∉ rk -> (i, None) ∈ rows_for i k rk.
Proof.
  intros H. unfold rows_for. rewrite (proj2 (matches_from_nil k rk 0) H).
  apply list_elem_of_singleton. reflexivity.
Qed.

Lemma indexer_from_has i0 lk rk i k p :
  lk !! i = Some k -> p ∈ rows_for (i0 + i) k rk -> p ∈ indexer_from i0 lk rk.
Proof.
  revert i0 i. induction lk as [|k0 lk IH]; intros i0 i; [discriminate|].
  cbn [indexer_from]. rewrite elem_of_app. destruct i as [|i]; simpl.
  - intros [= ->]. replace (i0 + 0) with i0 by lia. auto.
  - intros Hk Hp. right. apply (IH (S i0) i); [exact Hk|].
    replace (S i0 + i) with (i0 + S i) by lia. exact Hp.
Qed.

(** The indexer of the merge lists the row pairs of a left join. *)
Lemma merge_indexer_left_join lk rk : left_join lk rk (merge_indexer lk rk).
Proof.
  split; [apply indexer_from_sorted|]. split.
  - intros i j. split; [apply merge_indexer_paired|].
    intros (k & Hl & Hr). apply (indexer_from_has 0 lk rk i k); [exact Hl|].
    apply rows_for_paired, Hr.
  - intros i. split; [apply merge_indexer_unmatched|].
    intros (k & Hl & Hr). apply (indexer_from_has 0 lk rk i k); [exact Hl|].
    apply rows_for_alone, Hr.
Qed.

Lemma matches_from_count k rk j0 :
  length (matches_from j0 k rk) = length (filter (fun x => x = k) rk).
Proof.
  revert j0. induction rk as [|r rk IH]; intros j0; simpl; [reflexivity|].
  rewrite filter_cons. destruct (decide (k = r)) as [->|Hne].
  - rewrite decide_True by reflexivity. simpl. f_equal. apply IH.
  - rewrite decide_False by congruence. apply IH.
Qed.

Lemma filter_all_or_nothing {X} (P : X -> Prop) `{forall x, Decision (P x)} (l : list X) :
  (Forall P l -> filter P l = l) /\ (Forall (fun x => ~ P x) l -> filter P l = []).
Proof.
  split; intros Hall; induction Hall as [|x l Hx _ IH]; try reflexivity.
  - rewrite filter_cons_True by exact Hx. f_equal. exact IH.
  - rewrite filter_cons_False by exact Hx. exact IH.
Qed.

(** The rows of the left row [i]: as many as right rows have its key, and
    one when there is none. *)
Lemma indexer_from_count i0 lk rk i k :
  lk !! i = Some k ->
  length (filter (fun p : nat * option nat => p.1 = i0 + i) (indexer_from i0 lk rk))
  = Nat.max 1 (length (filter (fun x => x = k) rk)).
Proof.
  revert i0 i. induction lk as [|k0 lk IH]; intros i0 i; [discriminate|].
  cbn [indexer_from]. rewrite filter_app, length_app. destruct i as [|i]; simpl.
  - intros [= ->]. replace (i0 + 0) with i0 by lia.
    rewrite (proj1 (filter_all_or_nothing _ (rows_for i0 k rk))).
    + rewrite (proj2 (filter_all_or_nothing _ (indexer_from (S i0) lk rk))).
      * rewrite rows_for_length, (matches_from_count k rk 0). simpl. lia.
      * apply Forall_forall. intros p (k' & Hp & _)%indexer_from_elem. lia.
    + apply Forall_forall. intros p [Hp _]%rows_for_elem. exact Hp.
  - intros Hk. rewrite (proj2 (filter_all_or_nothing _ (rows_for i0 k0 rk))).
    + simpl. replace (i0 + S i) with (S i0 + i) by lia. apply IH, Hk.
    + apply Forall_forall. intros p [Hp _]%rows_for_elem. lia.
Qed.

Lemma merge_indexer_count lk rk i k :
  lk !! i = Some k ->
  length (filter (fun p : nat * option nat => p.1 = i) (merge_indexer lk rk))
  = Nat.max 1 (length (filter (fun x => x = k) rk)).
Proof. intros H. exact (indexer_from_count 0 lk rk i k H). Qed.



End LeftJoin.

(** ** The joins of the master record builder *)

Section BuilderJoins.

Import Frame.

Lemma get_dup dup dup' l (f : frame) c : get dup l f = Ok c -> get dup' l f = Ok c.
Proof.
  unfold get. destruct (columns_named l f) as [|c0 [|c1 cs]]; try discriminate. auto.
Qed.

Lemma get_one dup l (f : frame) c :
  one_column l f -> c ∈ f -> label c = l -> get dup l f = Ok c.
Proof.
  intros Hone Hc Hl. destruct (one_column_get dup l f Hone) as [c0 H0].
  rewrite (get_unique _ _ _ _ _ H0 Hc Hl). exact H0.
Qed.

Lemma get_one_column dup l (f : frame) c : get dup l f = Ok c -> one_column l f.
Proof.
  unfold get, one_column. destruct (columns_named l f) as [|c0 [|c1 cs]]; try discriminate.
  reflexivity.
Qed.


Lemma district_clean_Ok (f g : frame) :
  district_clean f = Ok g ->
  exists d, get AttributeError "District" f = Ok d
            /\ g = assign "District_Clean" DObject (district_key <$> cells d) f.
Proof.
  unfold district_clean.
  destruct (get AttributeError "District" f) as [d|] eqn:Hd; [|discriminate]. simpl.
  destruct (str_title_strip d) as [vs|] eqn:Hvs; [|discriminate]. simpl. intros [= <-].
  apply str_title_strip_cells in Hvs. subst vs. eauto.
Qed.


Lemma get_assign_other dup l l' d vs (f : frame) c :
  l <> l' -> get dup l f = Ok c -> get dup l (assign l' d vs f) = Ok c.
Proof.
  intros Hne Hget. pose proof (get_elem _ _ _ _ Hget) as [Hc Hl].
  apply get_one; [|apply assign_other; congruence | exact Hl].
  apply one_column_assign; [exact Hne | eapply get_one_column, Hget].
Qed.

Lemma district_clean_keyed (f g : frame) :
  district_clean f = Ok g -> keyed g.
Proof.
  intros (d & Hd & ->)%district_clean_Ok. exists d. split.
  - apply get_assign_other; [discriminate | exact Hd].
  - intros k [->|[_ Hne]]%assign_elem Hl; [reflexivity | contradiction].
Qed.























End BuilderJoins.

(** ** The joins of the builder pair rows with equal cleaned names *)




(** ** The joins of the builder never remove a row *)




(** ** The geometry merge keeps every boundary feature *)

Section GeometryMerge.

Import Frame.

Lemma sorted_lookup {X} (R : X -> X -> Prop) (l : list X) i j x y :
  StronglySorted R l -> i < j -> l !! i = Some x -> l !! j = Some y -> R x y.
Proof.
  intros Hs. revert i j. induction Hs as [|a l Hs IH Ha]; intros i j Hij Hi Hj.
  - discriminate.
  - destruct j as [|j]; [lia|]. destruct i as [|i]; simpl in *.
    + injection Hi as <-. rewrite Forall_forall in Ha.
      apply Ha, list_elem_of_lookup_2 with j, Hj.
    + apply (IH i j); [lia | assumption | assumption].
Qed.

Lemma left_join_in_order lk rk ix r r' p p' :
  left_join lk rk ix -> r <= r' -> ix !! r = Some p -> ix !! r' = Some p' -> p.1 <= p'.1.
Proof.
  intros (Hs & _) Hr Hp Hp'.
  destruct (decide (r = r')) as [->|Hne]; [rewrite Hp in Hp'; injection Hp' as <-; lia|].
  assert (H : pair_lt p p') by (apply (sorted_lookup _ ix r r'); [assumption | lia | assumption..]).
  destruct H as [H|[H _]]; lia.
Qed.

Lemma merge_geometry_merge gdf master_data match_column merged_gdf :
  ctl (merge_geometry gdf master_data match_column) = Next merged_gdf ->
  merge_left "_x" "_y" "match_key" gdf master_data = Ok merged_gdf.
Proof.
  unfold merge_geometry. rewrite ctl_print_bind.
  destruct (merge_left "_x" "_y" "match_key" gdf master_data) as [merged|];
    [|rewrite ctl_lift_Err_bind; discriminate].
  rewrite ctl_lift_bind.
  destruct (get ValueError "Adaptation_New" merged) as [a|];
    [|rewrite ctl_lift_Err_bind; discriminate].
  rewrite ctl_lift_bind, ctl_print_bind.
  intros H. apply ctl_bind_Next in H as (u & _ & [= <-]). reflexivity.
Qed.

End GeometryMerge.

(** C2 (as amended). The geometry merge is a left join on the boundary
    side. The rows of the merged frame are the pairs [ix] of a boundary
    feature and a master record with the same match key, and the boundary
    features no master record has the key of, in the order of the boundary
    features: every boundary column is there with its cells taken feature by
    feature as [ix] lists them, followed by the fields of the master data.
    Every feature appears; a feature whose key is absent from the master
    data appears once, in a row without master record, and it carries only
    missing values in the merged fields. The merged frame has at least as
    many rows as there are features, and exactly one row per feature, in
    order, when no two master records share a match key. *)
Theorem geometry_merge_keeps_every_feature
    (gdf master_data merged_gdf : frame) (match_column : string) :
  ctl (merge_geometry gdf master_data match_column) = Next merged_gdf ->
  exists (lk rk : series) (overlap : list string) (ix : list (nat * option nat)),
    Frame.key_column "match_key" gdf = Ok lk
    /\ Frame.key_column "match_key" master_data = Ok rk
    /\ left_join (cells lk) (cells rk) ix
    /\ let fields := Frame.right_part overlap "_y" ix (Frame.drop ["match_key"] master_data) in
       merged_gdf = Frame.left_part overlap "_x" ix gdf ++ fields
       /\ (forall i, i < length (cells lk) -> exists o, (i, o) ∈ ix)
       /\ (forall r r' p p', r <= r' -> ix !! r = Some p -> ix !! r' = Some p' -> p.1 <= p'.1)
       /\ (forall i k, cells lk !! i = Some k -> k ∉ cells rk ->
             length (filter (fun p : nat * option nat => p.1 = i) ix) = 1
             /\ (i, None) ∈ ix
             /\ forall r o, ix !! r = Some (i, o) ->
                  o = None /\ forall c, c ∈ fields -> cells c !! r = Some NaN)
       /\ length (cells lk) <= length ix
       /\ (NoDup (cells rk) ->
           length ix = length (cells lk) /\ ix.*1 = seq 0 (length (cells lk))).
Proof.
  intros H. apply merge_geometry_merge, merge_left_inv in H as (lk & rk & Hl & Hr & ->).
  exists lk, rk, (Frame.overlap_labels gdf (Frame.drop ["match_key"] master_data)),
    (Frame.merge_indexer (cells lk) (cells rk)).
  pose proof (merge_indexer_left_join (cells lk) (cells rk)) as Hjoin.
  split; [exact Hl|]. split; [exact Hr|]. split; [exact Hjoin|]. cbv zeta.
  split; [reflexivity|]. split; [|split; [|split; [|split]]].
  - intros i Hi. apply indexer_from_covers. lia.
  - intros r r' p p'. apply (left_join_in_order _ _ _ _ _ _ _ Hjoin).
  - intros i k Hk Hnot. split; [|split].
    + rewrite (merge_indexer_count _ _ i k Hk).
      assert (E : filter (fun x => x = k) (cells rk) = []).
      { apply (filter_all_or_nothing (fun x => x = k)). apply Forall_forall.
        intros x Hx ->. exact (Hnot Hx). }
      rewrite E. reflexivity.
    + apply Hjoin. eauto.
    + intros r o Hix.
      assert (Ho : o = None).
      { destruct o as [j|]; [|reflexivity]. exfalso.
        apply list_elem_of_lookup_2, merge_indexer_paired in Hix as (k' & Hk' & Hj).
        rewrite Hk in Hk'. injection Hk' as <-. apply Hnot.
        eapply list_elem_of_lookup_2, Hj. }
      subst o. split; [reflexivity|].
      intros c (c0 & -> & _)%list_elem_of_fmap. simpl.
      eapply take_right_unmatched, Hix.
  - unfold Frame.merge_indexer. rewrite indexer_from_length. apply merged_rows_ge.
  - intros Hnd. unfold Frame.merge_indexer. split.
    + rewrite indexer_from_length. apply merged_rows_unique, Hnd.
    + apply indexer_from_unique, Hnd.
Qed.

Lemma geometry_merge_keeps_every_feature_witness :
  exists (merged_gdf : frame) (lk rk : series) (overlap : list string)
         (ix : list (nat * option nat)),
    ctl (merge_geometry
           [text "NAME_2" [Str "Pune"; Str "Panaji"];
            text "match_key" [Str "pune"; Str "panaji"]]
           [text "Adaptation_New" [Str "Highly Suitable"];
            text "match_key" [Str "pune"]] "NAME_2") = Next merged_gdf
    /\ left_join (cells lk) (cells rk) ix
    /\ merged_gdf =
         Frame.left_part overlap "_x" ix
           [text "NAME_2" [Str "Pune"; Str "Panaji"];
            text "match_key" [Str "pune"; Str "panaji"]]
         ++ Frame.right_part overlap "_y" ix
              (Frame.drop ["match_key"]
                 [text "Adaptation_New" [Str "Highly Suitable"];
                  text "match_key" [Str "pune"]]).
Proof.
  eexists.
  destruct (geometry_merge_keeps_every_feature
              [text "NAME_2" [Str "Pune"; Str "Panaji"];
               text "match_key" [Str "pune"; Str "panaji"]]
              [text "Adaptation_New" [Str "Highly Suitable"];
               text "match_key" [Str "pune"]] _ "NAME_2" eq_refl)
    as (lk & rk & overlap & ix & _ & _ & Hjoin & Heq & _).
  exists lk, rk, overlap, ix. split; [reflexivity|]. split; [exact Hjoin | exact Heq].
Defined.

(** C2, the claim as stated fails: the ranking sheet lists a district twice,
    and the one boundary feature comes out as two features. *)
Lemma geometry_merge_can_add_features :
  exists f : frame,
    ToFile "true_solar_suitability.shp" f
      ∈ (create_true_solar_suitability_shapefile twice_ranked_world).1
    /\ Frame.nrows f = 2
    /\ read_file twice_ranked_world = Ok one_feature
    /\ Frame.nrows one_feature = 1.
Proof.
  eexists. split; [vm_compute; find_elem|]. repeat split.
Qed.

(** ** Repeated column names: the first column of a name is the one kept *)

Section KeepFirst.

Import Frame.










End KeepFirst.



(** ** The short names of the acronym sheet *)

Section ShortNames.

Lemma build_acronym_mapping_rows gis_acronym m :
  build_acronym_mapping gis_acronym = Ok m ->
  m = foldl acronym_entry ∅ (acronym_rows gis_acronym).
Proof.
  unfold build_acronym_mapping, acronym_rows.
  destruct (decide (Frame.nrows gis_acronym = 0)); [intros [= <-]; reflexivity|].
  destruct (Frame.get ValueError "Original" gis_acronym) as [original|]; [|discriminate].
  destruct (Frame.get ValueError "GIS Raw data layer" gis_acronym) as [gis_raw|];
    [|discriminate].
  simpl. intros [= <-]. reflexivity.
Qed.

Lemma acronym_entries_none (rows : list (value * value)) k :
  foldl acronym_entry ∅ rows !! k = None
  <-> forall name short, (name, short) ∈ rows -> key_of name = Some k -> short = NaN.
Proof.
  induction rows as [|[original gis_raw] rows IH] using rev_ind.
  - simpl. rewrite lookup_empty. split; [|reflexivity].
    intros _ name short H. apply elem_of_nil in H. destruct H.
  - rewrite acronym_entries_snoc, acronym_entry_lookup.
    destruct (decide (key_of original = Some k /\ gis_raw <> NaN)) as [[Hk Hraw]|Hno].
    + split; [discriminate|]. intros H. destruct Hraw. apply (H original); [|exact Hk].
      rewrite elem_of_app, list_elem_of_singleton. auto.
    + rewrite IH. split.
      * intros H name short [Hin|Hin]%elem_of_app Hk; [exact (H name short Hin Hk)|].
        apply list_elem_of_singleton in Hin. injection Hin as -> ->.
        destruct (decide (gis_raw = NaN)) as [E|E]; [exact E | destruct Hno; auto].
      * intros H name short Hin. apply H. rewrite elem_of_app. auto.
Qed.

Lemma lookup_short_name (rows : list (value * value)) col short :
  acronym_lookup (foldl acronym_entry ∅ rows) col = Some short <-> short_name rows col short.
Proof.
  unfold acronym_lookup, short_name. destruct (key_of col) as [k|]; simpl.
  - rewrite acronym_entries_last. split.
    + intros (b & a & name & E & Hk & Hs & Hafter). exists b, a, name, k. auto.
    + intros (b & a & name & k' & E & [= <-] & Hk & Hs & Hafter). exists b, a, name. auto.
  - split; [discriminate|]. intros (b & a & name & k & _ & Hk & _). discriminate.
Qed.

Lemma lookup_no_short_name (rows : list (value * value)) col :
  acronym_lookup (foldl acronym_entry ∅ rows) col = None <-> no_short_name rows col.
Proof.
  unfold acronym_lookup, no_short_name. destruct (key_of col) as [k|]; simpl.
  - rewrite acronym_entries_none. split.
    + intros H name short k' Hin [= <-] Hk. exact (H name short Hin Hk).
    + intros H name short Hin Hk. exact (H name short k Hin eq_refl Hk).
  - split; [|reflexivity]. intros _ name short k _ Hk. discriminate.
Qed.

(** The new name of a label, in the words of the acronym sheet. *)
Lemma new_col_name_renamed_as (rows : list (value * value)) col new :
  new_col_name (foldl acronym_entry ∅ rows) col = Ok new -> renamed_as rows col new.
Proof.
  unfold new_col_name, renamed_as.
  destruct (decide (col ∈ [Str "State"; Str "District"])) as [Hk|Hk].
  - rewrite (bool_decide_eq_true_2 _ Hk). intros [= <-]. left. auto.
  - rewrite (bool_decide_eq_false_2 _ Hk).
    destruct (acronym_lookup (foldl acronym_entry ∅ rows) col) as [v|] eqn:E.
    + intros [= <-]. right. left. split; [exact Hk | apply lookup_short_name, E].
    + apply lookup_no_short_name in E. destruct col; try discriminate.
      intros [= <-]. right. right. split; [exact Hk|]. split; [exact E|]. eauto.
Qed.

End ShortNames.

(** C6 (as amended). With the dictionary made from the acronym sheet, the
    renaming of the recommendation sheet goes column by column, and the
    renamed sheet has the same columns with their cells in the same order.
    The two key columns "State" and "District" keep their names, also when
    the acronym sheet has a short name for them. Any other column whose
    label the acronym sheet gives a short name (the short name of the last
    row that names the label and has one) is renamed to that short name,
    text or not. Any other column with a text label is renamed to the first
    ten characters of its label; with no short name for
    "Groundwater Development Status" that column becomes "Groundwate". The
    renaming returns when every label is text or has a short name, and it
    raises [TypeError] when some label is not text and has no short name. *)
Theorem recommendation_columns_renamed
    (gis_acronym : frame) (acronym_mapping : gmap dict_key value)
    (district_recommendations : sheet) :
  build_acronym_mapping gis_acronym = Ok acronym_mapping ->
  let rows := acronym_rows gis_acronym in
  (forall renamed,
     ctl (rename_recommendations acronym_mapping district_recommendations) = Next renamed ->
     Forall2 (fun c c' =>
                ctype c' = ctype c /\ ccells c' = ccells c
                /\ renamed_as rows (header c) (header c')
                /\ (header c = Str "Groundwater Development Status" ->
                    no_short_name rows (header c) -> header c' = Str "Groundwate"))
             district_recommendations renamed)
  /\ ((forall c, c ∈ district_recommendations -> ~ not_renamable rows (header c)) ->
      exists renamed,
        ctl (rename_recommendations acronym_mapping district_recommendations) = Next renamed)
  /\ ((exists c, c ∈ district_recommendations /\ not_renamable rows (header c)) ->
      ctl (rename_recommendations acronym_mapping district_recommendations)
      = Raise TypeError).
Proof.
  intros Hm%build_acronym_mapping_rows. cbv zeta. subst acronym_mapping.
  set (rows := acronym_rows gis_acronym). split; [|split].
  - intros renamed H. eapply Forall2_impl; [apply rename_recommendations_Next, H|].
    intros c c' (Hn & Hd & Hc). split; [exact Hd|]. split; [exact Hc|].
    split; [apply new_col_name_renamed_as, Hn|].
    intros Hg Hno. rewrite Hg in Hn, Hno. apply lookup_no_short_name in Hno.
    unfold new_col_name in Hn. rewrite Hno in Hn.
    rewrite bool_decide_eq_false_2 in Hn.
    + injection Hn as <-. reflexivity.
    + intros Hk. repeat (apply elem_of_cons in Hk as [Hk|Hk]; [discriminate|]).
      apply elem_of_nil in Hk. exact Hk.
  - intros Hall.
    destruct (rename_lines_return (foldl acronym_entry ∅ rows)
                (Sheet.headers district_recommendations) []) as [news Hnews].
    { apply Forall_forall. intros col (c & -> & Hc)%list_elem_of_fmap.
      destruct (is_text (header c)) eqn:Et; [left; reflexivity|]. right.
      destruct (acronym_lookup (foldl acronym_entry ∅ rows) (header c)) as [v|] eqn:E;
        [eauto|].
      destruct (Hall c Hc). split; [exact Et | apply lookup_no_short_name, E]. }
    eexists. unfold rename_recommendations. rewrite ctl_bind, Hnews. reflexivity.
  - intros (c & Hc & Ht & Hno). unfold rename_recommendations.
    rewrite ctl_bind, (rename_lines_raise (foldl acronym_entry ∅ rows)); [reflexivity|].
    apply Exists_exists. exists (header c). split; [apply list_elem_of_fmap_2, Hc|].
    split; [exact Ht | apply lookup_no_short_name, Hno].
Qed.

Lemma recommendation_columns_renamed_witness :
  exists renamed : sheet,
    ctl (rename_recommendations (foldl acronym_entry ∅ (acronym_rows sample_acronym))
                                (Sheet.of_frame sample_recommendation)) = Next renamed
    /\ Forall2 (fun c c' => renamed_as (acronym_rows sample_acronym) (header c) (header c'))
               (Sheet.of_frame sample_recommendation) renamed
    /\ Sheet.headers renamed
       = [Str "State"; Str "District"; Str "Groundwate"; Str "Sol_Pump"].
Proof.
  eexists.
  destruct (recommendation_columns_renamed sample_acronym
              (foldl acronym_entry ∅ (acronym_rows sample_acronym))
              (Sheet.of_frame sample_recommendation) eq_refl) as (H & _ & _).
  split; [vm_compute; reflexivity|]. split; [|reflexivity].
  eapply Forall2_impl; [apply H; vm_compute; reflexivity|].
  intros c c' (_ & _ & Hr & _). exact Hr.
Defined.

(** C6, the claim as stated fails: the acronym sheet has the short name
    "Dist" for "District", the label is in the dictionary, and the column
    keeps the name "District". *)
Lemma mapped_key_column_keeps_its_name :
  exists (m : gmap dict_key value) (renamed : sheet),
    build_acronym_mapping key_naming_acronym = Ok m
    /\ acronym_lookup m (Str "District") = Some (Str "Dist")
    /\ ctl (rename_recommendations m (Sheet.of_frame sample_recommendation)) = Next renamed
    /\ Sheet.headers (Sheet.of_frame sample_recommendation)
       = [Str "State"; Str "District"; Str "Groundwater Development Status";
          Str "Solar Pumps"]
    /\ Sheet.headers renamed
       = [Str "State"; Str "District"; Str "Groundwate"; Str "Sol_Pump"].
Proof.
  eexists. eexists. split; [reflexivity|]. split; [vm_compute; reflexivity|].
  split; [vm_compute; reflexivity|]. split; reflexivity.
Qed.

(** * Further properties of the script *)

(** ** The column the features are matched on *)



(** ** The acronym dictionary *)

(** X2. The acronym dictionary holds, under a name, the short name of the
    last row of the acronym sheet that gives that name a short name: a later
    row overwrites an earlier one, and rows with a missing cell write
    nothing. A name is a key of the dictionary: text, or a number, with a
    truth value counting as its number. A sheet without rows gives the empty
    dictionary. *)
Theorem acronym_mapping_keeps_the_last_row
    (gis_acronym : frame) (acronym_mapping : gmap dict_key value) :
  build_acronym_mapping gis_acronym = Ok acronym_mapping ->
  (Frame.nrows gis_acronym = 0 -> acronym_mapping = ∅)
  /\ (Frame.nrows gis_acronym <> 0 ->
      exists original gis_raw,
        Frame.get ValueError "Original" gis_acronym = Ok original
        /\ Frame.get ValueError "GIS Raw data layer" gis_acronym = Ok gis_raw
        /\ forall col short,
             acronym_mapping !! col = Some short
             <-> exists before after name,
                   zip (cells original) (cells gis_raw)
                   = before ++ (name, short) :: after
                   /\ key_of name = Some col
                   /\ short <> NaN
                   /\ forall name' later, (name', later) ∈ after ->
                                          key_of name' = Some col -> later = NaN).
Proof.
  unfold build_acronym_mapping.
  destruct (decide (Frame.nrows gis_acronym = 0)) as [E|E].
  { intros [= <-]. split; [reflexivity | contradiction]. }
  destruct (Frame.get ValueError "Original" gis_acronym) as [original|]; [|discriminate].
  destruct (Frame.get ValueError "GIS Raw data layer" gis_acronym) as [gis_raw|];
    [|discriminate].
  simpl. intros [= <-]. split; [contradiction|]. intros _.
  exists original, gis_raw. split; [reflexivity|]. split; [reflexivity|].
  intros col short. apply acronym_entries_last.
Qed.

Lemma acronym_mapping_keeps_the_last_row_witness :
  exists m : gmap dict_key value,
    build_acronym_mapping twice_named_acronym = Ok m
    /\ m !! inl "Solar Pumps" = Some (Str "SolPumps").
Proof.
  eexists. split; [reflexivity|].
  destruct (acronym_mapping_keeps_the_last_row twice_named_acronym _ eq_refl) as [_ H].
  destruct H as (original & gis_raw & [= <-] & [= <-] & H); [discriminate|].
  apply H.
  exists [(Str "Solar Pumps", Str "Sol_Pump")], [(Str "Solar Pumps", NaN)], (Str "Solar Pumps").
  split; [reflexivity|]. split; [reflexivity|]. split; [discriminate|].
  intros name' later [E|E]%elem_of_cons; [congruence | apply elem_of_nil in E; destruct E].
Defined.

(** ** Renaming the recommendation sheet *)

(** X3. Renaming the recommendation sheet can fail in one way: on a column
    whose label is not text and has no entry in the acronym dictionary, where
    [col[:10]] raises [TypeError]. Without such a column it changes labels
    only: the renamed sheet has the same columns in the same order with their
    types and cells, each under its new name, and the two key columns "State"
    and "District" under their own, whatever the dictionary holds. *)
Theorem renaming_changes_labels_only
    (acronym_mapping : gmap dict_key value) (district_recommendations : sheet) :
  ((forall c, c ∈ district_recommendations ->
              is_text (header c) = true
              \/ is_Some (acronym_lookup acronym_mapping (header c))) ->
   exists renamed,
     ctl (rename_recommendations acronym_mapping district_recommendations) = Next renamed
     /\ Forall2 (fun c c' => new_col_name acronym_mapping (header c) = Ok (header c')
                             /\ ctype c' = ctype c /\ ccells c' = ccells c
                             /\ (header c ∈ [Str "State"; Str "District"] ->
                                 header c' = header c))
                district_recommendations renamed)
  /\ ((exists c, c ∈ district_recommendations /\ is_text (header c) = false
                 /\ acronym_lookup acronym_mapping (header c) = None) ->
      ctl (rename_recommendations acronym_mapping district_recommendations)
      = Raise TypeError).
Proof.
  split.
  - intros Hall.
    destruct (rename_lines_return acronym_mapping
                (Sheet.headers district_recommendations) []) as [news Hnews].
    { apply Forall_forall. intros col (c & -> & Hc)%list_elem_of_fmap. apply Hall, Hc. }
    eexists. assert (Hctl : ctl (rename_recommendations acronym_mapping
                                   district_recommendations)
                            = Next (Sheet.relabel news district_recommendations)).
    { unfold rename_recommendations. rewrite ctl_bind, Hnews. reflexivity. }
    split; [exact Hctl|].
    eapply Forall2_impl; [apply rename_recommendations_Next, Hctl|].
    intros c c' (Hn & Hd & Hc). repeat split; try assumption.
    intros Hkey. unfold new_col_name in Hn.
    rewrite (bool_decide_eq_true_2 _ Hkey) in Hn. congruence.
  - intros (c & Hc & Ht & Hl). unfold rename_recommendations.
    rewrite ctl_bind, (rename_lines_raise acronym_mapping); [reflexivity|].
    apply Exists_exists. exists (header c). split; [|auto].
    apply list_elem_of_fmap_2, Hc.
Qed.

Lemma renaming_changes_labels_only_witness :
  ctl (rename_recommendations ∅ number_headed_recommendation) = Raise TypeError
  /\ exists renamed,
       ctl (rename_recommendations ∅ (Sheet.of_frame sample_recommendation)) = Next renamed
       /\ Sheet.headers renamed
          = [Str "State"; Str "District"; Str "Groundwate"; Str "Solar Pump"].
Proof.
  split.
  - apply (proj2 (renaming_changes_labels_only ∅ number_headed_recommendation)).
    exists (Column (Num 2024) DNumber [Num 12]).
    split; [find_elem|]. split; reflexivity.
  - destruct (proj1 (renaming_changes_labels_only ∅ (Sheet.of_frame sample_recommendation)))
      as (renamed & Hr & _).
    + intros c Hc. left.
      repeat (apply elem_of_cons in Hc as [->|Hc]; [reflexivity|]).
      apply elem_of_nil in Hc. destruct Hc.
    + exists renamed. split; [exact Hr|].
      vm_compute in Hr. injection Hr as <-. reflexivity.
Defined.

(** ** The columns the recommendation merge leaves *)

(** X4. After the merge with the recommendation sheet the master data has
    the ranking sheet's "District" column and not the recommendation
    sheet's: the merge renames the latter "District_district_rec" and the
    script drops it. More generally no column is left whose name ends in
    "_district_rec" while the name without that text is a column too. *)
Theorem recommendation_duplicates_are_dropped
    (master_data district_rec_processed : frame) (not_text : bool) (merged : frame) :
  ctl (merge_recommendations master_data district_rec_processed not_text) = Next merged ->
  "District" ∈ Frame.labels merged
  /\ ("District_district_rec" ∉ Frame.labels merged)
  /\ forall col, col ∈ Frame.labels merged ->
                 Text.endswith "_district_rec" col = true ->
                 Text.remove_sub "_district_rec" col ∉ Frame.labels merged.
Proof.
  unfold merge_recommendations. intros H.
  apply ctl_bind_Next in H as (m1 & H1%ctl_lift_Next & H).
  apply ctl_bind_Next in H as (r1 & H2%ctl_lift_Next & H).
  apply ctl_bind_Next in H as (m2 & H3%ctl_lift_Next & H).
  apply ctl_bind_Next in H as (u & _ & H).
  assert (Hd : "District" ∈ Frame.labels m2).
  { eapply merge_left_keeps_label; [exact H3 | | left; reflexivity].
    unfold district_clean in H1.
    destruct (Frame.get AttributeError "District" master_data) as [c|] eqn:Hget;
      [|discriminate].
    simpl in H1. destruct (Frame.str_title_strip c) as [vs|]; [|discriminate].
    injection H1 as <-. apply labels_assign. right.
    apply get_elem in Hget as [Hc <-]. apply list_elem_of_fmap_2, Hc. }
  set (duplicate_cols :=
         filter (fun col => Text.endswith "_district_rec" col
                            && Frame.has (Text.remove_sub "_district_rec" col) m2)
                (Frame.labels m2)) in H.
  assert (Hsub : forall l, l ∈ Frame.labels merged -> l ∈ Frame.labels m2 /\ l ∉ duplicate_cols).
  { intros l Hl. destruct duplicate_cols as [|d ds] eqn:E; injection H as <-.
    - split; [exact Hl | apply not_elem_of_nil].
    - apply drop_labels in Hl. exact Hl. }
  assert (Hkeep : forall l, l ∈ Frame.labels m2 -> l ∉ duplicate_cols ->
                            l ∈ Frame.labels merged).
  { intros l Hl Hno. destruct duplicate_cols as [|d ds] eqn:E; injection H as <-.
    - exact Hl.
    - apply list_elem_of_fmap in Hl as (c & -> & Hc).
      apply list_elem_of_fmap_2, drop_elem. split; assumption. }
  assert (Hgen : forall col, col ∈ Frame.labels merged ->
                   Text.endswith "_district_rec" col = true ->
                   Text.remove_sub "_district_rec" col ∉ Frame.labels merged).
  { intros col [Hcol Hno]%Hsub Hend [Hbase _]%Hsub. apply Hno.
    apply list_elem_of_filter. split; [|exact Hcol].
    rewrite Hend. unfold Frame.has. rewrite (bool_decide_eq_true_2 _ Hbase). exact I. }
  assert (Hdist : "District" ∈ Frame.labels merged).
  { apply Hkeep; [exact Hd|]. intros [Hend _]%list_elem_of_filter. exact Hend. }
  split; [exact Hdist|]. split; [|exact Hgen].
  intros Hrec. apply (Hgen _ Hrec); [reflexivity | exact Hdist].
Qed.

Lemma recommendation_duplicates_are_dropped_witness :
  "District" ∈ ["District"; "Adaptation_New"; "District_Clean"; "State"; "Sol_Pump"]
  /\ ("District_district_rec"
        ∉ ["District"; "Adaptation_New"; "District_Clean"; "State"; "Sol_Pump"]).
Proof.
  destruct (recommendation_duplicates_are_dropped
              [text "District" [Str "pune"]; text "Adaptation_New" [Str "Less Suitable"]]
              [text "State" [Str "Maharashtra"]; text "District" [Str "Pune "];
               numbers "Sol_Pump" [Num 12]]
              false
              [text "District" [Str "pune"]; text "Adaptation_New" [Str "Less Suitable"];
               text "District_Clean" [Str "Pune"]; text "State" [Str "Maharashtra"];
               numbers "Sol_Pump" [Num 12]])
    as (H1 & H2 & _).
  - vm_compute. reflexivity.
  - split; [exact H1 | exact H2].
Defined.

(** ** The community marker of the master data *)



(** ** The match key *)

Section MatchKey.

Import Text.

Lemma chars_remove_char x s c :
  c ∈ list_ascii_of_string (remove_char x s) <-> c ∈ list_ascii_of_string s /\ c <> x.
Proof.
  induction s as [|d s IH]; simpl.
  - rewrite elem_of_nil. tauto.
  - destruct (Ascii.eqb_spec d x) as [->|Hne]; simpl; rewrite ?elem_of_cons, IH.
    + split; [tauto|]. intros [[->|H] Hc]; [contradiction | tauto].
    + split; [intros [->|H]; tauto | tauto].
Qed.

Lemma chars_lstrip s c :
  c ∈ list_ascii_of_string (lstrip s) -> c ∈ list_ascii_of_string s.
Proof.
  induction s as [|d s IH]; simpl; [tauto|].
  destruct (is_space d); [|tauto]. intros H. apply elem_of_cons. right. apply IH, H.
Qed.

Lemma chars_rstrip s c :
  c ∈ list_ascii_of_string (rstrip s) -> c ∈ list_ascii_of_string s.
Proof.
  induction s as [|d s IH]; simpl; [tauto|].
  destruct (rstrip s) as [|e r].
  - destruct (is_space d); simpl; [intros H; apply elem_of_nil in H; destruct H|].
    intros [->|H]%elem_of_cons; [apply elem_of_cons; left; reflexivity|].
    apply elem_of_nil in H. destruct H.
  - simpl. intros [->|H]%elem_of_cons; apply elem_of_cons; [left; reflexivity|].
    right. apply IH, H.
Qed.

Lemma is_upper_to_lower c : is_upper (to_lower c) = false.
Proof. destruct c as [[] [] [] [] [] [] [] []]; reflexivity. Qed.

Lemma chars_lower s c :
  c ∈ list_ascii_of_string (lower s) -> is_upper c = false.
Proof.
  unfold lower. induction s as [|d s IH]; simpl.
  - intros H. apply elem_of_nil in H. destruct H.
  - intros [->|H]%elem_of_cons; [apply is_upper_to_lower | apply IH, H].
Qed.

Lemma rstrip_idemp s : rstrip (rstrip s) = rstrip s.
Proof.
  induction s as [|c s IH]; simpl; [reflexivity|].
  destruct (rstrip s) as [|d r] eqn:E.
  - destruct (is_space c) eqn:Hc; simpl; [reflexivity|]. rewrite Hc. reflexivity.
  - change (rstrip (String c (String d r))
            = String c (String d r)). simpl in *. rewrite IH. reflexivity.
Qed.

Lemma lstrip_head s :
  lstrip s = "" \/ exists c r, lstrip s = String c r /\ is_space c = false.
Proof.
  induction s as [|c s IH]; simpl; [left; reflexivity|].
  destruct (is_space c) eqn:E; [exact IH | right; eauto].
Qed.

Lemma lstrip_rstrip_lstrip s : lstrip (rstrip (lstrip s)) = rstrip (lstrip s).
Proof.
  destruct (lstrip_head s) as [->|(c & r & -> & Hc)]; [reflexivity|].
  simpl. destruct (rstrip r); simpl; rewrite Hc; simpl; rewrite ?Hc; reflexivity.
Qed.

Lemma strip_idemp s : strip (strip s) = strip s.
Proof. unfold strip. rewrite lstrip_rstrip_lstrip. apply rstrip_idemp. Qed.

End MatchKey.

(** X6. A match key has no space, no hyphen, no period and no upper-case
    letter, whatever the name it is made from. *)
Theorem match_key_has_no_separator (name : value) (c : ascii) :
  c ∈ list_ascii_of_string (create_match_key name) ->
  c <> " "%char /\ c <> "-"%char /\ c <> "."%char /\ Text.is_upper c = false.
Proof.
  unfold create_match_key. destruct (Frame.isna name).
  { intros H. apply elem_of_nil in H. destruct H. }
  intros (((H & Hs)%chars_remove_char & Hh)%chars_remove_char & Hp)%chars_remove_char.
  repeat split; try assumption.
  unfold Text.strip in H. apply chars_rstrip, chars_lstrip in H.
  exact (chars_lower _ _ H).
Qed.

Lemma match_key_has_no_separator_witness :
  "n"%char <> " "%char /\ "n"%char <> "-"%char /\ "n"%char <> "."%char
  /\ Text.is_upper "n" = false.
Proof.
  apply (match_key_has_no_separator (Str " North-24 Parganas")).
  vm_compute. find_elem.
Defined.

(** X7. The match key of the master data is computed from the cleaned name
    ([District.str.title().str.strip()]); it is the match key of the name as
    the sheet has it, when that name is ASCII text or missing. *)
Theorem cleaning_keeps_the_match_key (name : value) :
  ascii_name name ->
  create_match_key (district_key name) = create_match_key name.
Proof.
  intros [->|[s ->]]%ascii_name_is_name; [reflexivity|].
  unfold district_key. simpl Frame.str_cell.
  rewrite !create_match_key_text, lower_strip_title, strip_idemp. reflexivity.
Qed.

Lemma cleaning_keeps_the_match_key_witness :
  create_match_key (district_key (Str " north-24 PARGANAS"))
  = create_match_key (Str " north-24 PARGANAS").
Proof.
  apply cleaning_keeps_the_match_key. right. eexists. split; reflexivity.
Defined.

(** ** When the function returns [True] *)

Lemma report_last final_gdf u :
  ctl (report final_gdf) = Next u ->
  last (trace (report final_gdf)) = Some (Print (TotalFeatures (Frame.nrows final_gdf))).
Proof.
  unfold report. intros H.
  apply ctl_bind_Next in H as (u1 & H1 & H).
  apply ctl_bind_Next in H as (u2 & H2 & _).
  rewrite trace_bind, H1, trace_bind, H2. rewrite !app_assoc. apply last_snoc.
Qed.

Lemma report_returns final_gdf :
  NoDup (Frame.labels final_gdf) -> "Has_CommSIP" ∉ Frame.labels final_gdf ->
  ctl (report final_gdf) = Next tt.
Proof.
  intros Hnd Hno. unfold report.
  assert (Hloop : forall cols, ctl (for_each cols (report_objective final_gdf) tt) = Next tt).
  { induction cols as [|col cols IH]; [reflexivity|]. cbn [for_each]. rewrite ctl_bind.
    assert (H : ctl (report_objective final_gdf col tt) = Next tt).
    { unfold report_objective, Frame.has.
      destruct (decide (col ∈ Frame.labels final_gdf)) as [Hin|Hin].
      - rewrite (bool_decide_eq_true_2 _ Hin).
        destruct (get_NoDup ValueError col final_gdf Hnd Hin) as [c Hc].
        rewrite Hc, ctl_lift_bind. reflexivity.
      - rewrite (bool_decide_eq_false_2 _ Hin). reflexivity. }
    rewrite H. exact IH. }
  rewrite ctl_bind, Hloop. unfold Frame.has. rewrite (bool_decide_eq_false_2 _ Hno).
  reflexivity.
Qed.

(** The events of a run that returned [True]. *)
Lemma returned_true_run w :
  (create_true_solar_suitability_shapefile w).2 = Returned true ->
  exists inputs final_gdf,
    ctl (prepare_inputs w) = Next inputs
    /\ ctl (assemble inputs) = Next final_gdf
    /\ to_file w final_gdf = Ok tt
    /\ trace (body w)
       = trace (prepare_inputs w) ++ trace (assemble inputs)
         ++ [ToFile "true_solar_suitability.shp" final_gdf;
             Print (Saved "true_solar_suitability.shp")]
         ++ trace (report final_gdf)
    /\ exists u, ctl (report final_gdf) = Next u.
Proof.
  intros [u Hu]%returned_true. pose proof Hu as Hbody. unfold body in Hu.
  apply ctl_bind_Next in Hu as (inputs & Hprep & Hu).
  apply ctl_bind_Next in Hu as (final_gdf & Hasm & Hu).
  exists inputs, final_gdf. split; [exact Hprep|]. split; [exact Hasm|].
  destruct (body_saving w inputs final_gdf Hprep Hasm) as [Ht Hc].
  rewrite Hbody in Hc.
  destruct (to_file w final_gdf) as [[]|e] eqn:Hw.
  - destruct (save_succeeded w final_gdf Hw) as [Hst Hsc].
    split; [reflexivity|]. split; [rewrite Ht, Hst; reflexivity|].
    exists u. rewrite <- Hsc. symmetry. exact Hc.
  - destruct (save_failed w final_gdf e Hw) as [_ Hsc]. rewrite Hsc in Hc. discriminate.
Qed.

(** X8. The function returns [True] only after a write that succeeded:
    [to_file] has been called exactly once, on a frame with pairwise distinct
    column names, the call succeeded, the confirmation has been printed, and
    the report ends with the number of features of that frame (the rule of
    "=" that closes the report is a heading, not a line of the trace). *)
Theorem returns_true_only_after_the_write (w : world) :
  let r := create_true_solar_suitability_shapefile w in
  r.2 = Returned true ->
  exists final_gdf,
    written r.1 = [final_gdf]
    /\ to_file w final_gdf = Ok tt
    /\ NoDup (Frame.labels final_gdf)
    /\ Print (Saved "true_solar_suitability.shp") ∈ r.1
    /\ last r.1 = Some (Print (TotalFeatures (Frame.nrows final_gdf))).
Proof.
  cbv zeta. intros H.
  destruct (returned_true_run w H) as (inputs & final_gdf & Hprep & Hasm & Hw & Ht & u & Hr).
  exists final_gdf. simpl. rewrite Ht. split; [|split; [exact Hw|split; [|split]]].
  - rewrite !written_app.
    rewrite (written_prints _ (prepare_inputs_prints w)).
    rewrite (written_prints _ (assemble_prints inputs)).
    rewrite (written_prints _ (report_prints final_gdf)). reflexivity.
  - eapply assemble_NoDup, Hasm.
  - rewrite !elem_of_app. right. right. left. find_elem.
  - rewrite !app_assoc. rewrite last_app. rewrite (report_last _ _ Hr). reflexivity.
Qed.

Lemma returns_true_only_after_the_write_witness :
  exists final_gdf : frame,
    written (create_true_solar_suitability_shapefile sample_world).1 = [final_gdf]
    /\ to_file sample_world final_gdf = Ok tt
    /\ last (create_true_solar_suitability_shapefile sample_world).1
       = Some (Print (TotalFeatures 3)).
Proof.
  destruct (returns_true_only_after_the_write sample_world) as (f & H1 & H2 & _ & _ & H5).
  - vm_compute. reflexivity.
  - exists f. split; [exact H1|]. split; [exact H2|].
    rewrite H5. do 3 f_equal.
    assert (E : [f] = written (create_true_solar_suitability_shapefile sample_world).1)
      by (symmetry; exact H1).
    vm_compute in E. injection E as ->. reflexivity.
Defined.

(** X9. A run whose inputs load, whose column names do not clash, whose
    acronym sheet does not name a column "Has_CommSIP" and whose write
    succeeds gets through every step: the function returns [True]. *)
Theorem healthy_run_returns_true
    (w : world) (shp gdf master_data : frame) (match_column : string) :
  read_file w = Ok shp -> NoDup (Frame.labels shp) ->
  ctl (prepare_inputs w) = Next (gdf, master_data, match_column) ->
  one_column "match_key" master_data ->
  (forall l, l ∈ Frame.labels gdf -> l ∈ Frame.labels master_data -> l = "match_key") ->
  (forall a c, read_excel w "GIS layer accronym" = Ok a -> c ∈ a ->
               label c = "GIS Raw data layer" -> Str "Has_CommSIP" ∉ cells c) ->
  (forall f, to_file w f = Ok tt) ->
  (create_true_solar_suitability_shapefile w).2 = Returned true.
Proof.
  intros Hread Hshp Hprep Hkey Hshare Hacr Hwrite.
  destruct (assemble_returns w shp gdf master_data match_column)
    as (final_gdf & Hasm & _); try assumption.
  destruct (body_saving w _ _ Hprep Hasm) as [Ht Hc].
  destruct (save_succeeded w final_gdf (Hwrite final_gdf)) as [Hst Hsc].
  assert (Hno : "Has_CommSIP" ∉ Frame.labels final_gdf).
  { apply (saved_frame_has_no_Has_CommSIP w "true_solar_suitability.shp"); [exact Hacr|].
    rewrite Ht, !elem_of_app. right. right. apply save_calls_to_file. }
  simpl. rewrite Hc, Hsc.
  rewrite (report_returns final_gdf (assemble_NoDup _ _ Hasm) Hno). reflexivity.
Qed.

Lemma healthy_run_returns_true_witness :
  (create_true_solar_suitability_shapefile sample_world).2 = Returned true.
Proof.
  eapply (healthy_run_returns_true sample_world sample_shapefile).
  - reflexivity.
  - apply (bool_decide_unpack _). vm_compute. exact I.
  - vm_compute. reflexivity.
  - vm_compute. reflexivity.
  - apply (proj1 (Forall_forall (fun l : string => l ∈ _ -> l = "match_key") _)).
    apply (bool_decide_unpack _). vm_compute. exact I.
  - intros a c [= <-] Hc Hl. unfold sample_acronym in Hc.
    repeat (apply elem_of_cons in Hc as [->|Hc]; [try discriminate|]).
    + simpl. intros H. repeat (apply elem_of_cons in H as [H|H]; [discriminate|]).
      apply elem_of_nil in H. exact H.
    + apply elem_of_nil in Hc. destruct Hc.
  - intros f. reflexivity.
Defined.

(** ** The columns of the saved frame *)

Lemma for_each_core_mapping_names entries st st' :
  ctl (for_each entries apply_core_mapping st) = Next st' ->
  exists news, st'.2 = st.2 ++ news /\ forall l, l ∈ news -> l ∈ entries.*2.
Proof.
  revert st. induction entries as [|[old new] entries IH]; intros [m ess]; cbn [for_each].
  - intros [= <-]. exists []. rewrite app_nil_r. split; [reflexivity|].
    intros l Hl. apply elem_of_nil in Hl. destruct Hl.
  - intros H. apply ctl_bind_Next in H as ([m1 ess1] & Hstep & H).
    apply IH in H as (news & -> & Hnews). unfold apply_core_mapping in Hstep.
    destruct (Frame.has old m).
    + apply ctl_bind_Next in Hstep as (c & _ & Hstep). injection Hstep as _ <-.
      exists (new :: news). simpl. rewrite <- app_assoc. split; [reflexivity|].
      intros l [->|Hl]%elem_of_cons; apply elem_of_cons; [left; reflexivity|].
      right. apply Hnews, Hl.
    + injection Hstep as _ <-. exists news. split; [reflexivity|].
      intros l Hl. rewrite fmap_cons. apply elem_of_cons. right. apply Hnews, Hl.
Qed.

(** Where the labels of the frame before the fill come from. *)
Lemma finalize_labels gdf merged_gdf final_gdf district_rec_cols l :
  ctl (finalize gdf merged_gdf) = Next (final_gdf, district_rec_cols) ->
  l ∈ Frame.labels final_gdf ->
  l = "geometry" \/ (l ∈ Frame.labels gdf /\ l <> "match_key")
  \/ l ∈ core_suitability_mapping.*2 \/ l = "Has_CommSI"
  \/ (l ∈ district_rec_cols /\ l ∉ skip_cols gdf).
Proof.
  unfold finalize. intros H Hl.
  apply ctl_bind_Next in H as (m1 & _ & H).
  apply ctl_bind_Next in H as (st & Hloop & H).
  apply for_each_core_mapping_names in Hloop as (news & Hess & Hnews).
  destruct st as [m2 ess2]. simpl in Hess.
  apply ctl_bind_Next in H as ([m3 ess3] & Hflag & H).
  assert (Hess3 : forall x, x ∈ ess3 -> x ∈ ess2 \/ x = "Has_CommSI").
  { unfold add_community_flag in Hflag. destruct (Frame.has "Comm_SIP" m2).
    - apply ctl_bind_Next in Hflag as (c & _ & Hflag). injection Hflag as _ <-.
      intros x [Hx|Hx%list_elem_of_singleton]%elem_of_app; auto.
    - injection Hflag as _ <-. auto. }
  destruct (collect_rec_cols gdf (Frame.labels m3) [] ess3) as (added & Heq & Hadded).
  rewrite Heq in H.
  apply ctl_bind_Next in H as (final & Hsel%ctl_lift_Next & H). injection H as <- <-.
  apply (select_labels _ _ _ _ Hsel) in Hl.
  apply elem_of_app in Hl as [Hl|Hl]; [|do 4 right; split; [exact Hl | apply Hadded, Hl]].
  apply Hess3 in Hl as [Hl|Hl]; [|auto]. rewrite Hess in Hl.
  apply elem_of_cons in Hl as [Hl|Hl]; [left; exact Hl|].
  apply elem_of_app in Hl as [[[_ Hk] Hl]%list_elem_of_filter|Hl]; [auto|].
  right. right. left. apply Hnews, Hl.
Qed.

Lemma assemble_labels gdf master_data match_column final_gdf l :
  (forall x, x ∈ Frame.labels gdf -> boundary_label x) ->
  ctl (assemble (gdf, master_data, match_column)) = Next final_gdf ->
  l ∈ Frame.labels final_gdf ->
  l = "geometry" \/ is_name_column l
  \/ l ∈ core_suitability_mapping.*2 ++ ["Has_CommSI"]
  \/ l ∉ ["geometry"; "match_key"; "District_Clean"; "Adaptation_New"; "Mitigation_New";
          "Replacement_New"; "Overall_Potential"; "Community_SIP"; "State"; "District";
          "Adapt"; "Mitigate"; "Replace"; "General_SI"; "Comm_SIP"; "State_Name";
          "Dist_Name"; "Has_CommSI"].
Proof.
  intros Hb H Hl. unfold assemble in H.
  apply ctl_bind_Next in H as (merged & _ & H).
  apply ctl_bind_Next in H as ([final recs] & Hfin & H).
  apply ctl_bind_Next in H as (filled & Hfill & Hdup).
  apply list_elem_of_fmap in Hl as (c & -> & Hc).
  apply (check_duplicates_elem _ _ _ Hdup) in Hc.
  apply (list_elem_of_fmap_2 label) in Hc. fold (Frame.labels filled) in Hc.
  rewrite (fill_missing_labels _ _ _ Hfill) in Hc.
  destruct (finalize_labels _ _ _ _ _ Hfin Hc) as [H1|[[H2 Hk]|[H3|[H4|[_ H5]]]]].
  - left. exact H1.
  - destruct (Hb _ H2) as [E|[E|E]]; [left; exact E | contradiction | right; left; exact E].
  - right. right. left. apply elem_of_app. left. exact H3.
  - right. right. left. apply elem_of_app. right. rewrite H4. find_elem.
  - do 3 right. intros Hin. apply H5. unfold skip_cols. apply elem_of_app. left. exact Hin.
Qed.

(** X10. Every column of the frame handed to [to_file] is the geometry, a
    NAME column, one of the eight fields the script makes, or a column whose
    name the script does not skip; the matching key, the cleaned district
    name and the columns of the master data the fields are copied from are
    never written. *)
Theorem temporary_columns_are_not_written (w : world) (path : string) (f : frame) (l : string) :
  ToFile path f ∈ (create_true_solar_suitability_shapefile w).1 ->
  l ∈ Frame.labels f ->
  (l = "geometry" \/ is_name_column l
   \/ l ∈ ["Adapt"; "Mitigate"; "Replace"; "General_SI"; "Comm_SIP"; "State_Name";
           "Dist_Name"; "Has_CommSI"]
   \/ l ∉ ["geometry"; "match_key"; "District_Clean"; "Adaptation_New"; "Mitigation_New";
           "Replacement_New"; "Overall_Potential"; "Community_SIP"; "State"; "District";
           "Adapt"; "Mitigate"; "Replace"; "General_SI"; "Comm_SIP"; "State_Name";
           "Dist_Name"; "Has_CommSI"])
  /\ (l ∉ ["match_key"; "District_Clean"; "Adaptation_New"; "Mitigation_New";
           "Replacement_New"; "Overall_Potential"; "Community_SIP"; "State"; "District"]).
Proof.
  simpl. intros (_ & [[gdf master] col] & Hprep & Hasm)%written_frame Hl.
  pose proof (prepare_inputs_boundary _ _ _ _ Hprep) as Hb.
  pose proof (assemble_labels _ _ _ _ _ Hb Hasm Hl) as Hclass.
  split; [exact Hclass|].
  intros Hraw. destruct Hclass as [E|[E|[E|E]]].
  - rewrite E in Hraw.
    repeat (apply elem_of_cons in Hraw as [Hraw|Hraw]; [discriminate|]).
    apply elem_of_nil in Hraw. exact Hraw.
  - repeat (apply elem_of_cons in Hraw as [->|Hraw]; [vm_compute in E; exact E|]).
    apply elem_of_nil in Hraw. exact Hraw.
  - repeat (apply elem_of_cons in Hraw as [->|Hraw];
            [repeat (apply elem_of_cons in E as [E|E]; [discriminate|]);
             apply elem_of_nil in E; exact E|]).
    apply elem_of_nil in Hraw. exact Hraw.
  - apply E.
    repeat (apply elem_of_cons in Hraw as [->|Hraw]; [find_elem|]).
    apply elem_of_nil in Hraw. destruct Hraw.
Qed.

Lemma temporary_columns_are_not_written_witness :
  ("Sol_Pump" ∉ ["match_key"; "District_Clean"; "Adaptation_New"; "Mitigation_New";
                 "Replacement_New"; "Overall_Potential"; "Community_SIP"; "State";
                 "District"])
  /\ exists f : frame,
       ToFile "true_solar_suitability.shp" f
         ∈ (create_true_solar_suitability_shapefile sample_world).1
       /\ "Sol_Pump" ∈ Frame.labels f.
Proof.
  assert (H : exists f : frame,
             ToFile "true_solar_suitability.shp" f
               ∈ (create_true_solar_suitability_shapefile sample_world).1
             /\ "Sol_Pump" ∈ Frame.labels f).
  { eexists. split; vm_compute; find_elem. }
  split; [|exact H]. destruct H as (f & Hf & Hl).
  exact (proj2 (temporary_columns_are_not_written sample_world _ f "Sol_Pump" Hf Hl)).
Defined.

(** ** The distributions of the report *)

Section ValueCounts.







End ValueCounts.









(** ** Missing values in the saved frame *)

Lemma fill_policy_not_missing recs c v : fill_policy recs c = Some v -> v <> NaN.
Proof.
  rewrite fill_policy_steps. apply policy_of_sound, fill_steps_sound.
Qed.

Lemma filled_cells_not_missing recs c v :
  fill_policy recs c = Some v -> NaN ∉ filled_cells recs c.
Proof.
  intros H. unfold filled_cells. rewrite H.
  intros (x & Hx & _)%list_elem_of_fmap. unfold Frame.fill_cell in Hx.
  destruct (Frame.isna x) eqn:E.
  - apply (fill_policy_not_missing _ _ _ H). congruence.
  - subst x. discriminate.
Qed.

Lemma fill_policy_named recs c :
  label c ∈ ["Adapt"; "Mitigate"; "Replace"; "General_SI"; "Comm_SIP"; "Has_CommSI"]
  \/ label c ∈ recs ->
  exists v, fill_policy recs c = Some v.
Proof.
  unfold fill_policy. intros H.
  destruct (bool_decide (label c ∈ suitability_columns)) eqn:E1; [eauto|].
  destruct (decide (label c = "Comm_SIP")); [eauto|].
  destruct (decide (label c = "Has_CommSI")); [eauto|].
  destruct (bool_decide (label c ∈ recs)) eqn:E4; [eauto|].
  apply bool_decide_eq_false in E1, E4. exfalso. destruct H as [H|H]; [|contradiction].
  repeat (apply elem_of_cons in H as [H|H];
          [first [contradiction | apply E1; rewrite H; unfold suitability_columns;
                                  solve [find_elem]]|]).
  apply elem_of_nil in H. exact H.
Qed.

(** X12. In the frame handed to [to_file] a cell can be missing only in the
    geometry, in a NAME column, and in the two fields "State_Name" and
    "Dist_Name": the fill has written a value into every missing cell of the
    four suitability fields, of the community marker and flag, and of every
    recommendation column. *)
Theorem missing_values_are_confined (w : world) (path : string) (f : frame) (c : series) :
  ToFile path f ∈ (create_true_solar_suitability_shapefile w).1 ->
  c ∈ f -> NaN ∈ cells c ->
  label c = "geometry" \/ is_name_column (label c)
  \/ label c ∈ ["State_Name"; "Dist_Name"].
Proof.
  simpl. intros (_ & [[gdf master] col] & Hprep & Hasm)%written_frame Hc Hna.
  pose proof (prepare_inputs_boundary _ _ _ _ Hprep) as Hb.
  unfold assemble in Hasm.
  apply ctl_bind_Next in Hasm as (merged & _ & H).
  apply ctl_bind_Next in H as ([final recs] & Hfin & H).
  apply ctl_bind_Next in H as (filled & Hfill & Hdup).
  apply (check_duplicates_elem _ _ _ Hdup) in Hc.
  apply fill_missing_cells in Hfill.
  apply list_elem_of_lookup in Hc as [i Hi].
  destruct (Forall2_lookup_r _ _ _ _ _ Hfill Hi) as (c0 & Hc0 & Hl & Hcells).
  rewrite Hl, Hcells in *.
  assert (Hpolicy : forall v, fill_policy recs c0 <> Some v).
  { intros v Hv. exact (filled_cells_not_missing _ _ _ Hv Hna). }
  assert (Hin : label c0 ∈ Frame.labels final)
    by (eapply list_elem_of_fmap_2, list_elem_of_lookup_2, Hc0).
  assert (Hfilled : label c0 ∈ ["Adapt"; "Mitigate"; "Replace"; "General_SI";
                                "Comm_SIP"; "Has_CommSI"]
                    \/ label c0 ∈ recs -> False).
  { intros H. destruct (fill_policy_named recs c0 H) as [v Hv]. exact (Hpolicy v Hv). }
  destruct (finalize_labels _ _ _ _ _ Hfin Hin) as [H1|[[H2 Hk]|[H3|[H4|[H5 _]]]]].
  - left. exact H1.
  - destruct (Hb _ H2) as [E|[E|E]]; [left; exact E | contradiction | right; left; exact E].
  - right. right.
    change (label c0 ∈ ["Adapt"; "Mitigate"; "Replace"; "General_SI"; "Comm_SIP";
                        "State_Name"; "Dist_Name"]) in H3.
    repeat (apply elem_of_cons in H3 as [H3|H3];
            [first [ rewrite H3; solve [find_elem]
                   | exfalso; apply Hfilled; left; rewrite H3; solve [find_elem] ]|]).
    apply elem_of_nil in H3. destruct H3.
  - exfalso. apply Hfilled. left. rewrite H4. find_elem.
  - exfalso. apply Hfilled. right. exact H5.
Qed.

Lemma missing_values_are_confined_witness :
  exists (f : frame) (c : series),
    ToFile "true_solar_suitability.shp" f
      ∈ (create_true_solar_suitability_shapefile sample_world).1
    /\ c ∈ f /\ NaN ∈ cells c
    /\ (label c = "geometry" \/ is_name_column (label c)
        \/ label c ∈ ["State_Name"; "Dist_Name"]).
Proof.
  assert (H : exists (f : frame) (c : series),
             ToFile "true_solar_suitability.shp" f
               ∈ (create_true_solar_suitability_shapefile sample_world).1
             /\ c ∈ f /\ NaN ∈ cells c).
  { eexists. eexists. split; [vm_compute; find_elem|].
    split; [do 8 (apply elem_of_cons; right); apply elem_of_cons; left; reflexivity|].
    simpl. find_elem. }
  destruct H as (f & c & Hf & Hc & Hna). exists f, c.
  repeat split; try assumption.
  exact (missing_values_are_confined sample_world _ f c Hf Hc Hna).
Defined.

(** ** The community flag *)

Lemma finalize_flag gdf merged_gdf final_gdf district_rec_cols flag marker :
  ctl (finalize gdf merged_gdf) = Next (final_gdf, district_rec_cols) ->
  flag ∈ final_gdf -> marker ∈ final_gdf ->
  label flag = "Has_CommSI" -> label marker = "Comm_SIP" ->
  cells flag = is_community_sip <$> cells marker.
Proof.
  unfold finalize. intros H Hflag Hmarker Hlf Hlm.
  apply ctl_bind_Next in H as (m1 & _ & H).
  apply ctl_bind_Next in H as ([m2 ess2] & _ & H).
  apply ctl_bind_Next in H as ([m3 ess3] & Hadd & H).
  destruct (foldl (collect_rec_col gdf) ([], ess3) (Frame.labels m3)) as [recs ess4].
  apply ctl_bind_Next in H as (final & Hsel%ctl_lift_Next & H). injection H as <- <-.
  apply select_Ok in Hsel as [_ Hsel].
  apply Hsel in Hflag as [Hflag _]. apply Hsel in Hmarker as [Hmarker _].
  unfold add_community_flag in Hadd. destruct (Frame.has "Comm_SIP" m2) eqn:Hhas.
  - apply ctl_bind_Next in Hadd as (c & Hget%ctl_lift_Next & Hadd). injection Hadd as <- <-.
    apply assign_elem in Hflag as [->|[_ Hne]]; [|contradiction].
    apply assign_elem in Hmarker as [->|[Hmarker _]]; [discriminate|].
    rewrite (get_unique _ _ _ _ _ Hget Hmarker Hlm). reflexivity.
  - injection Hadd as <- <-. apply bool_decide_eq_false in Hhas. destruct Hhas.
    rewrite <- Hlm. apply list_elem_of_fmap_2, Hmarker.
Qed.

Lemma is_community_sip_fill (v : value) :
  is_community_sip (Frame.fill_cell (Str "") v) = is_community_sip v.
Proof. destruct v; reflexivity. Qed.

Lemma fill_flag_cell (v : value) :
  Frame.fill_cell (Bool false) (is_community_sip v) = is_community_sip v.
Proof. reflexivity. Qed.

(** X13. In the frame handed to [to_file] the flag "Has_CommSI" agrees with
    the marker "Comm_SIP" on every feature: it is true exactly where the
    marker is the text "Community SIP", also after the fill has written the
    empty string into the missing markers. *)
Theorem community_flag_follows_the_marker (w : world) (path : string) (f : frame)
  (flag marker : series) :
  ToFile path f ∈ (create_true_solar_suitability_shapefile w).1 ->
  flag ∈ f -> marker ∈ f ->
  label flag = "Has_CommSI" -> label marker = "Comm_SIP" ->
  cells flag = is_community_sip <$> cells marker.
Proof.
  simpl. intros (_ & [[gdf master] col] & _ & Hasm)%written_frame Hflag Hmarker Hlf Hlm.
  unfold assemble in Hasm.
  apply ctl_bind_Next in Hasm as (merged & _ & H).
  apply ctl_bind_Next in H as ([final recs] & Hfin & H).
  apply ctl_bind_Next in H as (filled & Hfill & Hdup).
  apply (check_duplicates_elem _ _ _ Hdup) in Hflag, Hmarker.
  apply fill_missing_cells in Hfill.
  apply list_elem_of_lookup in Hflag as [i Hi], Hmarker as [j Hj].
  destruct (Forall2_lookup_r _ _ _ _ _ Hfill Hi) as (flag0 & Hflag0 & Hl0 & Hc0).
  destruct (Forall2_lookup_r _ _ _ _ _ Hfill Hj) as (marker0 & Hmarker0 & Hl1 & Hc1).
  rewrite Hl0 in Hlf. rewrite Hl1 in Hlm.
  apply list_elem_of_lookup_2 in Hflag0, Hmarker0.
  pose proof (finalize_flag _ _ _ _ _ _ Hfin Hflag0 Hmarker0 Hlf Hlm) as E.
  rewrite Hc0, Hc1. unfold filled_cells, fill_policy. rewrite Hlf, Hlm. simpl.
  rewrite E, <- !list_fmap_compose. apply list_fmap_ext. intros _ v _. simpl.
  rewrite is_community_sip_fill. reflexivity.
Qed.

Lemma community_flag_follows_the_marker_witness :
  exists (f : frame) (flag marker : series),
    ToFile "true_solar_suitability.shp" f
      ∈ (create_true_solar_suitability_shapefile sample_world).1
    /\ flag ∈ f /\ marker ∈ f
    /\ label flag = "Has_CommSI" /\ label marker = "Comm_SIP"
    /\ cells flag = is_community_sip <$> cells marker.
Proof.
  assert (H : exists (f : frame) (flag marker : series),
             ToFile "true_solar_suitability.shp" f
               ∈ (create_true_solar_suitability_shapefile sample_world).1
             /\ flag ∈ f /\ marker ∈ f
             /\ label flag = "Has_CommSI" /\ label marker = "Comm_SIP").
  { eexists. eexists. eexists. split; [vm_compute; find_elem|].
    split; [do 10 (apply elem_of_cons; right); apply elem_of_cons; left; reflexivity|].
    split; [do 7 (apply elem_of_cons; right); apply elem_of_cons; left; reflexivity|].
    split; reflexivity. }
  destruct H as (f & flag & marker & Hf & Hflag & Hmarker & Hlf & Hlm).
  exists f, flag, marker. repeat split; try assumption.
  exact (community_flag_follows_the_marker sample_world _ f flag marker
           Hf Hflag Hmarker Hlf Hlm).
Defined.

(** ** The entry point *)

Lemma returned_true_written w :
  (create_true_solar_suitability_shapefile w).2 = Returned true ->
  exists final_gdf,
    written (create_true_solar_suitability_shapefile w).1 = [final_gdf]
    /\ to_file w final_gdf = Ok tt.
Proof.
  intros H.
  destruct (returned_true_run w H) as (inputs & final_gdf & Hprep & Hasm & Hw & Ht & _).
  exists final_gdf. split; [|exact Hw]. simpl. rewrite Ht, !written_app.
  rewrite (written_prints _ (prepare_inputs_prints w)).
  rewrite (written_prints _ (assemble_prints inputs)).
  rewrite (written_prints _ (report_prints final_gdf)). reflexivity.
Qed.

Lemma line_of_main w l :
  Line l ∈ main w ->
  match (create_true_solar_suitability_shapefile w).2 with
  | Returned true => l ∈ update_app_for_new_shapefile
  | Returned false => l = failed_notice
  | Uncaught _ => False
  end.
Proof.
  unfold main. cbv zeta. intros [H|H]%elem_of_app.
  - apply list_elem_of_fmap in H as (e & He & _). discriminate.
  - destruct (create_true_solar_suitability_shapefile w).2 as [[]|e].
    + apply list_elem_of_fmap in H as (l' & [= ->] & Hl). exact Hl.
    + apply list_elem_of_singleton in H. injection H as ->. reflexivity.
    + apply elem_of_nil in H. exact H.
Qed.

Lemma failed_notice_is_no_instruction : failed_notice ∉ update_app_for_new_shapefile.
Proof. apply (bool_decide_unpack _). vm_compute. exact I. Qed.

(** X14. Run as a script, the program prints the instructions for the app
    only after a run that called [to_file] exactly once and with success; it
    prints the notice of failure only right after a failure line of the
    function, which is then the last thing it prints. *)
Theorem entry_point_reports_the_outcome (w : world) (l : string) :
  Line l ∈ main w ->
  (l ∈ update_app_for_new_shapefile ->
   exists final_gdf,
     written (create_true_solar_suitability_shapefile w).1 = [final_gdf]
     /\ to_file w final_gdf = Ok tt)
  /\ (l = failed_notice ->
      exists before msg,
        main w = before ++ [Inner (Print msg); Line failed_notice]
        /\ failure_message msg).
Proof.
  intros H. pose proof (line_of_main w l H) as Hl. split.
  - intros Hin. apply returned_true_written.
    destruct (create_true_solar_suitability_shapefile w).2 as [[]|e];
      [reflexivity | | destruct Hl].
    subst l. destruct (failed_notice_is_no_instruction Hin).
  - intros ->. unfold main. cbv zeta.
    destruct (create_true_solar_suitability_shapefile w) as [events result] eqn:Hr.
    simpl in *. destruct result as [[]|e]; [|clear Hl|destruct Hl].
    { destruct (failed_notice_is_no_instruction Hl). }
    assert (Hc : ctl (body w) = Return false).
    { unfold create_true_solar_suitability_shapefile in Hr. injection Hr as _ Hr.
      destruct (ctl (body w)) as [u|b|e]; try discriminate. congruence. }
    apply body_returns_after_message in Hc as [_ (msg & Hlast & Hmsg)].
    assert (Hev : events = trace (body w)).
    { unfold create_true_solar_suitability_shapefile in Hr. injection Hr as <- _.
      reflexivity. }
    apply last_Some in Hlast as [before Hlast].
    exists (Inner <$> before), msg. split; [|exact Hmsg].
    rewrite Hev, Hlast, fmap_app, <- app_assoc. reflexivity.
Qed.

Lemma entry_point_reports_the_outcome_witness :
  (exists final_gdf,
      written (create_true_solar_suitability_shapefile sample_world).1 = [final_gdf]
      /\ to_file sample_world final_gdf = Ok tt)
  /\ exists before msg,
       main no_shapefile_world = before ++ [Inner (Print msg); Line failed_notice]
       /\ failure_message msg.
Proof.
  split.
  - apply (entry_point_reports_the_outcome sample_world
             "✅ New shapefile created successfully!").
    + vm_compute. find_elem.
    + find_elem.
  - apply (entry_point_reports_the_outcome no_shapefile_world failed_notice).
    + vm_compute. find_elem.
    + reflexivity.
Defined.

(** ** The warning of the geometry merge *)

Ltac no_warning := repeat first [ emits_step | discriminate ].

Lemma prepare_inputs_no_warning w : emits not_warning (prepare_inputs w).
Proof.
  unfold prepare_inputs, load_shapefile, clean_shapefile, load_workbook,
    build_master, rename_recommendations, rename_line, merge_recommendations,
    merge_community, merge_potential, add_match_keys.
  no_warning.
Qed.

Lemma assemble_tail_no_warning gdf merged_gdf :
  emits not_warning ('(final_gdf, district_rec_cols) ← finalize gdf merged_gdf;
                     final_gdf ← fill_missing district_rec_cols final_gdf;
                     check_duplicates final_gdf).
Proof.
  unfold finalize, apply_core_mapping, add_community_flag,
    fill_missing, fill_rec_col, check_duplicates.
  no_warning.
Qed.

Lemma save_report_no_warning w f : emits not_warning (save w f;; report f).
Proof. unfold save, report, report_objective. no_warning. Qed.

Lemma notna_count_zero vs : notna_count vs = 0 -> Forall (fun v => v = NaN) vs.
Proof.
  unfold notna_count. induction vs as [|v vs IH]; intros H; [constructor|].
  rewrite filter_cons in H. destruct v; simpl in H; try discriminate.
  constructor; [reflexivity | apply IH, H].
Qed.

(** The merge step warns exactly when no merged row has an Adaptation value. *)
Lemma merge_geometry_warning gdf master_data match_column merged_gdf :
  ctl (merge_geometry gdf master_data match_column) = Next merged_gdf ->
  exists adaptation,
    Frame.get ValueError "Adaptation_New" merged_gdf = Ok adaptation
    /\ (Print NoMatchWarning ∈ trace (merge_geometry gdf master_data match_column)
        -> notna_count (cells adaptation) = 0).
Proof.
  unfold merge_geometry. rewrite ctl_print_bind, trace_print_bind.
  destruct (Frame.merge_left "_x" "_y" "match_key" gdf master_data) as [merged|];
    [|rewrite ctl_lift_Err_bind; discriminate].
  rewrite ctl_lift_bind, trace_lift_bind.
  destruct (Frame.get ValueError "Adaptation_New" merged) as [a|] eqn:Ha;
    [|rewrite ctl_lift_Err_bind; discriminate].
  rewrite ctl_lift_bind, trace_lift_bind, ctl_print_bind, trace_print_bind.
  destruct (decide (notna_count (cells a) = 0)) as [E|E].
  - intros H. apply ctl_bind_Next in H as (u & _ & [= <-]). eauto.
  - rewrite ctl_ret_bind, trace_ret_bind. intros [= <-]. exists a. split; [exact Ha|].
    intros H. exfalso.
    repeat (apply elem_of_cons in H as [H|H]; [discriminate|]).
    apply elem_of_nil in H. exact H.
Qed.

(** X15. When the zero-match warning has been printed and the run reaches the
    write, the field "Adapt" of the written frame holds "No Data" on every
    feature: the warning is printed only when no merged row has an Adaptation
    value. *)
Theorem warned_run_writes_no_adaptation (w : world) (path : string) (f : frame)
  (c : series) (v : value) :
  ToFile path f ∈ (create_true_solar_suitability_shapefile w).1 ->
  Print NoMatchWarning ∈ (create_true_solar_suitability_shapefile w).1 ->
  c ∈ f -> label c = "Adapt" -> v ∈ cells c -> v = Str "No Data".
Proof.
  simpl. intros Hw Hwarn Hc Hl Hv.
  apply written_frame in Hw as (_ & [[gdf master] col] & Hprep & Hasm).
  pose proof (prepare_inputs_boundary _ _ _ _ Hprep) as Hgdf.
  unfold body in Hwarn.
  apply elem_trace_bind in Hwarn as [H|(inputs & Hin & Hwarn)];
    [destruct (prepare_inputs_no_warning w _ H eq_refl)|].
  rewrite Hprep in Hin. injection Hin as <-.
  apply elem_trace_bind in Hwarn as [Hwarn|(f' & _ & H)];
    [|destruct (save_report_no_warning w f' _ H eq_refl)].
  unfold assemble in Hasm, Hwarn.
  apply elem_trace_bind in Hwarn as [Hwarn|(merged' & _ & H)];
    [|destruct (assemble_tail_no_warning gdf merged' _ H eq_refl)].
  apply ctl_bind_Next in Hasm as (merged & Hmg & Hrest).
  apply ctl_bind_Next in Hrest as ([final recs] & Hfin & Hrest).
  apply ctl_bind_Next in Hrest as (filled & Hfill & Hdup).
  destruct (merge_geometry_warning _ _ _ _ Hmg) as (a & Ha & Hzero).
  apply Hzero, notna_count_zero in Hwarn.
  assert (Hs : label c ∈ suitability_columns) by (rewrite Hl; find_elem).
  destruct (assemble_tail_good (fun new x => new = "Adapt" -> x = NaN)
              gdf merged final recs filled f) with (c := c) (v := v)
    as [E|[E E']]; try assumption.
  - intros l Hlg Hsl. exact (suitability_new_not_boundary _ Hsl (Hgdf _ Hlg)).
  - intros c0 old new Hc0 Hpair Hl0.
    unfold suitability_mapping in Hpair.
    apply elem_of_cons in Hpair as [Hpair|Hpair].
    + injection Hpair as -> ->. rewrite (get_unique _ _ _ _ _ Ha Hc0 Hl0).
      eapply Forall_impl; [exact Hwarn|]. auto.
    + apply Forall_forall. intros x _ ->. exfalso.
      repeat (apply elem_of_cons in Hpair as [Hpair|Hpair]; [discriminate|]).
      apply elem_of_nil in Hpair. exact Hpair.
  - destruct E'. apply E, Hl.
Qed.

Lemma warned_run_writes_no_adaptation_witness :
  exists (f : frame) (c : series),
    ToFile "true_solar_suitability.shp" f
      ∈ (create_true_solar_suitability_shapefile zero_match_world).1
    /\ Print NoMatchWarning ∈ (create_true_solar_suitability_shapefile zero_match_world).1
    /\ c ∈ f /\ label c = "Adapt" /\ cells c <> []
    /\ forall v, v ∈ cells c -> v = Str "No Data".
Proof.
  assert (H : exists (f : frame) (c : series),
             ToFile "true_solar_suitability.shp" f
               ∈ (create_true_solar_suitability_shapefile zero_match_world).1
             /\ Print NoMatchWarning
                  ∈ (create_true_solar_suitability_shapefile zero_match_world).1
             /\ c ∈ f /\ label c = "Adapt" /\ cells c <> []).
  { eexists. eexists. split; [vm_compute; find_elem|].
    split; [vm_compute; find_elem|].
    split; [do 3 (apply elem_of_cons; right); apply elem_of_cons; left; reflexivity|].
    split; [reflexivity | discriminate]. }
  destruct H as (f & c & Hf & Hwarn & Hc & Hl & Hne). exists f, c.
  repeat split; try assumption.
  intros v Hv.
  exact (warned_run_writes_no_adaptation zero_match_world _ f c v Hf Hwarn Hc Hl Hv).
Defined.
